(** * CODELENSE: column classification, statistics and chart selection

    A shallow embedding of the data engine of the CSV visualizer
    ([analyzeData], [getChartData], [getBestChartsForData],
    [getLineChartData], [getComparisonData]) together with the JavaScript
    built-ins these functions call, and the properties the specification
    states about them.  The rest of the component follows as far as it
    computes: the rows and columns [handleFileUpload] hands to the analysis,
    the request [handleChartHover] makes and the statistics
    [generateChartInsight] looks up, the object [generateAIInsights] finds in
    the reply, and the colours of the chart cells.  Network calls, the
    parser and the component's state are outside the model.

    Modelling conventions.
    - A JavaScript Number is an IEEE 754 binary64 value.  Finite values carry
      their exact rational value; every arithmetic operation is the exact
      operation followed by rounding to nearest, ties to even ([round64]).
    - A JavaScript String is a [string]; its characters stand for code units.
    - A JavaScript object is the list of its own properties in creation
      order; [Object.keys]/[Object.entries] enumerate array-index keys first,
      in ascending numeric order, then the other keys in creation order.
    - The objects of the component are created by object literals, so a
      property they do not own is looked up in [Object.prototype]: reading
      one of its member names ([prototype_members]) yields the inherited
      function, or [Object.prototype] itself under [__proto__], and an
      assignment to [__proto__] of a value that is no object creates no
      property.  The frequency counters ([tally]), the cells of a row
      ([field]) and the statistics lookup ([columnStats]) read this way.
      A column named [__proto__] would replace the prototype of the object
      [analyzeData] stores its profile in, instead of adding a property; the
      statements about the statistics lookup exclude such a column.
    - [Array.prototype.sort] is the stable sort the language requires; its
      result is determined by the comparison function whenever that function
      is a consistent comparator, which [(a, b) => b[1] - a[1]] is on
      counters that are numbers.
    - Array lengths and occurrence counters are natural numbers: they stay
      below 2^32, where binary64 arithmetic on integers is exact. *)

From Stdlib Require Import ZArith QArith Qround Qabs Qpower Lqa.
From Stdlib Require Import List String Ascii DecimalString Bool Arith Lia.
From Stdlib Require Import Permutation Sorted.
Import ListNotations.

Set Implicit Arguments.

(** ** Numbers *)

Module Num.

Inductive number : Type :=
| NaN
| Inf (neg : bool)
| NegZero
| Fin (q : Q).

Definition zero : number := Fin 0.

Definition pow2 (z : Z) : Q := (2 ^ z)%Q.

(** Nearest integer, ties to the even one. *)
Definition round_half_even (q : Q) : Z :=
  let f := Qfloor q in
  match Qcompare (q - inject_Z f) (1 # 2) with
  | Lt => f
  | Gt => (f + 1)%Z
  | Eq => if Z.even f then f else (f + 1)%Z
  end.

(** Largest [e] with [2^e <= a], for [a > 0]. *)
Definition ilog2 (a : Q) : Z :=
  let e0 := (Z.log2 (Qnum a) - Z.log2 (Zpos (Qden a)))%Z in
  if Qle_bool (pow2 e0) a then e0 else (e0 - 1)%Z.

(** Rounding of a positive rational to binary64: 53 significant bits,
    least exponent -1074, overflow threshold 2^1024. *)
Definition round_pos (a : Q) : option Q :=
  let sh := Z.max (ilog2 a - 52) (-1074) in
  let m := round_half_even (a / pow2 sh) in
  let r := Qred (inject_Z m * pow2 sh) in
  if Qle_bool (pow2 1024) r then None else Some r.

Definition round64 (q : Q) : number :=
  match Qcompare q 0 with
  | Eq => zero
  | Gt => match round_pos q with
          | None => Inf false
          | Some r => Fin r
          end
  | Lt => match round_pos (- q) with
          | None => Inf true
          | Some r => if Qeq_bool r 0 then NegZero else Fin (Qred (- r))
          end
  end.

(** A finite payload is a binary64 value when rounding leaves it unchanged. *)
Definition representable (q : Q) : bool :=
  match round64 q with
  | Fin r => Qeq_bool r q
  | _ => false
  end.

Definition valid (x : number) : bool :=
  match x with
  | Fin q => representable q
  | _ => true
  end.

Definition is_nan (x : number) : bool :=
  match x with NaN => true | _ => false end.

Definition is_finite (x : number) : bool :=
  match x with NaN | Inf _ => false | _ => true end.

Definition of_Z (z : Z) : number := round64 (inject_Z z).
Definition of_nat (n : nat) : number := of_Z (Z.of_nat n).

Definition neg (x : number) : number :=
  match x with
  | NaN => NaN
  | Inf s => Inf (negb s)
  | NegZero => zero
  | Fin q => if Qeq_bool q 0 then NegZero else Fin (Qred (- q))
  end.

(** [x + y] *)
Definition add (x y : number) : number :=
  match x, y with
  | NaN, _ | _, NaN => NaN
  | Inf s, Inf t => if Bool.eqb s t then Inf s else NaN
  | Inf s, _ | _, Inf s => Inf s
  | NegZero, NegZero => NegZero
  | NegZero, Fin q | Fin q, NegZero => Fin q
  | Fin p, Fin q => round64 (p + q)
  end.

(** [x - y] *)
Definition sub (x y : number) : number := add x (neg y).

Definition sign_neg (x : number) : bool :=
  match x with
  | NaN => false
  | Inf s => s
  | NegZero => true
  | Fin q => match Qcompare q 0 with Lt => true | _ => false end
  end.

Definition is_zero (x : number) : bool :=
  match x with
  | NegZero => true
  | Fin q => Qeq_bool q 0
  | _ => false
  end.

Definition signed_zero (s : bool) : number := if s then NegZero else zero.

(** [x * y] *)
Definition mul (x y : number) : number :=
  match x, y with
  | NaN, _ | _, NaN => NaN
  | Inf s, _ =>
      if is_zero y then NaN else Inf (xorb s (sign_neg y))
  | _, Inf s =>
      if is_zero x then NaN else Inf (xorb s (sign_neg x))
  | Fin p, Fin q =>
      if Qeq_bool (p * q) 0
      then signed_zero (xorb (sign_neg x) (sign_neg y))
      else round64 (p * q)
  | _, _ => signed_zero (xorb (sign_neg x) (sign_neg y))
  end.

(** [x / y] *)
Definition div (x y : number) : number :=
  match x, y with
  | NaN, _ | _, NaN => NaN
  | Inf s, Inf _ => NaN
  | Inf s, _ => Inf (xorb s (sign_neg y))
  | _, Inf s => signed_zero (xorb s (sign_neg x))
  | _, _ =>
      if is_zero y
      then if is_zero x then NaN else Inf (xorb (sign_neg x) (sign_neg y))
      else if is_zero x then signed_zero (xorb (sign_neg x) (sign_neg y))
      else match x, y with
           | Fin p, Fin q => round64 (p / q)
           | _, _ => NaN
           end
  end.

(** Comparison of two Numbers; [None] when one of them is [NaN]. *)
Definition compare (x y : number) : option comparison :=
  match x, y with
  | NaN, _ | _, NaN => None
  | Inf s, Inf t =>
      Some (if Bool.eqb s t then Eq else if s then Lt else Gt)
  | Inf s, _ => Some (if s then Lt else Gt)
  | _, Inf s => Some (if s then Gt else Lt)
  | NegZero, NegZero => Some Eq
  | NegZero, Fin q => Some (Qcompare 0 q)
  | Fin p, NegZero => Some (Qcompare p 0)
  | Fin p, Fin q => Some (Qcompare p q)
  end.

(** [x < y] *)
Definition ltb (x y : number) : bool :=
  match compare x y with Some Lt => true | _ => false end.

(** [x <= y] *)
Definition leb (x y : number) : bool :=
  match compare x y with Some Lt | Some Eq => true | _ => false end.

End Num.

Import Num.

Definition tenth : number := round64 (1 # 10).

(** ** Strings and the numeric grammar of ECMAScript *)

Module Lex.

Open Scope char_scope.

Definition is_digit (c : ascii) : bool :=
  let n := nat_of_ascii c in (48 <=? n)%nat && (n <=? 57)%nat.

Definition digit_val (c : ascii) : Z := Z.of_nat (nat_of_ascii c) - 48.

(** [StrWhiteSpaceChar], over the code units below 256. *)
Definition is_space (c : ascii) : bool :=
  let n := nat_of_ascii c in
  ((9 <=? n)%nat && (n <=? 13)%nat) || (n =? 32)%nat || (n =? 160)%nat.

Fixpoint drop_while (p : ascii -> bool) (l : list ascii) : list ascii :=
  match l with
  | c :: r => if p c then drop_while p r else l
  | [] => []
  end.

Fixpoint take_while (p : ascii -> bool) (l : list ascii) : list ascii :=
  match l with
  | c :: r => if p c then c :: take_while p r else []
  | [] => []
  end.

Definition trim_start (l : list ascii) : list ascii := drop_while is_space l.
Definition trim (l : list ascii) : list ascii :=
  rev (drop_while is_space (rev (drop_while is_space l))).

(** Value of a digit sequence in a given radix. *)
Definition digits_val (radix : Z) (val : ascii -> Z) (l : list ascii) : Z :=
  fold_left (fun acc c => acc * radix + val c)%Z l 0%Z.

Fixpoint strip (pre l : list ascii) : option (list ascii) :=
  match pre, l with
  | [], _ => Some l
  | p :: pre', c :: l' => if Ascii.eqb p c then strip pre' l' else None
  | _ :: _, [] => None
  end.

(** An unsigned magnitude read off a literal. *)
Inductive magnitude : Type :=
| MInfinity
| MVal (q : Q).

(** [ExponentPart], when one is present and well formed. *)
Definition scan_exponent (l : list ascii) : Z * list ascii :=
  match l with
  | c :: r =>
      if Ascii.eqb c "e" || Ascii.eqb c "E" then
        let '(sgn, r') :=
          match r with
          | s :: r' =>
              if Ascii.eqb s "+" then (1%Z, r')
              else if Ascii.eqb s "-" then ((-1)%Z, r')
              else (1%Z, r)
          | [] => (1%Z, r)
          end in
        match take_while is_digit r' with
        | [] => (0%Z, l)
        | ds => ((sgn * digits_val 10 digit_val ds)%Z, drop_while is_digit r')
        end
      else (0%Z, l)
  | [] => (0%Z, l)
  end.

Definition mantissa_val (ip fp : list ascii) (ex : Z) : Q :=
  inject_Z (digits_val 10 digit_val (ip ++ fp))
  * (inject_Z 10) ^ (ex - Z.of_nat (List.length fp)).

(** Longest prefix that is a [StrUnsignedDecimalLiteral], with the rest. *)
Definition scan_unsigned (l : list ascii) : option (magnitude * list ascii) :=
  match strip (list_ascii_of_string "Infinity") l with
  | Some r => Some (MInfinity, r)
  | None =>
      let ip := take_while is_digit l in
      let r1 := drop_while is_digit l in
      match r1 with
      | "." :: r2 =>
          let fp := take_while is_digit r2 in
          let r3 := drop_while is_digit r2 in
          match ip, fp with
          | [], [] => None
          | _, _ =>
              let '(ex, r4) := scan_exponent r3 in
              Some (MVal (mantissa_val ip fp ex), r4)
          end
      | _ =>
          match ip with
          | [] => None
          | _ =>
              let '(ex, r4) := scan_exponent r1 in
              Some (MVal (mantissa_val ip [] ex), r4)
          end
      end
  end.

Definition of_magnitude (negative : bool) (m : magnitude) : number :=
  match m with
  | MInfinity => Inf negative
  | MVal q =>
      if Qeq_bool q 0 then signed_zero negative
      else round64 (if negative then - q else q)
  end.

(** Longest prefix that is a [StrDecimalLiteral], with the rest. *)
Definition scan_decimal (l : list ascii) : option (number * list ascii) :=
  let '(negative, body) :=
    match l with
    | "+" :: r => (false, r)
    | "-" :: r => (true, r)
    | _ => (false, l)
    end in
  match scan_unsigned body with
  | Some (m, r) => Some (of_magnitude negative m, r)
  | None => None
  end.

Definition is_bin (c : ascii) : bool := Ascii.eqb c "0" || Ascii.eqb c "1".
Definition is_oct (c : ascii) : bool :=
  let n := nat_of_ascii c in (48 <=? n)%nat && (n <=? 55)%nat.
Definition is_hex (c : ascii) : bool :=
  let n := nat_of_ascii c in
  is_digit c || ((65 <=? n)%nat && (n <=? 70)%nat)
             || ((97 <=? n)%nat && (n <=? 102)%nat).
Definition hex_val (c : ascii) : Z :=
  let n := Z.of_nat (nat_of_ascii c) in
  if is_digit c then n - 48
  else if (n <=? 70)%Z then n - 55 else n - 87.

(** [NonDecimalIntegerLiteral]: the whole input must match. *)
Definition scan_nondecimal (l : list ascii) : option number :=
  match l with
  | "0" :: k :: (_ :: _) as ds =>
      let go radix ok val :=
        if forallb ok ds then Some (of_Z (digits_val radix val ds)) else None in
      if Ascii.eqb k "b" || Ascii.eqb k "B" then go 2%Z is_bin digit_val
      else if Ascii.eqb k "o" || Ascii.eqb k "O" then go 8%Z is_oct digit_val
      else if Ascii.eqb k "x" || Ascii.eqb k "X" then go 16%Z is_hex hex_val
      else None
  | _ => None
  end.

(** [StringToNumber]: the abstract operation behind [Number(s)]. *)
Definition StringToNumber (s : string) : number :=
  match trim (list_ascii_of_string s) with
  | [] => zero
  | t =>
      match scan_nondecimal t with
      | Some x => x
      | None =>
          match scan_decimal t with
          | Some (x, []) => x
          | _ => NaN
          end
      end
  end.

(** [parseFloat] applied to a String. *)
Definition parseFloat (s : string) : number :=
  match scan_decimal (trim_start (list_ascii_of_string s)) with
  | Some (x, _) => x
  | None => NaN
  end.

End Lex.

Import Lex.


(** ** Number to String conversions *)

Module Show.

Open Scope string_scope.

Definition decimal (z : Z) : string :=
  NilZero.string_of_uint (N.to_uint (Z.to_N z)).

Fixpoint zeros (n : nat) : string :=
  match n with O => "" | S n' => "0" ++ zeros n' end.

Definition pow10 (z : Z) : Q := ((inject_Z 10) ^ z)%Q.

(** Largest [e] with [10^e <= a], for [a > 0]. *)
Definition ilog10 (a : Q) : Z :=
  let e1 := (ilog2 a * 30103 / 100000)%Z in
  if Qle_bool (pow10 (e1 + 1)) a then (e1 + 1)%Z
  else if Qle_bool (pow10 e1) a then e1 else (e1 - 1)%Z.

Definition same_number (x : number) (q : Q) : bool :=
  match x with Fin r => Qeq_bool r q | _ => false end.

(** The shortest digit string [s] (with [k] digits) and the exponent [n]
    such that [s * 10^(n-k)] converts back to [q]; among several, the one
    nearest to [q], the even one on a tie (Number::toString, step 5). *)
Fixpoint shortest (fuel : nat) (k : Z) (n : Z) (q : Q) : Z * Z * Z :=
  let unit := pow10 (n - k) in
  let t := (q / unit)%Q in
  let lo := Qfloor t in
  let hi := (lo + 1)%Z in
  let ok_lo := same_number (round64 (inject_Z lo * unit)) q in
  let ok_hi := same_number (round64 (inject_Z hi * unit)) q in
  let pick_hi :=
    if (hi =? 10 ^ k)%Z then (n + 1, k, 10 ^ (k - 1))%Z else (n, k, hi) in
  match ok_lo, ok_hi with
  | true, true =>
      match Qcompare (t - inject_Z lo) (inject_Z hi - t) with
      | Lt => (n, k, lo)
      | Gt => pick_hi
      | Eq => if Z.even lo then (n, k, lo) else pick_hi
      end
  | true, false => (n, k, lo)
  | false, true => pick_hi
  | false, false =>
      match fuel with
      | O => (n, k, lo)
      | S fuel' => shortest fuel' (k + 1) n q
      end
  end.

Definition show_positive (q : Q) : string :=
  let '(n, k, s) := shortest 16 1 (ilog10 q + 1) q in
  let ds := decimal s in
  if ((k <=? n) && (n <=? 21))%Z then ds ++ zeros (Z.to_nat (n - k))
  else if ((0 <? n) && (n <=? 21))%Z then
    substring 0 (Z.to_nat n) ds ++ "." ++ substring (Z.to_nat n) (Z.to_nat (k - n)) ds
  else if ((-6 <? n) && (n <=? 0))%Z then "0." ++ zeros (Z.to_nat (- n)) ++ ds
  else
    let e := (n - 1)%Z in
    let ex := (if (e <? 0)%Z then "-" else "+") ++ decimal (Z.abs e) in
    if (k =? 1)%Z then ds ++ "e" ++ ex
    else substring 0 1 ds ++ "." ++ substring 1 (Z.to_nat (k - 1)) ds ++ "e" ++ ex.

(** [Number::toString(x)] in radix 10. *)
Definition NumberToString (x : number) : string :=
  match x with
  | NaN => "NaN"
  | Inf s => if s then "-Infinity" else "Infinity"
  | NegZero => "0"
  | Fin q =>
      match Qcompare q 0 with
      | Eq => "0"
      | Gt => show_positive q
      | Lt => "-" ++ show_positive (- q)
      end
  end.

(** The integer [n] for which [n / 10^f - q] is as close to zero as possible,
    the larger one when there are two ([q >= 0]). *)
Definition fixed_digits (f : nat) (q : Q) : Z :=
  Qfloor (q * pow10 (Z.of_nat f) + (1 # 2)).

Definition show_fixed (f : nat) (n : Z) : string :=
  let m := decimal n in
  match f with
  | O => m
  | _ =>
      let m' := zeros (S f - String.length m) ++ m in
      let k := String.length m' in
      substring 0 (k - f) m' ++ "." ++ substring (k - f) f m'
  end.

(** [Number.prototype.toFixed(f)]. *)
Definition toFixed (f : nat) (x : number) : string :=
  match x with
  | Fin q =>
      let a := Qabs q in
      let s := match Qcompare q 0 with Lt => "-" | _ => "" end in
      if Qle_bool (pow10 21) a then s ++ show_positive a
      else s ++ show_fixed f (fixed_digits f a)
  | NegZero => show_fixed f 0
  | _ => NumberToString x
  end.

End Show.

Import Show.

(** ** Cells, objects and arrays *)

Open Scope string_scope.

(** The property names of [Object.prototype]. *)
Definition prototype_members : list string :=
  [ "constructor"; "__defineGetter__"; "__defineSetter__"; "hasOwnProperty";
    "__lookupGetter__"; "__lookupSetter__"; "isPrototypeOf";
    "propertyIsEnumerable"; "toString"; "valueOf"; "__proto__";
    "toLocaleString" ].

(** [k in {}]: an object literal that does not own [k] inherits it. *)
Definition inherits (k : string) : bool :=
  existsb (String.eqb k) prototype_members.

(** [String(f)] for the built-in function found under [k]; the function
    under [constructor] is named [Object]. *)
Definition function_source (k : string) : string :=
  "function " ++ (if String.eqb k "constructor" then "Object" else k)
  ++ "() { [native code] }".

(** [String(({})[k])] for a member name [k]: the object under [__proto__]
    prints as [[object Object]]. *)
Definition member_text (k : string) : string :=
  if String.eqb k "__proto__" then "[object Object]" else function_source k.

(** A value read from a row of the dataset: null, missing, a number, a
    string, or the member of [Object.prototype] found under a name the row
    does not own. *)
Inductive cell : Type :=
| CNull
| CUndefined
| CNum (x : number)
| CStr (s : string)
| CMember (name : string).

(** [typeof v === "string"] and [typeof v === "number"] *)
Definition is_string (v : cell) : bool :=
  match v with CStr _ => true | _ => false end.
Definition is_number (v : cell) : bool :=
  match v with CNum _ => true | _ => false end.

(** [v !== null], [v !== undefined], [v !== ""] *)
Definition not_null (v : cell) : bool :=
  match v with CNull => false | _ => true end.
Definition not_undefined (v : cell) : bool :=
  match v with CUndefined => false | _ => true end.
Definition not_blank (v : cell) : bool :=
  match v with CStr "" => false | _ => true end.

(** [ToNumber], the coercion under [isNaN] and [isFinite]; an inherited
    member converts through its text, which is no numeric literal. *)
Definition ToNumber (v : cell) : number :=
  match v with
  | CNull => zero
  | CUndefined => NaN
  | CNum x => x
  | CStr s => StringToNumber s
  | CMember _ => NaN
  end.

Definition isNaN (v : cell) : bool := is_nan (ToNumber v).
Definition isFinite (v : cell) : bool := is_finite (ToNumber v).

(** [String(v)] *)
Definition JsString (v : cell) : string :=
  match v with
  | CNull => "null"
  | CUndefined => "undefined"
  | CNum x => NumberToString x
  | CStr s => s
  | CMember name => member_text name
  end.

(** [typeof v === "number" ? v : parseFloat(v)] *)
Definition coerce (v : cell) : number :=
  match v with
  | CNum x => x
  | _ => parseFloat (JsString v)
  end.

(** An object: its own properties, in creation order. *)
Definition obj (V : Type) : Type := list (string * V).

Fixpoint obj_get {V} (o : obj V) (k : string) : option V :=
  match o with
  | [] => None
  | (k', v) :: r => if String.eqb k' k then Some v else obj_get r k
  end.

(** [o[k] = v]: an existing property keeps its place, a new one goes last. *)
Fixpoint obj_set {V} (o : obj V) (k : string) (v : V) : obj V :=
  match o with
  | [] => [(k, v)]
  | (k', v') :: r =>
      if String.eqb k' k then (k', v) :: r else (k', v') :: obj_set r k v
  end.

(** The array index a property key denotes, if it is the canonical decimal
    form of an integer in [0, 2^32 - 2]. *)
Definition array_index (k : string) : option Z :=
  let cs := list_ascii_of_string k in
  match cs with
  | [] => None
  | c :: r =>
      if forallb is_digit cs
         && (match r with [] => true | _ => negb (Ascii.eqb c "0") end)
      then
        let n := digits_val 10 digit_val cs in
        if (n <? 2 ^ 32 - 1)%Z then Some n else None
      else None
  end.

Definition is_index (k : string) : bool :=
  match array_index k with Some _ => true | None => false end.

Definition index_of (k : string) : Z :=
  match array_index k with Some n => n | None => 0%Z end.

Section Sorting.
Variable A : Type.
(** [gt a b]: the comparison function returns a positive number on [(a, b)]. *)
Variable gt : A -> A -> bool.

Fixpoint insert (x : A) (l : list A) : list A :=
  match l with
  | [] => [x]
  | y :: r => if gt x y then y :: insert x r else x :: l
  end.

(** [Array.prototype.sort(comparefn)]: a stable sort. *)
Definition sort (l : list A) : list A := fold_right insert [] l.
End Sorting.

(** Two array-index properties are out of order. *)
Definition gt_index {V} (a b : string * V) : bool :=
  (index_of (fst b) <? index_of (fst a))%Z.

(** [OrdinaryOwnPropertyKeys]: array indices in ascending order, then the
    other keys in creation order. *)
Definition own_entries {V} (o : obj V) : list (string * V) :=
  sort (@gt_index V) (filter (fun e => is_index (fst e)) o)
  ++ filter (fun e => negb (is_index (fst e))) o.

(** [Object.entries(o)] and [Object.keys(o)] *)
Definition entries {V} (o : obj V) : list (string * V) := own_entries o.
Definition keys {V} (o : obj V) : list string := map fst (own_entries o).

(** A row of the dataset. *)
Definition row : Type := obj cell.

(** [row[column]]: the row's own cell; for a column the row lacks, the
    member of [Object.prototype] of that name, or [undefined]. *)
Definition field (r : row) (column : string) : cell :=
  match obj_get r column with
  | Some v => v
  | None => if inherits column then CMember column else CUndefined
  end.

(** ** analyzeData *)

(** What a property of a frequency object holds: the number of times its
    key was counted, or the string the counter turned into when it started
    from an inherited member. *)
Inductive tallied : Type :=
| Times (n : nat)
| Text (s : string).

Module Profile.
Record numeric_profile : Type := {
  mean : string;
  median : string;
  min : string;
  max : string;
  sum : string;
  count : nat
}.

Record categorical_profile : Type := {
  unique : nat;
  mostCommon : option (string * tallied);
  distribution : obj tallied;
  total : nat
}.

Record analysis : Type := {
  totalRows : nat;
  totalColumns : nat;
  numeric : obj numeric_profile;
  categorical : obj categorical_profile
}.
End Profile.

Definition Qltb (x y : Q) : bool := negb (Qle_bool y x).

Definition length_Q {A} (l : list A) : Q := inject_Z (Z.of_nat (List.length l)).

(** [v !== null && v !== "" && v !== undefined] *)
Definition non_empty (v : cell) : bool :=
  not_null v && not_blank v && not_undefined v.

(** The filter behind [numericValues]. *)
Definition is_numeric_value (v : cell) : bool :=
  (negb (isNaN v) && not_blank v && negb (is_string v))
  || (is_string v && negb (is_nan (parseFloat (JsString v))) && isFinite v).

Definition column_values (csvData : list row) (header : string) : list cell :=
  filter non_empty (map (fun r => field r header) csvData).

(** [numericValues.length > values.length * 0.5 && numericValues.length > 0] *)
Definition mostly_numeric (values numericValues : list cell) : bool :=
  Qltb (length_Q values * (1 # 2)) (length_Q numericValues)
  && (0 <? List.length numericValues)%nat.

(** [(a, b) => a - b] is positive *)
Definition gt_number (a b : number) : bool := ltb zero (sub a b).

(** [ToNumber] of a property of a frequency object. *)
Definition tallied_number (t : tallied) : number :=
  match t with
  | Times n => of_nat n
  | Text s => StringToNumber s
  end.

(** [(a, b) => b[1] - a[1]] is positive *)
Definition gt_count (a b : string * tallied) : bool :=
  match snd a, snd b with
  | Times m, Times n => (0 <? Z.of_nat n - Z.of_nat m)%Z
  | x, y => ltb zero (sub (tallied_number y) (tallied_number x))
  end.

Definition min2 (a b : number) : number :=
  match compare a b with
  | None => NaN
  | Some Lt => a
  | Some Gt => b
  | Some Eq => if sign_neg a then a else b
  end.

Definition max2 (a b : number) : number :=
  match compare a b with
  | None => NaN
  | Some Lt => b
  | Some Gt => a
  | Some Eq => if sign_neg a then b else a
  end.

(** [Math.min(...l)] and [Math.max(...l)] *)
Definition Math_min (l : list number) : number := fold_left min2 l (Inf false).
Definition Math_max (l : list number) : number := fold_left max2 l (Inf true).

(** An array element; reading past the end yields [undefined], which
    arithmetic turns into [NaN]. *)
Definition at_index (l : list number) (i : nat) : number := nth i l NaN.

Definition sum_of (numbers : list number) : number := fold_left add numbers zero.

Definition mean_of (numbers : list number) : number :=
  div (sum_of numbers) (of_nat (List.length numbers)).

Definition median_of (numbers : list number) : number :=
  let sortedNumbers := sort gt_number numbers in
  let mid := (List.length sortedNumbers / 2)%nat in
  if (List.length sortedNumbers mod 2 =? 0)%nat
  then div (add (at_index sortedNumbers (mid - 1)) (at_index sortedNumbers mid)) (of_Z 2)
  else at_index sortedNumbers mid.

Definition numericProfile (numericValues : list cell) : Profile.numeric_profile :=
  let numbers := map coerce numericValues in
  {| Profile.mean := toFixed 2 (mean_of numbers);
     Profile.median := toFixed 2 (median_of numbers);
     Profile.min := toFixed 2 (Math_min numbers);
     Profile.max := toFixed 2 (Math_max numbers);
     Profile.sum := toFixed 2 (sum_of numbers);
     Profile.count := List.length numbers |}.

(** [(x || 0) + 1] for what [freq[key]] reads: a number is incremented, a
    non-empty string and an inherited member are truthy and [+] appends
    ["1"] to their text. *)
Definition increment (t : tallied) : tallied :=
  match t with
  | Times n => Times (n + 1)
  | Text "" => Times 1
  | Text s => Text (s ++ "1")
  end.

(** [freq[key] = (freq[key] || 0) + 1] on [freq = {}]: an own property is
    read and replaced; a key that is not yet an own property reads the
    member of [Object.prototype] of that name, if there is one, and the
    assignment under [__proto__] is dropped by the inherited setter, since
    the value is no object. *)
Definition tally (freq : obj tallied) (key : string) : obj tallied :=
  match obj_get freq key with
  | Some t => obj_set freq key (increment t)
  | None =>
      if String.eqb key "__proto__" then freq
      else if inherits key then obj_set freq key (Text (function_source key ++ "1"))
      else obj_set freq key (Times 1)
  end.

Definition frequencies (values : list cell) : obj tallied :=
  fold_left (fun freq v => tally freq (JsString v)) values [].

Definition categoricalProfile (values : list cell) : Profile.categorical_profile :=
  let freq := frequencies values in
  let sortedFreq := sort gt_count (entries freq) in
  {| Profile.unique := List.length (keys freq);
     Profile.mostCommon := hd_error sortedFreq;
     Profile.distribution := freq;
     Profile.total := List.length values |}.

Inductive column_profile : Type :=
| Numeric (p : Profile.numeric_profile)
| Categorical (p : Profile.categorical_profile).

(** The body of [cols.forEach] once the column's cells are extracted. *)
Definition analyzeColumn (cells : list cell) : column_profile :=
  let values := filter non_empty cells in
  let numericValues := filter is_numeric_value values in
  if mostly_numeric values numericValues
  then Numeric (numericProfile numericValues)
  else Categorical (categoricalProfile values).

Definition analyzeData (csvData : list row) (cols : list string) : Profile.analysis :=
  let '(numericColumns, categoricalColumns) :=
    fold_left
      (fun acc header =>
         match analyzeColumn (map (fun r => field r header) csvData) with
         | Numeric p => (obj_set (fst acc) header p, snd acc)
         | Categorical p => (fst acc, obj_set (snd acc) header p)
         end)
      cols ([], []) in
  {| Profile.totalRows := List.length csvData;
     Profile.totalColumns := List.length cols;
     Profile.numeric := numericColumns;
     Profile.categorical := categoricalColumns |}.

(** The classification of the specification's ColumnClassifier. *)
Inductive kind : Type := NUMERIC | CATEGORICAL.

Definition classify (cells : list cell) : kind :=
  match analyzeColumn cells with
  | Numeric _ => NUMERIC
  | Categorical _ => CATEGORICAL
  end.

Definition dept_salary : list row :=
  [ [("dept", CStr "eng"); ("salary", CNum (of_Z 100))];
    [("dept", CStr "eng"); ("salary", CNum (of_Z 200))];
    [("dept", CStr "sales"); ("salary", CNum (of_Z 50))] ].

(** ** getChartData *)

Module Freq.
Record point : Type := {
  name : string;
  value : tallied;
  percentage : string
}.
End Freq.

(** The loop over [data] that fills [freq] and [totalCount]. *)
Definition count_column (data : list row) (column : string)
  : obj tallied * nat :=
  fold_left
    (fun acc r =>
       let val := field r column in
       if non_empty val
       then (tally (fst acc) (JsString val), (snd acc + 1)%nat)
       else acc)
    data ([], 0%nat).

(** [((value / totalCount) * 100).toFixed(1)] *)
Definition percentage_of (value : tallied) (totalCount : nat) : string :=
  toFixed 1 (mul (div (tallied_number value) (of_nat totalCount)) (of_Z 100)).

Definition label (name : string) : string :=
  if (20 <? String.length name)%nat then substring 0 20 name ++ "..." else name.

Definition getChartData (data : list row) (column : string) (limit : nat)
  : list Freq.point :=
  if (List.length data =? 0)%nat || String.eqb column "" then []
  else
    let '(freq, totalCount) := count_column data column in
    map (fun e =>
           {| Freq.name := label (fst e);
              Freq.value := snd e;
              Freq.percentage := percentage_of (snd e) totalCount |})
        (firstn limit (sort gt_count (entries freq))).

(** ** getBestChartsForData *)

Module Chart.
Inductive chart_type : Type := pie | bar | line | comparison.

(** [column] is set on pie and bar charts, [columns] on the other two. *)
Record spec : Type := {
  type : chart_type;
  column : option string;
  columns : option (list string);
  title : string;
  description : string
}.
End Chart.

Definition show_nat (n : nat) : string := decimal (Z.of_nat n).

(** [l[i]] inside a template or an array literal; the guards of the caller
    keep [i] in range. *)
Definition item (l : list string) (i : nat) : string := nth i l "undefined".

Definition join (sep : string) (l : list string) : string := String.concat sep l.

(** [charts.push(x)] *)
Definition push {A} (l : list A) (x : A) : list A := (l ++ [x])%list.

Definition getBestChartsForData (analysis : option Profile.analysis)
  : list Chart.spec :=
  let categorical :=
    match analysis with Some a => Profile.categorical a | None => [] end in
  let numeric :=
    match analysis with Some a => Profile.numeric a | None => [] end in
  let categoricalCols := keys categorical in
  let numericCols := keys numeric in
  let charts : list Chart.spec := [] in
  let charts :=
    fold_left
      (fun charts col =>
         match obj_get categorical col with
         | Some p =>
             let uniqueCount := Profile.unique p in
             if (2 <=? uniqueCount)%nat && (uniqueCount <=? 15)%nat
             then push charts
                   {| Chart.type := Chart.pie;
                      Chart.column := Some col;
                      Chart.columns := None;
                      Chart.title := col ++ " Distribution";
                      Chart.description :=
                        "Shows the breakdown of " ++ show_nat (Profile.total p)
                        ++ " records across " ++ show_nat uniqueCount
                        ++ " categories" |}
             else charts
         | None => charts
         end)
      categoricalCols charts in
  let charts :=
    fold_left
      (fun charts col =>
         match obj_get categorical col with
         | Some p =>
             let uniqueCount := Profile.unique p in
             if (2 <=? uniqueCount)%nat && (uniqueCount <=? 20)%nat
             then push charts
                   {| Chart.type := Chart.bar;
                      Chart.column := Some col;
                      Chart.columns := None;
                      Chart.title := col ++ " Frequency";
                      Chart.description :=
                        "Count of occurrences for each " ++ col |}
             else charts
         | None => charts
         end)
      categoricalCols charts in
  let charts :=
    if (2 <=? List.length numericCols)%nat
    then push charts
          {| Chart.type := Chart.line;
             Chart.column := None;
             Chart.columns := Some (firstn 3 numericCols);
             Chart.title := "Numeric Trends: " ++ join ", " (firstn 3 numericCols);
             Chart.description :=
               "Shows the progression of numeric values across records" |}
    else charts in
  let charts :=
    if (2 <=? List.length numericCols)%nat
    then push charts
          {| Chart.type := Chart.comparison;
             Chart.column := None;
             Chart.columns := Some [item numericCols 0; item numericCols 1];
             Chart.title := item numericCols 0 ++ " vs " ++ item numericCols 1;
             Chart.description := "Comparison of two numeric variables" |}
    else charts in
  firstn 6 charts.

(** ** getLineChartData and getComparisonData *)

(** A point of a series: the property [index] and one property per column. *)
Definition point : Type := obj number.

Section MapIndexed.
Variables A B : Type.
Variable f : A -> nat -> B.

Fixpoint mapi_from (idx : nat) (l : list A) : list B :=
  match l with
  | [] => []
  | x :: r => f x idx :: mapi_from (S idx) r
  end.

(** [l.map((x, idx) => f(x, idx))] *)
Definition mapi (l : list A) : list B := mapi_from 0 l.
End MapIndexed.

Definition getLineChartData (data : list row) (columns : list string)
  : list point :=
  mapi (fun r idx =>
          let point := [("index", of_nat (idx + 1))] in
          fold_left
            (fun point col =>
               let val := field r col in
               if negb (isNaN val) && not_null val && not_blank val
               then obj_set point col (coerce val)
               else point)
            columns point)
       (firstn 50 data).

(** [.filter(Boolean)] over an array of objects and [null]s. *)
Fixpoint filter_Boolean {A} (l : list (option A)) : list A :=
  match l with
  | [] => []
  | Some x :: r => x :: filter_Boolean r
  | None :: r => filter_Boolean r
  end.

Definition comparison_point (col1 col2 : string) (r : row) (idx : nat)
  : option point :=
  let val1 := field r col1 in
  let val2 := field r col2 in
  if negb (isNaN val1) && negb (isNaN val2) && not_null val1 && not_null val2
  then Some (obj_set (obj_set (obj_set [] col1 (coerce val1)) col2 (coerce val2))
                     "index" (of_nat (idx + 1)))
  else None.

Definition getComparisonData (data : list row) (col1 col2 : string)
  : list point :=
  filter_Boolean (mapi (comparison_point col1 col2) (firstn 100 data)).

(** * Notions used to state the properties *)

(** The [index] property of every point of a series. *)
Definition indices (series : list point) : list (option number) :=
  map (fun p => obj_get p "index") series.

(** The indices of a series are 1, 2, 3, ... in order. *)
Definition sequential (series : list point) : Prop :=
  indices series = map (fun i => Some (of_nat i)) (seq 1 (List.length series)).

(** Whether the comparison series keeps a row. *)
Definition keeps (col1 col2 : string) (r : row) : bool :=
  let val1 := field r col1 in
  let val2 := field r col2 in
  negb (isNaN val1) && negb (isNaN val2) && not_null val1 && not_null val2.

(** Zero-based positions, among the first 100 rows, of the rows kept. *)
Definition kept_positions (data : list row) (col1 col2 : string) : list nat :=
  filter (fun i => keeps col1 col2 (nth i data []))
         (seq 0 (List.length (firstn 100 data))).

(** Two rows, the first of which has no number in column [a]. *)
Definition gap_data : list row :=
  [ [("a", CStr "n/a"); ("b", CNum (of_Z 1))];
    [("a", CNum (of_Z 2)); ("b", CNum (of_Z 3))] ].

(** One row whose cell in column [a] is the empty string. *)
Definition blank_data : list row :=
  [ [("a", CStr ""); ("b", CNum (of_Z 1))] ].

(** One row whose cell in column [a] is a single space. *)
Definition space_data : list row :=
  [ [("a", CStr " "); ("b", CNum (of_Z 1))] ].

(** The chart plan in the words of the specification: the concatenation of
    the four groups of specs, cut to its first six entries. *)
Module Plan.
Definition pie_spec (col : string) (p : Profile.categorical_profile) : Chart.spec :=
  {| Chart.type := Chart.pie;
     Chart.column := Some col;
     Chart.columns := None;
     Chart.title := col ++ " Distribution";
     Chart.description :=
       "Shows the breakdown of " ++ show_nat (Profile.total p)
       ++ " records across " ++ show_nat (Profile.unique p) ++ " categories" |}.

Definition bar_spec (col : string) : Chart.spec :=
  {| Chart.type := Chart.bar;
     Chart.column := Some col;
     Chart.columns := None;
     Chart.title := col ++ " Frequency";
     Chart.description := "Count of occurrences for each " ++ col |}.

Definition line_spec (numericCols : list string) : Chart.spec :=
  {| Chart.type := Chart.line;
     Chart.column := None;
     Chart.columns := Some (firstn 3 numericCols);
     Chart.title := "Numeric Trends: " ++ join ", " (firstn 3 numericCols);
     Chart.description :=
       "Shows the progression of numeric values across records" |}.

Definition comparison_spec (numericCols : list string) : Chart.spec :=
  {| Chart.type := Chart.comparison;
     Chart.column := None;
     Chart.columns := Some (firstn 2 numericCols);
     Chart.title := item numericCols 0 ++ " vs " ++ item numericCols 1;
     Chart.description := "Comparison of two numeric variables" |}.

Definition unique_within (lo hi : nat) (p : Profile.categorical_profile) : bool :=
  (lo <=? Profile.unique p)%nat && (Profile.unique p <=? hi)%nat.

(** One spec per categorical column whose profile passes [ok]. *)
Definition per_column (categorical : obj Profile.categorical_profile)
           (ok : Profile.categorical_profile -> bool)
           (mk : string -> Profile.categorical_profile -> Chart.spec)
  : list Chart.spec :=
  flat_map (fun col =>
              match obj_get categorical col with
              | Some p => if ok p then [mk col p] else []
              | None => []
              end)
           (keys categorical).

Definition all_specs (a : Profile.analysis) : list Chart.spec :=
  let numericCols := keys (Profile.numeric a) in
  (per_column (Profile.categorical a) (unique_within 2 15) pie_spec
   ++ per_column (Profile.categorical a) (unique_within 2 20) (fun col _ => bar_spec col)
   ++ (if (2 <=? List.length numericCols)%nat then [line_spec numericCols] else [])
   ++ (if (2 <=? List.length numericCols)%nat then [comparison_spec numericCols] else []))%list.

Definition plan (a : Profile.analysis) : list Chart.spec := firstn 6 (all_specs a).
End Plan.

Definition is_trend (c : Chart.spec) : bool :=
  match Chart.type c with
  | Chart.line | Chart.comparison => true
  | _ => false
  end.

(** The profile of a column without any value. *)
Definition empty_profile : Profile.categorical_profile :=
  {| Profile.unique := 0;
     Profile.mostCommon := None;
     Profile.distribution := [];
     Profile.total := 0 |}.

(** The test that guards a column's key in a point of the line series. *)
Definition plots (val : cell) : bool :=
  negb (isNaN val) && not_null val && not_blank val.

(** One row with a numeric column named [index]. *)
Definition index_data : list row :=
  [ [("index", CNum (of_Z 7)); ("x", CNum (of_Z 1))] ].

(** The non-empty values of a column, stringified, in row order. *)
Definition stringified (cells : list cell) : list string :=
  map JsString (filter non_empty cells).

(** [seen l k]: the key [k] occurs in [l]. *)
Definition seen (l : list string) (k : string) : bool := existsb (String.eqb k) l.

(** The distinct keys of [l] in the order they are first encountered. *)
Definition first_occ (l : list string) : list string :=
  fold_left (fun acc k => if seen acc k then acc else (acc ++ [k])%list) l [].

(** The number of occurrences of [k] in [l]. *)
Definition occurrences (k : string) (l : list string) : nat :=
  List.length (filter (String.eqb k) l).

(** The tally of a list of keys in first-encountered order. *)
Definition tally_table (l : list string) : list (string * nat) :=
  map (fun k => (k, occurrences k l)) (first_occ l).

(** [before x y l]: an occurrence of [x] precedes an occurrence of [y]. *)
Definition before {A} (x y : A) (l : list A) : Prop :=
  exists l1 l2 l3, l = (l1 ++ x :: l2 ++ y :: l3)%list.

(** The number a counter holds; a counter that turned into text holds
    none. *)
Definition times (t : tallied) : nat :=
  match t with Times n => n | Text _ => 0%nat end.

(** Descending order of the counts. *)
Definition count_ge (a b : string * tallied) : Prop :=
  (times (snd b) <= times (snd a))%nat.

(** No key of the list is the name of a member of [Object.prototype]. *)
Definition no_member_name (l : list string) : bool :=
  forallb (fun k => negb (inherits k)) l.

(** A table of counts as a frequency object. *)
Definition as_counts (t : list (string * nat)) : obj tallied :=
  map (fun e => (fst e, Times (snd e))) t.

(** The comparison of [sort] on two counts. *)
Definition gt_times (a b : string * nat) : bool :=
  (0 <? Z.of_nat (snd b) - Z.of_nat (snd a))%Z.

(** Descending order of two counts. *)
Definition times_ge (a b : string * nat) : Prop := (snd b <= snd a)%nat.

(** [n] times the digit 1. *)
Fixpoint ones (n : nat) : string :=
  match n with
  | O => ""
  | S m => ones m ++ "1"
  end.

(** What the frequency object holds under a key counted [n] times: the
    count, or for the name of an inherited function its text followed by
    one ["1"] per occurrence. *)
Definition tallied_after (k : string) (n : nat) : tallied :=
  if inherits k then Text (function_source k ++ ones n) else Times n.

(** The frequency object of a list of keys: every key other than
    [__proto__], in first-encountered order. *)
Definition frequency_table (l : list string) : obj tallied :=
  let own := filter (fun k => negb (String.eqb k "__proto__")) l in
  map (fun k => (k, tallied_after k (occurrences k own))) (first_occ own).

(** The most common entry is, among the keys of the highest count, the one
    encountered first in the column. *)
Definition first_encountered_wins (cells : list cell) : Prop :=
  forall m,
    Profile.mostCommon (categoricalProfile (filter non_empty cells)) = Some m ->
    forall k,
      In k (stringified cells) ->
      Times (occurrences k (stringified cells)) = snd m ->
      k = fst m \/ before (fst m) k (first_occ (stringified cells)).

(** The digits of an array index: decimal digits without a leading zero. *)
Definition canonical (cs : list ascii) : Prop :=
  cs <> [] /\ forallb is_digit cs = true
  /\ (1 < List.length cs -> (1 <= digit_val (hd "0"%char cs))%Z)%nat.

(** A column whose two values occur once each; the second one stringifies
    to an array index. *)
Definition tied_cells : list cell := [CStr "b"; CNum (of_Z 7)].

Definition tied_data : list row := [ [("c", CStr "b")]; [("c", CNum (of_Z 7))] ].

(** The point [getChartData] makes of an entry of the frequency object. *)
Definition freq_point (totalCount : nat) (e : string * tallied) : Freq.point :=
  {| Freq.name := label (fst e);
     Freq.value := snd e;
     Freq.percentage := percentage_of (snd e) totalCount |}.


(** Two cells holding the infinities. *)
Definition cells_infinities : list cell := [CNum (Inf true); CNum (Inf false)].



(** The numbers a NUMERIC column is summarised from. *)
Definition numbers_of (cells : list cell) : list number :=
  map coerce (filter is_numeric_value (filter non_empty cells)).


(** Two cells holding the number 1e308. *)
Definition cells_1e308 : list cell :=
  let x := CNum (round64 (pow10 308)) in [x; x].

(** The signed number of hundredths [toFixed(2)] prints for a finite value. *)
Definition hundredths (x : number) : Z :=
  match x with
  | Fin q =>
      match Qcompare q 0 with
      | Lt => (- fixed_digits 2 (Qabs q))%Z
      | _ => fixed_digits 2 (Qabs q)
      end
  | _ => 0%Z
  end.

(** The rational a finite number stands for. *)
Definition val (x : number) : Q :=
  match x with Fin q => q | _ => 0%Q end.

(** A list of numbers without [NaN]. *)
Definition no_nan (l : list number) : Prop := Forall (fun x => is_nan x = false) l.

(** The number of tenths of a percent that [percentage_of] prints. *)
Definition percentage_tenths (value totalCount : nat) : Z :=
  match mul (div (of_nat value) (of_nat totalCount)) (of_Z 100) with
  | Fin b => fixed_digits 1 (Qabs b)
  | _ => 0%Z
  end.

(** Sum of a list of integers. *)
Definition sum_Z (l : list Z) : Z := fold_right Z.add 0%Z l.

(** Three rows whose column [a] holds no value. *)
Definition blank_rows : list row :=
  [ [("a", CNull); ("b", CNum (of_Z 1))];
    [("a", CStr ""); ("b", CNum (of_Z 2))];
    [("b", CNum (of_Z 3))] ].

(** The exponent of the binary64 grid around a positive rational, and the
    grid point nearest to it. *)
Definition grid_exp (a : Q) : Z := Z.max (ilog2 a - 52) (-1074).

Definition nearest (a : Q) : Q :=
  (inject_Z (round_half_even (a / pow2 (grid_exp a))) * pow2 (grid_exp a))%Q.

(** Every number cell of a column holds a binary64 value. *)
Definition valid_cell (v : cell) : bool :=
  match v with CNum x => valid x | _ => true end.

(** What the specification states of the percentages of a series: each is
    the rendering of 100 * count / total for a value of the column. *)
Definition percentages_of_counts (data : list row) (column : string) (limit : nat)
  : Prop :=
  let strs := map JsString (column_values data column) in
  Forall (fun p =>
            exists k,
              In k strs
              /\ Freq.name p = label k
              /\ Freq.percentage p
                 = show_fixed 1 (percentage_tenths (occurrences k strs)
                                                   (List.length strs)))
         (getChartData data column limit).

(** Three rows; the first cell of column [c] is the text "constructor". *)
Definition member_data : list row :=
  [ [("c", CStr "constructor")]; [("c", CStr "a")]; [("c", CStr "a")] ].

(** * The rest of the component *)

(** ** handleFileUpload: the rows kept and the columns analysed *)

(** [Object.values(o)] *)
Definition values {V} (o : obj V) : list V := map snd (own_entries o).

Module Upload.
(** [result.data.filter((row) =>
      Object.values(row).some((val) => val !== null && val !== ""))] *)
Definition cleanData (result_data : list row) : list row :=
  filter (fun row => existsb (fun val => not_null val && not_blank val) (values row))
         result_data.

(** [Object.keys(cleanData[0] || {})] *)
Definition cols (cleanData : list row) : list string :=
  keys (match cleanData with r :: _ => r | [] => [] end).

(** [analyzeData(cleanData, cols)] as the [complete] callback calls it on
    the rows the parser delivers. *)
Definition analysisResult (result_data : list row) : Profile.analysis :=
  analyzeData (cleanData result_data) (cols (cleanData result_data)).
End Upload.

(** ** generateChartInsight and handleChartHover *)

(** The outcome of an expression that may throw a [TypeError]. *)
Inductive outcome (A : Type) : Type :=
| Returns (a : A)
| Throws.
Arguments Returns {A} a.
Arguments Throws {A}.

(** What the statistics lookup yields: a profile of the analysis, the
    member of [Object.prototype] found under the column's name, or
    [undefined]. *)
Inductive stats : Type :=
| Stats (p : column_profile)
| Member (name : string)
| Missing.

(** [analysis.numeric[column] || analysis.categorical[column]]; reading a
    property of [null] throws.  The two objects of the analysis are object
    literals: when [numeric] does not own the column, the lookup finds the
    member of [Object.prototype] of that name, if there is one, and that
    member is truthy, so [categorical] is not consulted. *)
Definition columnStats (analysis : option Profile.analysis) (column : string)
  : outcome stats :=
  match analysis with
  | None => Throws
  | Some a =>
      match obj_get (Profile.numeric a) column with
      | Some p => Returns (Stats (Numeric p))
      | None =>
          if inherits column then Returns (Member column)
          else
            match obj_get (Profile.categorical a) column with
            | Some p => Returns (Stats (Categorical p))
            | None => Returns Missing
            end
      end
  end.

Module Hover.
(** An element of [activePayload] and the chart state handed to
    [onMouseMove]. *)
Record entry (P : Type) : Type := { payload : P }.
Record mouse_state (P : Type) : Type := { activePayload : option (list (entry P)) }.

(** The arguments of a call to [generateChartInsight]; [column] is [None]
    when the argument is [undefined]. *)
Record request (P : Type) : Type := {
  chartType : Chart.chart_type;
  column : option string;
  dataPoint : P
}.
End Hover.

(** [chart.column || chart.columns[0]] *)
Definition hover_column (chart : Chart.spec) : outcome (option string) :=
  match Chart.column chart with
  | Some (String a s) => Returns (Some (String a s))
  | _ =>
      match Chart.columns chart with
      | None => Throws
      | Some l => Returns (hd_error l)
      end
  end.

(** [handleChartHover]: the call to [generateChartInsight] it makes, if
    any. *)
Definition handleChartHover {P} (chart : Chart.spec)
           (data : option (Hover.mouse_state P))
  : outcome (option (Hover.request P)) :=
  match data with
  | Some d =>
      match Hover.activePayload d with
      | Some (e :: _) =>
          match hover_column chart with
          | Returns c =>
              Returns (Some {| Hover.chartType := Chart.type chart;
                               Hover.column := c;
                               Hover.dataPoint := Hover.payload e |})
          | Throws => Throws
          end
      | _ => Returns None
      end
  | None => Returns None
  end.

(** ** generateAIInsights: the object in the reply *)

(** The suffix of [s] that starts at the first occurrence of [c]. *)
Fixpoint from_first (c : ascii) (s : string) : option string :=
  match s with
  | EmptyString => None
  | String a r => if Ascii.eqb a c then Some s else from_first c r
  end.

(** The prefix of [s] that ends at the last occurrence of [c]. *)
Fixpoint upto_last (c : ascii) (s : string) : option string :=
  match s with
  | EmptyString => None
  | String a r =>
      match upto_last c r with
      | Some t => Some (String a t)
      | None => if Ascii.eqb a c then Some (String a EmptyString) else None
      end
  end.

(** [aiText.match(/\{[\s\S]*\}/)]: the match starts at the leftmost opening
    brace that a closing brace follows, and the greedy star carries it to the
    last closing brace. *)
Definition jsonMatch (aiText : string) : option string :=
  match from_first "{" aiText with
  | Some t => upto_last "}" t
  | None => None
  end.

Module Insights.
Record fallback : Type := {
  dataType : string;
  summary : string;
  keyInsights : list string;
  trends : list string;
  recommendations : list string
}.

(** What [setAiInsights] receives: the parsed object, or a summary built
    around the reply. *)
Inductive t (J : Type) : Type :=
| Parsed (j : J)
| Fallback (s : fallback).
End Insights.

Section Reply.
Variable J : Type.
(** [JSON.parse], [None] when it throws. *)
Variable JSON_parse : string -> option J.

(** The inner [try] of [generateAIInsights] on the reply text. *)
Definition insights_of_reply (aiText : string) : Insights.t J :=
  match jsonMatch aiText with
  | Some m =>
      match JSON_parse m with
      | Some insights => Insights.Parsed insights
      | None =>
          Insights.Fallback J
            {| Insights.dataType := "Unknown";
               Insights.summary := aiText;
               Insights.keyInsights := ["AI analysis completed"];
               Insights.trends := [];
               Insights.recommendations := [] |}
      end
  | None =>
      Insights.Fallback J
        {| Insights.dataType := "Unknown";
           Insights.summary := aiText;
           Insights.keyInsights := ["AI analysis completed - see summary"];
           Insights.trends := [];
           Insights.recommendations := [] |}
  end.
End Reply.

(** ** The colours of the chart elements *)

Definition COLORS : list string :=
  [ "#000000"; "#1a1a1a"; "#333333"; "#4d4d4d";
    "#666666"; "#808080"; "#999999"; "#b3b3b3" ].

(** [COLORS[index % COLORS.length]], the fill of the [index]-th slice, bar
    or line; [None] stands for [undefined]. *)
Definition fill (index : nat) : option string :=
  nth_error COLORS (index mod List.length COLORS).

(** The fills of the cells drawn for a series: one per entry, by position. *)
Definition fills {A} (series : list A) : list (option string) :=
  mapi (fun _ index => fill index) series.

(** * Notions used to state the further properties *)

(** A cell that keeps its row at upload. *)
Definition has_content (val : cell) : Prop := val <> CNull /\ val <> CStr "".

(** The cells of a column, one per row. *)
Definition column_cells (csvData : list row) (header : string) : list cell :=
  map (fun r => field r header) csvData.

(** The headers whose column is classified NUMERIC, resp. CATEGORICAL. *)
Definition is_numeric_column (csvData : list row) (header : string) : bool :=
  match analyzeColumn (column_cells csvData header) with
  | Numeric _ => true
  | Categorical _ => false
  end.

(** What the statistics lookup yields for an analysed column with the given
    profile: the profile, except that a categorical column named like a
    member of [Object.prototype] is hidden by that member. *)
Definition looked_up (column : string) (p : column_profile) : stats :=
  match p with
  | Numeric _ => Stats p
  | Categorical _ => if inherits column then Member column else Stats p
  end.

(** What the statistics lookup yields for a column that was not analysed. *)
Definition looked_up_unknown (column : string) : stats :=
  if inherits column then Member column else Missing.

(** Two rows whose only column is named [constructor]. *)
Definition member_rows : list row :=
  [ [("constructor", CStr "x")]; [("constructor", CStr "y")] ].

(** A character does not occur in a string. *)
Fixpoint free_of (c : ascii) (s : string) : Prop :=
  match s with
  | EmptyString => True
  | String a r => a <> c /\ free_of c r
  end.

(** The position of a chart type in the order the charts are pushed. *)
Definition rank (t : Chart.chart_type) : nat :=
  match t with
  | Chart.pie => 0
  | Chart.bar => 1
  | Chart.line => 2
  | Chart.comparison => 3
  end.

(** A categorical column that gets a pie chart. *)
Definition pie_ready (categorical : obj Profile.categorical_profile) (col : string)
  : bool :=
  match obj_get categorical col with
  | Some p => (2 <=? Profile.unique p)%nat && (Profile.unique p <=? 15)%nat
  | None => false
  end.

(** A categorical column that gets a bar chart. *)
Definition bar_ready (categorical : obj Profile.categorical_profile) (col : string)
  : bool :=
  match obj_get categorical col with
  | Some p => (2 <=? Profile.unique p)%nat && (Profile.unique p <=? 20)%nat
  | None => false
  end.

(** The point the comparison series makes of row [r] at position [i]. *)
Definition comparison_point_of (col1 col2 : string) (r : row) (i : nat) : point :=
  obj_set (obj_set (obj_set [] col1 (coerce (field r col1)))
                   col2 (coerce (field r col2)))
          "index" (of_nat (i + 1)).

(** A dataset with two columns of numbers. *)
Definition xy_data : list row :=
  [ [("x", CNum (of_Z 1)); ("y", CNum (of_Z 10))];
    [("x", CNum (of_Z 2)); ("y", CNum (of_Z 20))] ].

(** The integers of a list and the sums of its prefixes stay below 2^53 in
    absolute value. *)
Fixpoint sums_within (acc : Z) (l : list Z) : Prop :=
  match l with
  | [] => True
  | z :: r =>
      (Z.abs z < 2 ^ 53)%Z /\ (Z.abs (acc + z) < 2 ^ 53)%Z
      /\ sums_within (acc + z) r
  end.

(** Two rows with three categorical and two numeric columns. *)
Definition three_categories : list row :=
  [ [("a", CStr "p"); ("b", CStr "r"); ("c", CStr "t");
     ("x", CNum (of_Z 1)); ("y", CNum (of_Z 3))];
    [("a", CStr "q"); ("b", CStr "s"); ("c", CStr "u");
     ("x", CNum (of_Z 2)); ("y", CNum (of_Z 4))] ].

(** A cell that enters the statistics of its column when the column is
    NUMERIC. *)
Definition counted (v : cell) : bool := non_empty v && is_numeric_value v.

(** The value of a number up to representation: the class (negative
    infinity, finite, positive infinity, NaN) and, for a finite number, its
    rational in lowest terms; the two zeros have the same key. *)
Definition key (x : number) : Z * Q :=
  match x with
  | NaN => (2%Z, 0%Q)
  | Inf true => ((-1)%Z, 0%Q)
  | Inf false => (1%Z, 0%Q)
  | NegZero => (0%Z, Qred 0)
  | Fin q => (0%Z, Qred q)
  end.

Definition key_le (k1 k2 : Z * Q) : Prop :=
  (fst k1 < fst k2)%Z \/ (fst k1 = fst k2 /\ (snd k1 <= snd k2)%Q).

(** * Sanity checks of the embedding on concrete inputs *)

Example tenth_value : tenth = Fin (3602879701896397 # 36028797018963968).
Proof. vm_compute. reflexivity. Qed.

Example sum_three_tenths :
  add (add tenth tenth) tenth = Fin (1351079888211149 # 4503599627370496).
Proof. vm_compute. reflexivity. Qed.

Example number_42abc : StringToNumber "42abc" = NaN /\ parseFloat "42abc" = of_Z 42.
Proof. vm_compute. split; reflexivity. Qed.

Example number_blank : StringToNumber "  " = zero /\ parseFloat "  " = NaN.
Proof. vm_compute. split; reflexivity. Qed.

Example show_samples :
  map NumberToString
      [of_Z 5; tenth; add (add tenth tenth) tenth; round64 (pow10 21);
       round64 (123456789 # 1000); round64 (pow10 (-7)); of_Z (-42);
       round64 (15 # 10000000); Fin (1 # 8); round64 (pow10 20 * 123)]
  = ["5"; "0.1"; "0.30000000000000004"; "1e+21"; "123456.789"; "1e-7"; "-42";
     "0.0000015"; "0.125"; "1.23e+22"]%string.
Proof. vm_compute. reflexivity. Qed.

Example fixed_samples :
  map (toFixed 2) [of_Z 5; tenth; Fin (1 # 8); round64 (-1 # 1000); NegZero;
                   round64 (1005 # 1000); round64 (35004 # 300); Inf false]
  = ["5.00"; "0.10"; "0.13"; "-0.00"; "0.00"; "1.00"; "116.68"; "Infinity"]%string.
Proof. vm_compute. reflexivity. Qed.

Example entries_order :
  keys (obj_set (obj_set (obj_set (obj_set [] "b" 1%nat) "10" 2%nat) "a" 3%nat) "9" 4%nat)
  = ["9"; "10"; "b"; "a"].
Proof. vm_compute. reflexivity. Qed.

Example analyze_dept_salary :
  analyzeData dept_salary ["dept"; "salary"] =
  {| Profile.totalRows := 3; Profile.totalColumns := 2;
     Profile.numeric :=
       [("salary", {| Profile.mean := "116.67"; Profile.median := "100.00";
                      Profile.min := "50.00"; Profile.max := "200.00";
                      Profile.sum := "350.00"; Profile.count := 3 |})];
     Profile.categorical :=
       [("dept", {| Profile.unique := 2; Profile.mostCommon := Some ("eng", Times 2);
                    Profile.distribution := [("eng", Times 2); ("sales", Times 1)];
                    Profile.total := 3 |})] |}.
Proof. vm_compute. reflexivity. Qed.

Example number_hex : StringToNumber "0x10" = of_Z 16 /\ parseFloat "0x10" = zero.
Proof. vm_compute. split; reflexivity. Qed.

Example number_exp : StringToNumber " 1.5e3 " = of_Z 1500 /\ parseFloat "1e" = of_Z 1
                     /\ StringToNumber "1e400" = Inf false /\ StringToNumber "-.5" = Fin (-1 # 2).
Proof. vm_compute. repeat split; reflexivity. Qed.

Example fives_column :
  analyzeColumn [CStr "5"; CNum (of_Z 5); CStr "5.0"] =
  Numeric {| Profile.mean := "5.00"; Profile.median := "5.00";
             Profile.min := "5.00"; Profile.max := "5.00";
             Profile.sum := "15.00"; Profile.count := 3 |}.
Proof. vm_compute. reflexivity. Qed.

Example three_tenths_shown :
  NumberToString (add (add tenth tenth) tenth) = "0.30000000000000004"
  /\ toFixed 1 (mul (div (of_nat 2) (of_nat 3)) (of_Z 100)) = "66.7".
Proof. vm_compute. split; reflexivity. Qed.

Example upload_sample :
  Upload.cleanData
    [ [("a", CNull); ("b", CStr "")];
      [("a", CNum (of_Z 1)); ("b", CStr "x")];
      [];
      [("a", CNull); ("b", CNum (of_Z 0))] ]
  = [ [("a", CNum (of_Z 1)); ("b", CStr "x")];
      [("a", CNull); ("b", CNum (of_Z 0))] ]
  /\ Upload.cols [ [("b", CStr "x"); ("10", CNull); ("2", CNull)] ] = ["2"; "10"; "b"]
  /\ Upload.cols [] = [].
Proof. vm_compute. repeat split; reflexivity. Qed.

Example json_match_samples :
  jsonMatch "Here you go: {k: {n: 1}} and that is all" = Some "{k: {n: 1}}"
  /\ jsonMatch "{a} then {b}" = Some "{a} then {b}"
  /\ jsonMatch "no object here" = None
  /\ jsonMatch "} before {" = None.
Proof. vm_compute. repeat split; reflexivity. Qed.

Example hover_samples :
  handleChartHover (Plan.bar_spec "dept")
                   (Some {| Hover.activePayload := Some [ {| Hover.payload := 7 |} ] |})
  = Returns (Some {| Hover.chartType := Chart.bar;
                     Hover.column := Some "dept";
                     Hover.dataPoint := 7 |})
  /\ handleChartHover (Plan.bar_spec "")
                      (Some {| Hover.activePayload := Some [ {| Hover.payload := 7 |} ] |})
     = Throws
  /\ handleChartHover (Plan.bar_spec "dept")
                      (Some {| Hover.activePayload := Some (@nil (Hover.entry nat)) |})
     = Returns None
  /\ columnStats None "dept" = Throws.
Proof. vm_compute. repeat split; reflexivity. Qed.

Example fill_samples :
  fill 0 = Some "#000000" /\ fill 7 = Some "#b3b3b3" /\ fill 8 = Some "#000000".
Proof. vm_compute. repeat split; reflexivity. Qed.

(** * Properties *)

Open Scope nat_scope.

(** ** Objects *)

Lemma obj_get_set_same {V} (o : obj V) (k : string) (v : V) :
  obj_get (obj_set o k v) k = Some v.
Proof.
  induction o as [|[k' v'] r IH]; simpl.
  - now rewrite String.eqb_refl.
  - destruct (String.eqb k' k) eqn:E; simpl; rewrite E; auto.
Qed.

Lemma obj_get_set_other {V} (o : obj V) (k k' : string) (v : V) :
  k <> k' -> obj_get (obj_set o k v) k' = obj_get o k'.
Proof.
  intros Hne. induction o as [|[k0 v0] r IH]; simpl.
  - destruct (String.eqb k k') eqn:E; auto.
    apply String.eqb_eq in E. contradiction.
  - destruct (String.eqb k0 k) eqn:E; simpl.
    + apply String.eqb_eq in E. subst k0.
      destruct (String.eqb k k') eqn:E'; auto.
      apply String.eqb_eq in E'. contradiction.
    + destruct (String.eqb k0 k'); auto.
Qed.

(** ** The comparison series *)

Lemma comparison_point_keeps (col1 col2 : string) (r : row) (idx : nat) :
  comparison_point col1 col2 r idx =
  if keeps col1 col2 r
  then Some (obj_set (obj_set (obj_set [] col1 (coerce (field r col1)))
                              col2 (coerce (field r col2)))
                     "index" (of_nat (idx + 1)))
  else None.
Proof. reflexivity. Qed.

Lemma comparison_indices_from (col1 col2 : string) (l : list row) (k : nat) :
  indices (filter_Boolean (mapi_from (comparison_point col1 col2) k l)) =
  map (fun i => Some (of_nat (i + 1)))
      (filter (fun i => keeps col1 col2 (nth (i - k) l [])) (seq k (List.length l))).
Proof.
  revert k. induction l as [|r l IH]; intro k; auto.
  cbn [mapi_from List.length seq filter].
  rewrite comparison_point_keeps, Nat.sub_diag.
  assert (Hshift :
    filter (fun i => keeps col1 col2 (nth (i - k) (r :: l) [])) (seq (S k) (List.length l))
    = filter (fun i => keeps col1 col2 (nth (i - S k) l [])) (seq (S k) (List.length l))).
  { apply filter_ext_in. intros i Hi. apply in_seq in Hi.
    replace (i - k) with (S (i - S k)) by lia. reflexivity. }
  rewrite Hshift. cbn [nth].
  destruct (keeps col1 col2 r); cbn [filter_Boolean indices map].
  - rewrite obj_get_set_same. f_equal. apply IH.
  - apply IH.
Qed.

Lemma nth_firstn_lt {A} (l : list A) (n i : nat) (d : A) :
  i < n -> nth i (firstn n l) d = nth i l d.
Proof.
  revert n i. induction l as [|x l IH]; intros n i Hi.
  - now rewrite firstn_nil.
  - destruct n; [lia|]. destruct i; simpl; auto. apply IH. lia.
Qed.

(** C3 at a row whose cell is the empty string, or a single space: the row
    is kept and its point carries [NaN] for that column, where the line
    series omits the key of the empty cell. *)
Theorem comparison_blank_cell_gives_NaN :
  getComparisonData blank_data "a" "b"
  = [ [("a", NaN); ("b", of_Z 1); ("index", of_Z 1)] ]
  /\ getLineChartData blank_data ["a"; "b"]
  = [ [("index", of_Z 1); ("b", of_Z 1)] ]
  /\ getComparisonData space_data "a" "b"
  = [ [("a", NaN); ("b", of_Z 1); ("index", of_Z 1)] ].
Proof. vm_compute. repeat split; reflexivity. Qed.

Lemma filter_Boolean_length {A} (l : list (option A)) :
  List.length (filter_Boolean l) <= List.length l.
Proof. induction l as [|[x|] l IH]; simpl; lia. Qed.

Lemma mapi_from_length {A B} (f : A -> nat -> B) (k : nat) (l : list A) :
  List.length (mapi_from f k l) = List.length l.
Proof. revert k. induction l; intro k; simpl; auto. Qed.

(** The part of C3 that holds: the series is drawn from the first 100 rows. *)
Lemma comparison_length (data : list row) (col1 col2 : string) :
  List.length (getComparisonData data col1 col2) <= Nat.min 100 (List.length data).
Proof.
  unfold getComparisonData, mapi.
  etransitivity; [apply filter_Boolean_length|].
  rewrite mapi_from_length, length_firstn. lia.
Qed.

(** ** Classification *)

Lemma mostly_numeric_spec {A B} (values : list A) (numericValues : list B) :
  Qltb (length_Q values * (1 # 2)) (length_Q numericValues) = true
  <-> List.length values < 2 * List.length numericValues.
Proof.
  unfold Qltb, length_Q. rewrite negb_true_iff, <- not_true_iff_false, Qle_bool_iff.
  unfold Qle. simpl. split; intro H; lia.
Qed.

Lemma classify_by_counts (cells : list cell) :
  classify cells =
  if mostly_numeric (filter non_empty cells)
                    (filter is_numeric_value (filter non_empty cells))
  then NUMERIC else CATEGORICAL.
Proof.
  unfold classify, analyzeColumn.
  now destruct (mostly_numeric _ _).
Qed.

Lemma mostly_numeric_true (values numericValues : list cell) :
  mostly_numeric values numericValues = true
  <-> List.length values < 2 * List.length numericValues
      /\ 0 < List.length numericValues.
Proof.
  unfold mostly_numeric.
  rewrite andb_true_iff, mostly_numeric_spec, Nat.ltb_lt. tauto.
Qed.

Lemma numeric_string (s : string) :
  is_numeric_value (CStr s) =
  negb (is_nan (parseFloat s)) && is_finite (StringToNumber s).
Proof.
  unfold is_numeric_value, isFinite, isNaN, is_string, JsString, ToNumber.
  now rewrite andb_false_r.
Qed.

(** C2: a string cell is numeric only when the whole string converts to a
    finite number; a column is NUMERIC exactly when its numeric values are
    more than half of its non-empty values and at least one; a column with
    exactly half of its values numeric is CATEGORICAL. *)
Theorem classify_strict_majority :
  (forall s : string,
      is_numeric_value (CStr s) =
      negb (is_nan (parseFloat s)) && is_finite (StringToNumber s))
  /\ (forall cells : list cell,
         let values := filter non_empty cells in
         let numericValues := filter is_numeric_value values in
         classify cells = NUMERIC
         <-> List.length values < 2 * List.length numericValues
             /\ 0 < List.length numericValues)
  /\ is_numeric_value (CStr "42abc") = false
  /\ classify [CStr "42abc"; CStr "7"] = CATEGORICAL
  /\ classify [CStr "42abc"; CStr "7"; CStr "9"] = NUMERIC.
Proof.
  split; [exact numeric_string|].
  split.
  - intros cells values numericValues. rewrite classify_by_counts.
    fold values. fold numericValues.
    rewrite <- mostly_numeric_true.
    destruct (mostly_numeric values numericValues); split; congruence.
  - repeat split; vm_compute; reflexivity.
Qed.

Lemma Permutation_filter {A} (f : A -> bool) (l l' : list A) :
  Permutation l l' -> Permutation (filter f l) (filter f l').
Proof.
  induction 1 as [|x l l' _ IH|x y l|l l' l'' _ IH1 _ IH2]; simpl.
  - constructor.
  - destruct (f x); auto.
  - destruct (f x), (f y); auto using perm_swap.
  - eauto using perm_trans.
Qed.

Lemma mostly_numeric_lengths (v1 n1 v2 n2 : list cell) :
  List.length v1 = List.length v2 -> List.length n1 = List.length n2 ->
  mostly_numeric v1 n1 = mostly_numeric v2 n2.
Proof.
  intros Hv Hn. unfold mostly_numeric, length_Q. now rewrite Hv, Hn.
Qed.

(** C9: reordering the cells of a column does not change its class. *)
Theorem classify_permutation (cells cells' : list cell) :
  Permutation cells cells' -> classify cells = classify cells'.
Proof.
  intro HP. rewrite !classify_by_counts.
  erewrite mostly_numeric_lengths; [reflexivity| |];
    apply Permutation_length; repeat apply Permutation_filter; exact HP.
Qed.

Lemma classify_permutation_witness :
  Permutation [CStr "42abc"; CNum (of_Z 7); CStr "9"]
              [CStr "9"; CStr "42abc"; CNum (of_Z 7)]
  /\ classify [CStr "42abc"; CNum (of_Z 7); CStr "9"]
     = classify [CStr "9"; CStr "42abc"; CNum (of_Z 7)].
Proof.
  assert (HP : Permutation [CStr "42abc"; CNum (of_Z 7); CStr "9"]
                           [CStr "9"; CStr "42abc"; CNum (of_Z 7)]).
  { apply Permutation_sym.
    exact (Permutation_cons_append
             [CStr "42abc"; CNum (of_Z 7)] (CStr "9")). }
  split; [exact HP | exact (classify_permutation HP)].
Defined.

(** ** The chart plan *)

Lemma fold_push_flat_map {A B} (f : A -> list B) (step : list B -> A -> list B)
      (l : list A) (acc : list B) :
  (forall acc x, step acc x = (acc ++ f x)%list) ->
  fold_left step l acc = (acc ++ flat_map f l)%list.
Proof.
  intro Hstep. revert acc. induction l as [|x l IH]; intro acc; simpl.
  - now rewrite app_nil_r.
  - rewrite IH, Hstep, <- app_assoc. reflexivity.
Qed.

Lemma comparison_columns (numericCols : list string) :
  2 <= List.length numericCols ->
  [item numericCols 0; item numericCols 1] = firstn 2 numericCols.
Proof.
  destruct numericCols as [|c0 [|c1 r]]; simpl; intros H; try lia. reflexivity.
Qed.

Lemma getBestChartsForData_plan (a : Profile.analysis) :
  getBestChartsForData (Some a) = Plan.plan a.
Proof.
  unfold getBestChartsForData, Plan.plan, Plan.all_specs, Plan.per_column.
  f_equal.
  rewrite (fold_push_flat_map
             (fun col => match obj_get (Profile.categorical a) col with
                         | Some p => if Plan.unique_within 2 20 p
                                     then [Plan.bar_spec col] else []
                         | None => []
                         end)).
  2:{ intros acc col. unfold push, Plan.unique_within.
      destruct (obj_get (Profile.categorical a) col) as [p|];
        [destruct (_ && _)|]; rewrite ?app_nil_r; reflexivity. }
  rewrite (fold_push_flat_map
             (fun col => match obj_get (Profile.categorical a) col with
                         | Some p => if Plan.unique_within 2 15 p
                                     then [Plan.pie_spec col p] else []
                         | None => []
                         end)).
  2:{ intros acc col. unfold push, Plan.unique_within.
      destruct (obj_get (Profile.categorical a) col) as [p|];
        [destruct (_ && _)|]; rewrite ?app_nil_r; reflexivity. }
  cbn [app].
  destruct (2 <=? List.length (keys (Profile.numeric a))) eqn:E.
  - apply Nat.leb_le in E. unfold push, Plan.comparison_spec, Plan.line_spec.
    rewrite (comparison_columns _ E), <- !app_assoc. reflexivity.
  - now rewrite !app_nil_r.
Qed.

Lemma no_trend_in_per_column categorical ok mk :
  (forall col p, is_trend (mk col p) = false) ->
  forallb (fun c => negb (is_trend c)) (Plan.per_column categorical ok mk) = true.
Proof.
  intro Hmk. unfold Plan.per_column.
  induction (keys categorical) as [|col l IH]; simpl; auto.
  rewrite forallb_app, IH, andb_true_r.
  destruct (obj_get categorical col) as [p|]; auto.
  destruct (ok p); simpl; auto. now rewrite Hmk.
Qed.

Lemma forallb_firstn {A} (f : A -> bool) (n : nat) (l : list A) :
  forallb f l = true -> forallb f (firstn n l) = true.
Proof.
  revert n. induction l as [|x l IH]; intros [|n]; simpl; auto.
  rewrite !andb_true_iff. intros [Hx Hl]. auto.
Qed.

(** C5: the chart plan is the first six entries of: the PIE specs of the
    categorical columns with 2 to 15 unique values, the BAR specs of those
    with 2 to 20, one LINE spec over the first three numeric columns and one
    COMPARISON spec over the first two when there are at least two numeric
    columns; it has at most six specs, and none of kind LINE or COMPARISON
    when there are fewer than two numeric columns. *)
Theorem chart_plan (a : Profile.analysis) :
  getBestChartsForData (Some a) = Plan.plan a
  /\ List.length (getBestChartsForData (Some a)) <= 6
  /\ (List.length (keys (Profile.numeric a)) < 2 ->
      forallb (fun c => negb (is_trend c)) (getBestChartsForData (Some a)) = true).
Proof.
  rewrite getBestChartsForData_plan. split; [reflexivity|]. split.
  - unfold Plan.plan. rewrite length_firstn. lia.
  - intro Hlt. apply Nat.leb_gt in Hlt.
    unfold Plan.plan, Plan.all_specs. apply forallb_firstn.
    rewrite Hlt, !app_nil_r, forallb_app.
    rewrite !no_trend_in_per_column; auto.
Qed.

Example empty_plan :
  getBestChartsForData None = []
  /\ getBestChartsForData (Some (analyzeData [] [])) = [].
Proof. split; reflexivity. Qed.

(** ** The line series *)

Lemma line_point_other (r : row) (columns : list string) (p : point) (k : string) :
  ~ In k columns ->
  obj_get (fold_left
             (fun point col =>
                let val := field r col in
                if negb (isNaN val) && not_null val && not_blank val
                then obj_set point col (coerce val) else point)
             columns p) k
  = obj_get p k.
Proof.
  revert p. induction columns as [|c cs IH]; intros p Hk; simpl; auto.
  rewrite IH by (simpl in Hk; tauto).
  destruct (negb (isNaN (field r c)) && not_null (field r c) && not_blank (field r c)); auto.
  apply obj_get_set_other. simpl in Hk. tauto.
Qed.

Lemma line_point_column (r : row) (columns : list string) (p : point) (k : string) :
  In k columns ->
  obj_get (fold_left
             (fun point col =>
                let val := field r col in
                if negb (isNaN val) && not_null val && not_blank val
                then obj_set point col (coerce val) else point)
             columns p) k
  = if plots (field r k) then Some (coerce (field r k)) else obj_get p k.
Proof.
  revert p. induction columns as [|c cs IH]; intros p Hk; simpl in *; [tauto|].
  destruct (string_dec c k) as [->|Hne].
  - destruct (in_dec string_dec k cs) as [Hin|Hnin].
    + rewrite IH by assumption. unfold plots.
      destruct (negb (isNaN (field r k)) && not_null (field r k) && not_blank (field r k));
        auto.
    + rewrite line_point_other by assumption. unfold plots.
      destruct (negb (isNaN (field r k)) && not_null (field r k) && not_blank (field r k));
        auto using obj_get_set_same.
  - destruct Hk as [Hk|Hk]; [contradiction|].
    rewrite IH by assumption.
    destruct (plots (field r k)); auto.
    destruct (negb (isNaN (field r c)) && not_null (field r c) && not_blank (field r c)); auto.
    now apply obj_get_set_other.
Qed.

Lemma nth_mapi_from {A B} (f : A -> nat -> B) (l : list A) (k i : nat) (d : B) (a : A) :
  i < List.length l ->
  nth i (mapi_from f k l) d = f (nth i l a) (k + i).
Proof.
  revert k i. induction l as [|x l IH]; intros k i Hi; simpl in *; [lia|].
  destruct i; [now rewrite Nat.add_0_r|].
  rewrite IH by lia. f_equal. lia.
Qed.

(** The line series when no tracked column is named [index]: one point per
    row of the first 50, whose [index] is the 1-based row position and which
    holds a tracked column's key exactly when the test [plots] passes on the
    row's cell, with the coerced value. *)
Lemma line_series (data : list row) (columns : list string) :
  ~ In "index" columns ->
  List.length (getLineChartData data columns) = Nat.min 50 (List.length data)
  /\ forall i, i < Nat.min 50 (List.length data) ->
       let p := nth i (getLineChartData data columns) [] in
       let r := nth i data [] in
       obj_get p "index" = Some (of_nat (i + 1))
       /\ forall col, In col columns ->
            obj_get p col =
            if plots (field r col) then Some (coerce (field r col)) else None.
Proof.
  intro Hidx. unfold getLineChartData, mapi. split.
  - now rewrite mapi_from_length, length_firstn.
  - intros i Hi. cbv zeta.
    rewrite (@nth_mapi_from row point _ (firstn 50 data) 0 i [] [])
      by (rewrite length_firstn; exact Hi).
    rewrite nth_firstn_lt by lia. set (r := nth i data []). cbv beta. split.
    + rewrite line_point_other by assumption. reflexivity.
    + intros col Hcol. rewrite line_point_column by assumption.
      destruct (plots (field r col)); auto.
      cbn [obj_get]. destruct (String.eqb "index" col) eqn:E; auto.
      apply String.eqb_eq in E. subst col. contradiction.
Qed.

Lemma line_series_witness :
  ~ In "index" ["a"; "b"]
  /\ List.length (getLineChartData gap_data ["a"; "b"]) = 2.
Proof.
  assert (H : ~ In "index" ["a"; "b"]).
  { simpl. intros [H|[H|[]]]; discriminate H. }
  split; [exact H | exact (proj1 (@line_series gap_data ["a"; "b"] H))].
Defined.

(** C8 at a dataset with a numeric column named [index]: the column's value
    replaces the row position in the point; and at a cell holding a single
    space: the key is present with the value [NaN]. *)
Theorem line_index_column_clobbers_position :
  getLineChartData index_data ["index"; "x"]
  = [ [("index", of_Z 7); ("x", of_Z 1)] ]
  /\ indices (getLineChartData index_data ["index"; "x"]) <> [Some (of_nat 1)]
  /\ getLineChartData space_data ["a"; "b"]
  = [ [("index", of_Z 1); ("a", NaN); ("b", of_Z 1)] ].
Proof. vm_compute. split; [reflexivity | split; [discriminate | reflexivity]]. Qed.

(** ** Tallies *)

Lemma seen_In (l : list string) (k : string) : seen l k = true <-> In k l.
Proof.
  unfold seen. rewrite existsb_exists. split.
  - intros [x [Hx E]]. apply String.eqb_eq in E. now subst.
  - intro H. exists k. split; auto. apply String.eqb_refl.
Qed.

Lemma seen_false (l : list string) (k : string) : seen l k = false <-> ~ In k l.
Proof. rewrite <- seen_In. destruct (seen l k); split; congruence. Qed.

Lemma first_occ_snoc (l : list string) (k : string) :
  first_occ (l ++ [k]) =
  if seen (first_occ l) k then first_occ l else (first_occ l ++ [k])%list.
Proof. unfold first_occ. now rewrite fold_left_app. Qed.

Lemma first_occ_In (l : list string) (k : string) : In k (first_occ l) <-> In k l.
Proof.
  induction l as [|x l IH] using rev_ind; [reflexivity|].
  rewrite first_occ_snoc, in_app_iff. simpl.
  destruct (seen (first_occ l) x) eqn:E.
  - apply seen_In in E. rewrite IH in *. intuition (subst; auto).
  - rewrite in_app_iff, IH. simpl. tauto.
Qed.

Lemma NoDup_snoc {A} (l : list A) (x : A) : NoDup l -> ~ In x l -> NoDup (l ++ [x]).
Proof.
  intros Hl Hx.
  apply (Permutation_NoDup (Permutation_cons_append l x)).
  now constructor.
Qed.

Lemma first_occ_NoDup (l : list string) : NoDup (first_occ l).
Proof.
  induction l as [|x l IH] using rev_ind; [constructor|].
  rewrite first_occ_snoc. destruct (seen (first_occ l) x) eqn:E; auto.
  apply NoDup_snoc; auto. now apply seen_false.
Qed.

Lemma occurrences_snoc (k k0 : string) (l : list string) :
  occurrences k (l ++ [k0]) = occurrences k l + (if String.eqb k k0 then 1 else 0).
Proof.
  unfold occurrences. rewrite filter_app, length_app. simpl.
  now destruct (String.eqb k k0).
Qed.

Lemma occurrences_absent (k : string) (l : list string) :
  ~ In k l -> occurrences k l = 0.
Proof.
  unfold occurrences. induction l as [|x l IH]; simpl; auto.
  intro H. destruct (String.eqb k x) eqn:E.
  - apply String.eqb_eq in E. subst. tauto.
  - apply IH. tauto.
Qed.

Lemma occurrences_present (k : string) (l : list string) :
  In k l -> 0 < occurrences k l.
Proof.
  unfold occurrences. induction l as [|x l IH]; simpl; [tauto|].
  intros [->|H].
  - rewrite String.eqb_refl. simpl. lia.
  - destruct (String.eqb k x); simpl; auto. lia.
Qed.

Lemma filter_all {A} (f : A -> bool) (l : list A) :
  forallb f l = true -> filter f l = l.
Proof.
  induction l as [|x l IH]; simpl; auto.
  rewrite andb_true_iff. intros [Hx Hl]. rewrite Hx. f_equal. auto.
Qed.

Lemma filter_none {A} (f : A -> bool) (l : list A) :
  forallb (fun x => negb (f x)) l = true -> filter f l = [].
Proof.
  induction l as [|x l IH]; simpl; auto.
  rewrite andb_true_iff. intros [Hx Hl]. apply negb_true_iff in Hx. rewrite Hx. auto.
Qed.

Section Tables.
Variable V : Type.
Implicit Types (f g : string -> V) (ks : list string).

Lemma obj_get_table f ks k :
  obj_get (map (fun k => (k, f k)) ks) k = if seen ks k then Some (f k) else None.
Proof.
  induction ks as [|x ks IH]; simpl; auto.
  rewrite String.eqb_sym. destruct (String.eqb k x) eqn:E; simpl; auto.
  apply String.eqb_eq in E. now subst.
Qed.

Lemma obj_set_table_new f ks k v :
  ~ In k ks ->
  obj_set (map (fun k => (k, f k)) ks) k v
  = (map (fun k => (k, f k)) ks ++ [(k, v)])%list.
Proof.
  induction ks as [|x ks IH]; simpl; intro H; auto.
  destruct (String.eqb x k) eqn:E.
  - apply String.eqb_eq in E. subst. tauto.
  - rewrite IH; tauto.
Qed.

Lemma map_table_ext f g ks :
  (forall k, In k ks -> g k = f k) ->
  map (fun k => (k, g k)) ks = map (fun k => (k, f k)) ks.
Proof. intro H. apply map_ext_in. intros k Hk. now rewrite H. Qed.

Lemma obj_set_table_old f g ks k :
  NoDup ks -> In k ks ->
  (forall k', k' <> k -> g k' = f k') ->
  obj_set (map (fun k => (k, f k)) ks) k (g k) = map (fun k => (k, g k)) ks.
Proof.
  intros Hnd Hin Hg. induction ks as [|x ks IH]; simpl in *; [tauto|].
  inversion Hnd as [|? ? Hx Hks]; subst.
  destruct (String.eqb x k) eqn:E.
  - apply String.eqb_eq in E. subst x. f_equal.
    symmetry. apply map_table_ext. intros k' Hk'. apply Hg. congruence.
  - apply String.eqb_neq in E. rewrite (Hg x E). f_equal.
    apply IH; auto. destruct Hin; [contradiction|assumption].
Qed.
End Tables.

Lemma append_assoc (a b c : string) : ((a ++ b) ++ c = a ++ (b ++ c))%string.
Proof. induction a as [|x a IH]; simpl; [reflexivity|now rewrite IH]. Qed.

(** Counting a key once more. *)
Lemma increment_after (k : string) (n : nat) :
  increment (tallied_after k n) = tallied_after k (n + 1).
Proof.
  unfold tallied_after. destruct (inherits k); [|reflexivity].
  rewrite Nat.add_1_r. cbn [ones]. rewrite <- append_assoc.
  unfold function_source. reflexivity.
Qed.

Lemma counters_snoc (l : list string) (k : string) :
  k <> "__proto__" ->
  tally (map (fun k0 => (k0, tallied_after k0 (occurrences k0 l))) (first_occ l)) k
  = map (fun k0 => (k0, tallied_after k0 (occurrences k0 (l ++ [k]))))
        (first_occ (l ++ [k])).
Proof.
  intro Hk. unfold tally. rewrite obj_get_table, first_occ_snoc.
  destruct (seen (first_occ l) k) eqn:E.
  - apply seen_In in E. rewrite increment_after.
    replace (occurrences k l + 1) with (occurrences k (l ++ [k]))
      by (rewrite occurrences_snoc, String.eqb_refl; reflexivity).
    apply (obj_set_table_old (fun k0 => tallied_after k0 (occurrences k0 l))
                             (fun k0 => tallied_after k0 (occurrences k0 (l ++ [k])))).
    + apply first_occ_NoDup.
    + assumption.
    + intros k' Hk'. rewrite occurrences_snoc.
      apply String.eqb_neq in Hk'. rewrite Hk'. now rewrite Nat.add_0_r.
  - apply seen_false in E.
    apply String.eqb_neq in Hk. rewrite Hk.
    assert (Hset : forall T : obj tallied,
               (if inherits k
                then obj_set T k (Text (function_source k ++ "1"))
                else obj_set T k (Times 1))
               = obj_set T k (tallied_after k 1)).
    { intro T. unfold tallied_after. now destruct (inherits k). }
    rewrite Hset, obj_set_table_new by assumption.
    rewrite map_app. simpl. f_equal.
    + apply map_table_ext. intros k' Hk'. rewrite occurrences_snoc.
      destruct (String.eqb k' k) eqn:E'; [|now rewrite Nat.add_0_r].
      apply String.eqb_eq in E'. subst. contradiction.
    + rewrite occurrences_snoc, String.eqb_refl, occurrences_absent; auto.
      now rewrite <- first_occ_In.
Qed.

Lemma frequency_table_snoc (l : list string) (k : string) :
  tally (frequency_table l) k = frequency_table (l ++ [k]).
Proof.
  unfold frequency_table. rewrite filter_app. cbn [filter].
  destruct (String.eqb k "__proto__") eqn:E; cbn [negb].
  - rewrite app_nil_r. apply String.eqb_eq in E. subst k.
    unfold tally. rewrite obj_get_table.
    destruct (seen _ "__proto__") eqn:S; [|reflexivity].
    apply seen_In, first_occ_In, filter_In in S. destruct S as [_ S]. discriminate S.
  - apply counters_snoc. now apply String.eqb_neq.
Qed.

Lemma tally_all (l : list string) : fold_left tally l [] = frequency_table l.
Proof.
  induction l as [|k l IH] using rev_ind; [reflexivity|].
  now rewrite fold_left_app, IH, <- frequency_table_snoc.
Qed.

Lemma fold_left_map_arg {A B C} (f : A -> B -> A) (g : C -> B) (l : list C) (a : A) :
  fold_left (fun acc x => f acc (g x)) l a = fold_left f (map g l) a.
Proof. revert a. induction l as [|x l IH]; intro a; simpl; auto. Qed.

(** The frequency object holds, in first-encountered order, every distinct
    stringified value other than [__proto__], with the counter the
    occurrences of the value leave under it. *)
Lemma frequencies_general (values : list cell) :
  frequencies values = frequency_table (map JsString values).
Proof.
  unfold frequencies.
  now rewrite (fold_left_map_arg tally JsString), tally_all.
Qed.

Lemma no_member_name_spec (l : list string) :
  no_member_name l = true <-> forall k, In k l -> inherits k = false.
Proof.
  unfold no_member_name. rewrite forallb_forall. split; intros H k Hk.
  - apply negb_true_iff. auto.
  - apply negb_true_iff. auto.
Qed.

Lemma frequency_table_counts (l : list string) :
  no_member_name l = true -> frequency_table l = as_counts (tally_table l).
Proof.
  intro H. rewrite no_member_name_spec in H.
  unfold frequency_table, as_counts, tally_table.
  rewrite filter_all.
  - rewrite map_map. apply map_ext_in. intros k Hk. cbn [fst snd].
    unfold tallied_after. apply (proj1 (first_occ_In _ _)) in Hk.
    now rewrite (H k Hk).
  - apply forallb_forall. intros k Hk. apply negb_true_iff, String.eqb_neq.
    intros ->. apply H in Hk. discriminate Hk.
Qed.

(** When no stringified value names a member of [Object.prototype], the
    frequency object holds every distinct stringified value with its number
    of occurrences. *)
Lemma frequencies_table (values : list cell) :
  no_member_name (map JsString values) = true ->
  frequencies values = as_counts (tally_table (map JsString values)).
Proof. intro H. now rewrite frequencies_general, frequency_table_counts. Qed.

Lemma count_column_from (data : list row) (column : string)
      (acc : obj tallied * nat) :
  fold_left
    (fun acc r =>
       let val := field r column in
       if non_empty val
       then (tally (fst acc) (JsString val), snd acc + 1)
       else acc)
    data acc
  = (fold_left tally (map JsString (column_values data column)) (fst acc),
     snd acc + List.length (column_values data column)).
Proof.
  revert acc. unfold column_values.
  induction data as [|r data IH]; intros [freq n]; simpl.
  - now rewrite Nat.add_0_r.
  - rewrite IH. destruct (non_empty (field r column)); simpl; auto.
    f_equal. lia.
Qed.

(** The loop of [getChartData] computes the frequency object of the column's
    non-empty values and their number. *)
Lemma count_column_table (data : list row) (column : string) :
  count_column data column
  = (frequencies (column_values data column),
     List.length (column_values data column)).
Proof.
  unfold count_column, frequencies.
  now rewrite count_column_from, (fold_left_map_arg tally JsString).
Qed.

(** ** The stable sort *)

Section SortFacts.
Variable A : Type.
Variable gt : A -> A -> bool.

Lemma insert_split (x : A) (s : list A) :
  exists s1 s2,
    s = (s1 ++ s2)%list /\ insert gt x s = (s1 ++ x :: s2)%list
    /\ Forall (fun y => gt x y = true) s1.
Proof.
  induction s as [|y s IH]; simpl.
  - exists [], []. auto.
  - destruct (gt x y) eqn:E.
    + destruct IH as (s1 & s2 & Hs & Hi & Hall).
      exists (y :: s1), s2. simpl. rewrite Hi, <- Hs. auto.
    + exists [], (y :: s). auto.
Qed.

Lemma insert_perm (x : A) (s : list A) : Permutation (insert gt x s) (x :: s).
Proof.
  destruct (insert_split x s) as (s1 & s2 & -> & -> & _).
  symmetry. apply Permutation_middle.
Qed.

Lemma sort_perm (l : list A) : Permutation (sort gt l) l.
Proof.
  induction l as [|x l IH]; simpl; auto.
  etransitivity; [apply insert_perm|]. now constructor.
Qed.

Lemma before_cons (a b x : A) (l : list A) :
  before a b (x :: l) <-> (a = x /\ In b l) \/ before a b l.
Proof.
  split.
  - intros (l1 & l2 & l3 & H). destruct l1 as [|y l1]; simpl in H.
    + injection H as <- ->. left. split; auto. apply in_elt.
    + injection H as <- ->. right. now exists l1, l2, l3.
  - intros [[-> Hb]|(l1 & l2 & l3 & ->)].
    + apply in_split in Hb. destruct Hb as (l2 & l3 & ->). now exists [], l2, l3.
    + now exists (x :: l1), l2, l3.
Qed.

Lemma before_insert (a b x : A) (s : list A) :
  before a b s -> before a b (insert gt x s).
Proof.
  intros (l1 & l2 & l3 & ->).
  induction l1 as [|y l1 IH]; simpl.
  - destruct (gt x a).
    + apply before_cons. left. split; auto.
      apply (Permutation_in _ (Permutation_sym (insert_perm x _))).
      right. apply in_elt.
    + apply before_cons. right. now exists [], l2, l3.
  - destruct (gt x y).
    + apply before_cons. right. exact IH.
    + apply before_cons. right. now exists (y :: l1), l2, l3.
Qed.

Lemma before_insert_new (x b : A) (s : list A) :
  In b s -> gt x b = false -> before x b (insert gt x s).
Proof.
  intros Hb Hgt.
  destruct (insert_split x s) as (s1 & s2 & -> & -> & Hall).
  apply in_app_or in Hb. destruct Hb as [Hb|Hb].
  - rewrite Forall_forall in Hall. rewrite (Hall b Hb) in Hgt. discriminate.
  - apply in_split in Hb. destruct Hb as (l2 & l3 & ->). now exists s1, l2, l3.
Qed.

(** Stability: two elements the comparison does not order keep their order. *)
Lemma sort_stable (a b : A) (l : list A) :
  before a b l -> gt a b = false -> before a b (sort gt l).
Proof.
  intros Hbefore Hgt. induction l as [|x l IH].
  - destruct Hbefore as (l1 & l2 & l3 & H). now destruct l1.
  - simpl. apply before_cons in Hbefore. destruct Hbefore as [[-> Hb]|Hb].
    + apply before_insert_new; auto.
      apply (Permutation_in _ (Permutation_sym (sort_perm l))). exact Hb.
    + apply before_insert. auto.
Qed.

Variable P : A -> Prop.
Hypothesis gt_asym : forall a b, P a -> P b -> gt a b = true -> gt b a = false.
Hypothesis gt_trans :
  forall a b c, P a -> P b -> P c ->
                gt a b = false -> gt b c = false -> gt a c = false.

Lemma insert_sorted (x : A) (s : list A) :
  P x -> Forall P s ->
  StronglySorted (fun a b => gt a b = false) s ->
  StronglySorted (fun a b => gt a b = false) (insert gt x s).
Proof.
  intros Hx Hs. induction 1 as [|y s Hsorted IH Hy]; simpl.
  - repeat constructor.
  - inversion Hs as [|? ? Py Ps]; subst.
    pose proof Hy as Hy'. pose proof Ps as Ps'.
    rewrite Forall_forall in Hy', Ps'.
    destruct (gt x y) eqn:E.
    + constructor; [apply IH; exact Ps|].
      apply (Forall_forall (fun b => gt y b = false)). intros z Hz.
      apply (Permutation_in _ (insert_perm x s)) in Hz. destruct Hz as [<-|Hz]; auto.
    + constructor; [constructor; assumption|].
      constructor; auto.
      apply (Forall_forall (fun b => gt x b = false)). intros z Hz. eauto.
Qed.

Lemma sort_sorted (l : list A) :
  Forall P l -> StronglySorted (fun a b => gt a b = false) (sort gt l).
Proof.
  induction 1 as [|x l Hx Hl IH]; simpl; [constructor|].
  apply insert_sorted; auto.
  apply (Permutation_Forall (Permutation_sym (sort_perm l))). exact Hl.
Qed.
End SortFacts.

Lemma before_either {A} (a b : A) (l : list A) :
  In a l -> In b l -> a <> b -> before a b l \/ before b a l.
Proof.
  intros Ha Hb Hne. induction l as [|x l IH]; [contradiction|].
  rewrite !before_cons. destruct Ha as [->|Ha], Hb as [->|Hb]; tauto.
Qed.

Lemma before_In {A} (a b : A) (l : list A) : before a b l -> In a l /\ In b l.
Proof.
  intros (l1 & l2 & l3 & ->). split.
  - apply in_elt.
  - apply in_or_app. right. right. apply in_elt.
Qed.

Lemma before_head_NoDup {A} (a b : A) (l : list A) :
  NoDup (b :: l) -> ~ before a b (b :: l).
Proof.
  intros Hnd Hb. apply before_cons in Hb. inversion Hnd as [|? ? Hnin _]; subst.
  destruct Hb as [[-> Hin]|Hb]; [contradiction|].
  apply before_In in Hb. tauto.
Qed.

Lemma gt_times_false (a b : string * nat) : gt_times a b = false <-> times_ge a b.
Proof. unfold gt_times, times_ge. rewrite Z.ltb_ge. lia. Qed.

Lemma sort_times_sorted (l : list (string * nat)) :
  StronglySorted times_ge (sort gt_times l).
Proof.
  assert (H : StronglySorted (fun a b => gt_times a b = false) (sort gt_times l)).
  { apply (@sort_sorted _ gt_times (fun _ => True)).
    - intros a b _ _. unfold gt_times. rewrite Z.ltb_lt, Z.ltb_ge. lia.
    - intros a b c _ _ _. unfold gt_times. rewrite !Z.ltb_ge. lia.
    - apply Forall_forall. auto. }
  induction H as [|x s Hs IH Hx]; constructor; auto.
  rewrite Forall_forall in *. intros y Hy. apply gt_times_false. auto.
Qed.

(** Sorting commutes with a map that preserves the comparison. *)
Lemma sort_map {A B} (gtA : A -> A -> bool) (gtB : B -> B -> bool) (f : A -> B)
      (l : list A) :
  (forall a b, gtB (f a) (f b) = gtA a b) ->
  sort gtB (map f l) = map f (sort gtA l).
Proof.
  intro H. induction l as [|x l IH]; [reflexivity|].
  cbn [map sort fold_right]. fold (sort gtB (map f l)). fold (sort gtA l).
  rewrite IH. clear IH. induction (sort gtA l) as [|y s IHs]; [reflexivity|].
  cbn [map insert]. rewrite H. destruct (gtA x y); cbn [map]; [|reflexivity].
  now rewrite IHs.
Qed.

Lemma sort_as_counts (l : list (string * nat)) :
  sort gt_count (as_counts l) = as_counts (sort gt_times l).
Proof. unfold as_counts. apply sort_map. intros [k m] [k' n]. reflexivity. Qed.

Lemma StronglySorted_map {A B} (R : B -> B -> Prop) (f : A -> B) (l : list A) :
  StronglySorted (fun a b => R (f a) (f b)) l -> StronglySorted R (map f l).
Proof.
  induction 1 as [|x s Hs IH Hx]; cbn [map]; constructor; auto.
  rewrite Forall_map. exact Hx.
Qed.

Lemma sort_count_sorted (l : list (string * nat)) :
  StronglySorted count_ge (sort gt_count (as_counts l)).
Proof.
  rewrite sort_as_counts. apply StronglySorted_map. apply sort_times_sorted.
Qed.

(** ** Enumeration order of the frequency object *)

Lemma filter_partition_perm {A} (f : A -> bool) (l : list A) :
  Permutation (filter f l ++ filter (fun x => negb (f x)) l) l.
Proof.
  induction l as [|x l IH]; simpl; auto.
  destruct (f x); simpl.
  - now constructor.
  - etransitivity; [symmetry; apply Permutation_middle|]. now constructor.
Qed.

Lemma own_entries_perm {V} (o : obj V) : Permutation (own_entries o) o.
Proof.
  unfold own_entries.
  etransitivity; [|apply (filter_partition_perm (fun e => is_index (fst e)))].
  apply Permutation_app_tail, sort_perm.
Qed.

(** Without array-index keys the enumeration order is the creation order. *)
Lemma own_entries_plain {V} (o : obj V) :
  forallb (fun e => negb (is_index (fst e))) o = true -> own_entries o = o.
Proof.
  intro H. unfold own_entries.
  rewrite filter_none by exact H. simpl. now apply filter_all.
Qed.

Lemma tally_table_keys (l : list string) : map fst (tally_table l) = first_occ l.
Proof. unfold tally_table. rewrite map_map. simpl. apply map_id. Qed.

Lemma tally_table_NoDup (l : list string) : NoDup (tally_table l).
Proof.
  apply (NoDup_map_inv fst). rewrite tally_table_keys. apply first_occ_NoDup.
Qed.

Lemma tally_table_In (l : list string) (e : string * nat) :
  In e (tally_table l) <-> In (fst e) l /\ snd e = occurrences (fst e) l.
Proof.
  unfold tally_table. rewrite in_map_iff. split.
  - intros (k & <- & Hk). simpl. now rewrite <- first_occ_In.
  - intros [Hk Hc]. exists (fst e). rewrite first_occ_In. split; auto.
    destruct e; simpl in *; congruence.
Qed.

Lemma plain_table (l : list string) :
  forallb (fun k => negb (is_index k)) l = true ->
  forallb (fun e : string * nat => negb (is_index (fst e))) (tally_table l) = true.
Proof.
  rewrite !forallb_forall. intros H e He.
  apply tally_table_In in He. apply H. tauto.
Qed.

Lemma filter_map_fst {A B C} (p : A -> bool) (f : B -> C) (l : list (A * B)) :
  filter (fun e => p (fst e)) (map (fun e => (fst e, f (snd e))) l)
  = map (fun e => (fst e, f (snd e))) (filter (fun e => p (fst e)) l).
Proof.
  induction l as [|[k v] l IH]; cbn [map filter fst snd]; [reflexivity|].
  destruct (p k); cbn [map fst snd]; now rewrite IH.
Qed.

(** The enumeration order does not depend on what the properties hold. *)
Lemma own_entries_as_counts (t : list (string * nat)) :
  own_entries (as_counts t) = as_counts (own_entries t).
Proof.
  unfold own_entries, as_counts. rewrite map_app.
  rewrite (filter_map_fst is_index Times), (filter_map_fst (fun k => negb (is_index k)) Times).
  f_equal. apply sort_map. intros a b. reflexivity.
Qed.

Lemma entries_counts (values : list cell) :
  no_member_name (map JsString values) = true ->
  entries (frequencies values)
  = as_counts (own_entries (tally_table (map JsString values))).
Proof.
  intro H. unfold entries. now rewrite frequencies_table, own_entries_as_counts.
Qed.

Lemma sorted_counts (values : list cell) :
  no_member_name (map JsString values) = true ->
  sort gt_count (entries (frequencies values))
  = as_counts (sort gt_times (own_entries (tally_table (map JsString values)))).
Proof. intro H. now rewrite entries_counts, sort_as_counts. Qed.

Lemma getChartData_entries (data : list row) (column : string) (limit : nat) :
  getChartData data column limit =
  if (List.length data =? 0) || String.eqb column "" then []
  else map (freq_point (List.length (column_values data column)))
           (firstn limit
              (sort gt_count (entries (frequencies (column_values data column))))).
Proof.
  unfold getChartData. rewrite count_column_table. reflexivity.
Qed.

(** ** Array-index keys *)

Lemma digit_val_bounds (c : ascii) : is_digit c = true -> (0 <= digit_val c <= 9)%Z.
Proof.
  unfold is_digit, digit_val. cbv zeta. rewrite andb_true_iff, !Nat.leb_le. lia.
Qed.

Lemma digit_val_inj (c c' : ascii) : digit_val c = digit_val c' -> c = c'.
Proof.
  unfold digit_val. intro H.
  rewrite <- (ascii_nat_embedding c), <- (ascii_nat_embedding c').
  f_equal. lia.
Qed.

Lemma digits_val_from (l : list ascii) (a : Z) :
  fold_left (fun acc c => acc * 10 + digit_val c)%Z l a
  = (a * 10 ^ Z.of_nat (List.length l) + digits_val 10 digit_val l)%Z.
Proof.
  unfold digits_val. revert a. induction l as [|c l IH]; intro a.
  - simpl. lia.
  - cbn [fold_left List.length]. rewrite IH, (IH (0 * 10 + digit_val c)%Z).
    rewrite Nat2Z.inj_succ, Z.pow_succ_r by lia. ring.
Qed.

Lemma digits_val_cons (c : ascii) (l : list ascii) :
  digits_val 10 digit_val (c :: l)
  = (digit_val c * 10 ^ Z.of_nat (List.length l) + digits_val 10 digit_val l)%Z.
Proof.
  unfold digits_val at 1. cbn [fold_left]. rewrite digits_val_from. ring.
Qed.

Lemma digits_val_bounds (l : list ascii) :
  forallb is_digit l = true ->
  (0 <= digits_val 10 digit_val l < 10 ^ Z.of_nat (List.length l))%Z.
Proof.
  induction l as [|c l IH]; [simpl; unfold digits_val; simpl; lia|].
  cbn [forallb]. rewrite andb_true_iff. intros [Hc Hl].
  rewrite digits_val_cons. cbn [List.length]. rewrite Nat2Z.inj_succ, Z.pow_succ_r by lia.
  pose proof (digit_val_bounds c Hc). specialize (IH Hl).
  set (p := (10 ^ Z.of_nat (List.length l))%Z) in *. nia.
Qed.

Lemma digits_val_inj (l l' : list ascii) :
  List.length l = List.length l' ->
  forallb is_digit l = true -> forallb is_digit l' = true ->
  digits_val 10 digit_val l = digits_val 10 digit_val l' -> l = l'.
Proof.
  revert l'. induction l as [|c l IH]; intros [|c' l'] Hlen Hd Hd' Hv;
    try discriminate Hlen; [reflexivity|].
  cbn [forallb] in Hd, Hd'. apply andb_true_iff in Hd, Hd'.
  destruct Hd as [Hc Hl], Hd' as [Hc' Hl'].
  injection Hlen as Hlen. rewrite !digits_val_cons, <- Hlen in Hv.
  pose proof (digits_val_bounds l Hl) as B. pose proof (digits_val_bounds l' Hl') as B'.
  rewrite <- Hlen in B'.
  pose proof (digit_val_bounds c Hc). pose proof (digit_val_bounds c' Hc').
  set (p := (10 ^ Z.of_nat (List.length l))%Z) in *.
  assert (Hdig : digit_val c = digit_val c') by nia.
  f_equal; [now apply digit_val_inj|].
  apply IH; auto. rewrite Hdig in Hv. lia.
Qed.

Lemma array_index_canonical (k : string) (n : Z) :
  array_index k = Some n ->
  canonical (list_ascii_of_string k) /\ n = digits_val 10 digit_val (list_ascii_of_string k).
Proof.
  unfold array_index, canonical. cbv zeta.
  destruct (list_ascii_of_string k) as [|c r] eqn:E; [discriminate|].
  destruct (forallb is_digit (c :: r)) eqn:Hd; [|discriminate].
  cbn [andb].
  destruct (match r with [] => true | _ => negb (Ascii.eqb c "0") end) eqn:Hz; [|discriminate].
  destruct (_ <? _)%Z; [|discriminate]. intros [= <-].
  repeat split; auto; [discriminate|].
  intro Hlen. cbn [hd]. destruct r as [|c2 r]; [cbn in Hlen; lia|].
  apply negb_true_iff, Ascii.eqb_neq in Hz.
  cbn [forallb] in Hd. apply andb_true_iff in Hd. destruct Hd as [Hc _].
  pose proof (digit_val_bounds c Hc) as B.
  assert (digit_val c <> 0%Z).
  { intro H0. apply Hz. apply digit_val_inj. rewrite H0. reflexivity. }
  lia.
Qed.

Lemma canonical_lower (cs : list ascii) :
  canonical cs -> 1 < List.length cs ->
  (10 ^ Z.of_nat (List.length cs - 1) <= digits_val 10 digit_val cs)%Z.
Proof.
  intros (Hne & Hd & Hz) Hlen. specialize (Hz Hlen).
  destruct cs as [|c r]; [contradiction|]. cbn [hd] in Hz.
  cbn [forallb] in Hd. apply andb_true_iff in Hd. destruct Hd as [_ Hr].
  rewrite digits_val_cons. cbn [List.length]. rewrite Nat.sub_succ, Nat.sub_0_r.
  pose proof (digits_val_bounds r Hr).
  set (p := (10 ^ Z.of_nat (List.length r))%Z) in *. nia.
Qed.

Lemma canonical_length (cs cs' : list ascii) :
  canonical cs -> canonical cs' ->
  digits_val 10 digit_val cs = digits_val 10 digit_val cs' ->
  List.length cs <= List.length cs'.
Proof.
  intros Hc Hc' Hv.
  destruct (le_lt_dec (List.length cs) (List.length cs')) as [H|H]; [exact H|exfalso].
  assert (Hlen : 1 < List.length cs).
  { destruct Hc' as (Hne & _). destruct cs'; [contradiction|]. cbn [List.length] in H. lia. }
  pose proof (canonical_lower Hc Hlen) as L.
  destruct Hc' as (_ & Hd' & _). pose proof (digits_val_bounds cs' Hd') as U.
  assert (10 ^ Z.of_nat (List.length cs') <= 10 ^ Z.of_nat (List.length cs - 1))%Z
    by (apply Z.pow_le_mono_r; lia).
  lia.
Qed.

(** Distinct keys denote distinct array indices. *)
Lemma array_index_inj (k k' : string) (n : Z) :
  array_index k = Some n -> array_index k' = Some n -> k = k'.
Proof.
  intros H H'. apply array_index_canonical in H, H'.
  destruct H as [Hc Hn], H' as [Hc' Hn'].
  rewrite <- (string_of_list_ascii_of_string k), <- (string_of_list_ascii_of_string k').
  f_equal. apply digits_val_inj.
  - apply Nat.le_antisymm; apply canonical_length; auto; congruence.
  - apply Hc.
  - apply Hc'.
  - congruence.
Qed.

Lemma own_entries_split {V} (o : obj V) :
  filter (fun e => is_index (fst e)) (own_entries o)
  = sort (@gt_index V) (filter (fun e => is_index (fst e)) o)
  /\ filter (fun e => negb (is_index (fst e))) (own_entries o)
     = filter (fun e => negb (is_index (fst e))) o.
Proof.
  unfold own_entries. rewrite !filter_app.
  set (I := sort (@gt_index V) (filter (fun e => is_index (fst e)) o)).
  set (N := filter (fun e => negb (is_index (fst e))) o).
  assert (HI : forall e, In e I -> is_index (fst e) = true).
  { intros e He. apply (Permutation_in _ (sort_perm _ _)) in He.
    apply filter_In in He. tauto. }
  assert (HN : forall e, In e N -> negb (is_index (fst e)) = true).
  { intros e He. apply filter_In in He. tauto. }
  split.
  - rewrite (filter_all (fun e => is_index (fst e)) I),
            (filter_none (fun e => is_index (fst e)) N), app_nil_r;
      [reflexivity| |]; apply forallb_forall; auto.
  - rewrite (filter_none (fun e => negb (is_index (fst e))) I),
            (filter_all (fun e => negb (is_index (fst e))) N);
      [reflexivity| |]; apply forallb_forall; auto.
    intros e He. rewrite (HI e He). reflexivity.
Qed.

(** The array-index keys of an object are enumerated in strictly ascending
    numeric order. *)
Lemma index_entries_ascending {V} (o : obj V) :
  NoDup (map fst o) ->
  StronglySorted (fun a b => (index_of (fst a) < index_of (fst b))%Z)
                 (sort (@gt_index V) (filter (fun e => is_index (fst e)) o)).
Proof.
  intro Hnd.
  set (I := filter (fun e => is_index (fst e)) o).
  assert (S : StronglySorted (fun a b => gt_index a b = false) (sort (@gt_index V) I)).
  { apply (@sort_sorted _ (@gt_index V) (fun _ => True)).
    - intros a b _ _. unfold gt_index. rewrite Z.ltb_lt, Z.ltb_ge. lia.
    - intros a b c _ _ _. unfold gt_index. rewrite !Z.ltb_ge. lia.
    - apply Forall_forall. auto. }
  assert (HndI : NoDup (map fst (sort (@gt_index V) I))).
  { apply (Permutation_NoDup (Permutation_map fst (Permutation_sym (sort_perm _ I)))).
    unfold I. clear S. induction o as [|[k v] o IH]; [constructor|].
    cbn [map fst] in Hnd. inversion Hnd as [|? ? Hk Ho]; subst.
    cbn [filter fst]. destruct (is_index k); auto.
    cbn [map fst]. constructor; auto.
    intro Hin. apply Hk. apply in_map_iff in Hin. destruct Hin as (e & <- & He).
    apply filter_In in He. apply in_map. tauto. }
  assert (Hidx : forall e, In e (sort (@gt_index V) I) -> is_index (fst e) = true).
  { intros e He. apply (Permutation_in _ (sort_perm _ _)) in He.
    apply filter_In in He. tauto. }
  induction S as [|x s Hs IH Hx]; constructor.
  - apply IH.
    + cbn [map] in HndI. now inversion HndI.
    + intros e He. apply Hidx. now right.
  - cbn [map] in HndI. inversion HndI as [|? ? Hxs _]; subst.
    rewrite Forall_forall in *. intros y Hy. specialize (Hx y Hy).
    unfold gt_index in Hx. rewrite Z.ltb_ge in Hx.
    assert (Hne : index_of (fst x) <> index_of (fst y)).
    { intro E. apply Hxs.
      assert (Ix : is_index (fst x) = true) by (apply Hidx; now left).
      assert (Iy : is_index (fst y) = true) by (apply Hidx; now right).
      unfold is_index in Ix, Iy. unfold index_of in E.
      destruct (array_index (fst x)) as [n|] eqn:Ex; [|discriminate Ix].
      destruct (array_index (fst y)) as [n'|] eqn:Ey; [|discriminate Iy].
      subst n'. rewrite (@array_index_inj (fst x) (fst y) n Ex Ey).
      now apply in_map. }
    lia.
Qed.

Lemma as_counts_keys (t : list (string * nat)) : map fst (as_counts t) = map fst t.
Proof. unfold as_counts. rewrite map_map. reflexivity. Qed.

Lemma as_counts_In (t : list (string * nat)) (e : string * tallied) :
  In e (as_counts t) <-> exists n, snd e = Times n /\ In (fst e, n) t.
Proof.
  unfold as_counts. rewrite in_map_iff. split.
  - intros ([k n] & <- & H). exists n. auto.
  - intros (n & Hn & H). exists (fst e, n). split; auto.
    destruct e as [k v]. cbn [fst snd] in *. now subst v.
Qed.

(** C4, as the code has it, for a column none of whose stringified values
    names a member of [Object.prototype]: the frequency object holds every
    distinct stringified value with its number of occurrences, and
    [Object.entries] lists first the keys that are array indices, in
    strictly ascending numeric order, then the other keys in
    first-encountered order.  The summary's most common entry and the
    projector's order both come from a stable descending sort of that list:
    entries of equal count keep its order, and the most common entry is the
    first of the highest count in it.  For a column none of whose stringified
    values is an array index it is the first-encountered order. *)
Theorem ties_follow_enumeration_order (cells : list cell) :
  let values := filter non_empty cells in
  let strs := stringified cells in
  let E := entries (frequencies values) in
  let sortedFreq := sort gt_count E in
  let indexed := fun e : string * tallied => is_index (fst e) in
  no_member_name strs = true ->
  Permutation E (as_counts (tally_table strs))
  /\ E = (filter indexed E ++ filter (fun e => negb (indexed e)) E)%list
  /\ StronglySorted (fun a b => (index_of (fst a) < index_of (fst b))%Z)
                    (filter indexed E)
  /\ filter (fun e => negb (indexed e)) E
     = filter (fun e => negb (indexed e)) (as_counts (tally_table strs))
  /\ Profile.mostCommon (categoricalProfile values) = hd_error sortedFreq
  /\ (forall data column limit,
         column_values data column = values ->
         getChartData data column limit =
         if (List.length data =? 0) || String.eqb column "" then []
         else map (freq_point (List.length values)) (firstn limit sortedFreq))
  /\ Permutation sortedFreq E
  /\ StronglySorted count_ge sortedFreq
  /\ (forall a b, before a b E -> snd a = snd b -> before a b sortedFreq)
  /\ (forall m, hd_error sortedFreq = Some m ->
        forall e, In e E ->
          times (snd e) <= times (snd m)
          /\ (snd e = snd m -> e = m \/ before m e E))
  /\ (forallb (fun k => negb (is_index k)) strs = true ->
      E = as_counts (tally_table strs)).
Proof.
  intros values strs E sortedFreq indexed Hfree. subst indexed. cbv beta.
  assert (Hfreq : frequencies values = as_counts (tally_table strs))
    by (apply frequencies_table; exact Hfree).
  assert (HE : E = own_entries (as_counts (tally_table strs)))
    by (unfold E, entries; now rewrite Hfreq).
  assert (HEp : Permutation E (as_counts (tally_table strs)))
    by (rewrite HE; apply own_entries_perm).
  assert (Hperm : Permutation sortedFreq E) by apply sort_perm.
  assert (Hsorted : StronglySorted count_ge sortedFreq).
  { unfold sortedFreq. rewrite HE, own_entries_as_counts. apply sort_count_sorted. }
  assert (Htimes : forall e, In e E -> exists n, snd e = Times n).
  { intros e He. apply (Permutation_in _ HEp), as_counts_In in He.
    destruct He as (n & Hn & _). now exists n. }
  assert (Hstable : forall a b, before a b E -> snd a = snd b -> before a b sortedFreq).
  { intros a b Hb Hc. apply sort_stable; auto.
    destruct (before_In Hb) as [Ha _]. destruct (Htimes a Ha) as [n Hn].
    unfold gt_count. rewrite <- Hc, Hn. apply Z.ltb_ge. lia. }
  assert (Hkeys : NoDup (map fst (as_counts (tally_table strs)))).
  { rewrite as_counts_keys, tally_table_keys. apply first_occ_NoDup. }
  assert (HndE : NoDup E).
  { apply (Permutation_NoDup (Permutation_sym HEp)).
    apply (NoDup_map_inv fst). exact Hkeys. }
  destruct (own_entries_split (as_counts (tally_table strs))) as [HI HN].
  rewrite <- HE in HI, HN.
  split; [exact HEp|]. split.
  { rewrite HI, HN. exact HE. }
  split.
  { rewrite HI. apply index_entries_ascending. exact Hkeys. }
  split; [exact HN|].
  split; [reflexivity|]. split.
  { intros data column limit Hcol. rewrite getChartData_entries, Hcol. reflexivity. }
  split; [exact Hperm|]. split; [exact Hsorted|]. split; [exact Hstable|]. split.
  - intros m Hm e He.
    destruct sortedFreq as [|m' rest] eqn:Es; [discriminate|].
    injection Hm as ->.
    assert (Hnd : NoDup (m :: rest))
      by (apply (Permutation_NoDup (Permutation_sym Hperm)); exact HndE).
    assert (Hin : In e (m :: rest))
      by (apply (Permutation_in _ (Permutation_sym Hperm)); exact He).
    assert (Hm : In m E)
      by (apply (Permutation_in _ Hperm); now left).
    inversion Hsorted as [|? ? _ Hall]; subst.
    rewrite Forall_forall in Hall. split.
    + destruct Hin as [<-|Hin]; [lia|]. apply Hall. exact Hin.
    + intro Hc.
      destruct (string_dec (fst e) (fst m)) as [Hk|Hk].
      * left. destruct e, m; simpl in *; congruence.
      * right. assert (Hne : e <> m) by congruence.
        destruct (@before_either _ e m E He Hm Hne) as [Hb|Hb]; auto.
        exfalso. apply (@before_head_NoDup _ e m rest Hnd). apply Hstable; auto.
  - intro Hplain. rewrite HE, own_entries_as_counts. f_equal.
    apply own_entries_plain, plain_table, Hplain.
Qed.

Lemma ties_follow_enumeration_order_witness :
  no_member_name (stringified tied_cells) = true
  /\ Permutation (entries (frequencies (filter non_empty tied_cells)))
                 (as_counts (tally_table (stringified tied_cells))).
Proof.
  assert (H : no_member_name (stringified tied_cells) = true) by reflexivity.
  split; [exact H|].
  exact (proj1 (@ties_follow_enumeration_order tied_cells H)).
Defined.

(** C4 fails as stated: in the column ["b", 7] both values occur once and
    "b" is encountered first, yet the most common entry is ("7", 1). *)
Lemma index_key_wins_tie : ~ first_encountered_wins tied_cells.
Proof.
  intro H. specialize (H ("7", Times 1) eq_refl "b").
  destruct H as [H|H]; [now left | reflexivity | simpl in H; discriminate H |].
  destruct H as (l1 & l2 & l3 & H).
  assert (Hf : first_occ (stringified tied_cells) = ["b"; "7"])
    by (vm_compute; reflexivity).
  rewrite Hf in H. cbn [fst] in H.
  destruct l1 as [|x1 [|x2 l1]]; cbn [app] in H.
  - discriminate H.
  - injection H as _ H. destruct l2; discriminate H.
  - injection H as _ _ H. destruct l1; discriminate H.
Qed.

Example tied_column :
  classify tied_cells = CATEGORICAL
  /\ stringified tied_cells = ["b"; "7"]
  /\ Profile.mostCommon (categoricalProfile tied_cells) = Some ("7", Times 1)
  /\ map Freq.name (getChartData tied_data "c" 10) = ["7"; "b"].
Proof. vm_compute. repeat split; reflexivity. Qed.

(** ** Order on numbers *)

Lemma leb_finite (x y : number) :
  is_finite x = true -> is_finite y = true ->
  leb x y = true <-> (val x <= val y)%Q.
Proof.
  unfold leb.
  destruct x as [| |  |p], y as [| | |q]; simpl; try discriminate; intros _ _.
  - split; [intros _; apply Qle_refl | reflexivity].
  - destruct (Qcompare_spec 0 q) as [H|H|H]; split; auto;
      try discriminate; intro H'.
    + rewrite H. apply Qle_refl.
    + now apply Qlt_le_weak.
    + exfalso. apply (Qlt_irrefl q). eapply Qlt_le_trans; eauto.
  - destruct (Qcompare_spec p 0) as [H|H|H]; split; auto;
      try discriminate; intro H'.
    + rewrite H. apply Qle_refl.
    + now apply Qlt_le_weak.
    + exfalso. apply (Qlt_irrefl 0). eapply Qlt_le_trans; eauto.
  - destruct (Qcompare_spec p q) as [H|H|H]; split; auto;
      try discriminate; intro H'.
    + rewrite H. apply Qle_refl.
    + now apply Qlt_le_weak.
    + exfalso. apply (Qlt_irrefl q). eapply Qlt_le_trans; eauto.
Qed.

Lemma leb_refl (x : number) : is_nan x = false -> leb x x = true.
Proof.
  unfold leb. destruct x as [|[|]| |q]; simpl; try discriminate; auto.
  intros _. now rewrite (proj1 (Qeq_alt q q) (Qeq_refl q)).
Qed.

Lemma leb_trans (x y z : number) :
  leb x y = true -> leb y z = true -> leb x z = true.
Proof.
  destruct x as [|[|]| |p]; try (unfold leb; simpl; discriminate);
  destruct z as [|[|]| |r];
    try (unfold leb; simpl; (reflexivity || (destruct y as [|[|]| |?]; simpl; discriminate)));
  destruct y as [|[|]| |q];
    try (unfold leb; simpl; (reflexivity || discriminate));
  rewrite !leb_finite by reflexivity; apply Qle_trans.
Qed.

Lemma leb_total (x y : number) :
  is_nan x = false -> is_nan y = false -> leb x y = true \/ leb y x = true.
Proof.
  intros Hx Hy.
  destruct (is_finite x) eqn:Fx, (is_finite y) eqn:Fy.
  - rewrite !leb_finite by assumption.
    destruct (Qlt_le_dec (val x) (val y)); auto using Qlt_le_weak.
  - destruct y as [|[|]| |q]; try discriminate;
      destruct x as [|[|]| |p]; try discriminate; unfold leb; simpl; auto.
  - destruct x as [|[|]| |p]; try discriminate;
      destruct y as [|[|]| |q]; try discriminate; unfold leb; simpl; auto.
  - destruct x as [|[|]| |p]; try discriminate;
      destruct y as [|[|]| |q]; try discriminate; unfold leb; simpl; auto.
Qed.

Lemma compare_antisym (x y : number) :
  compare y x = option_map CompOpp (compare x y).
Proof.
  destruct x as [|[|]| |p], y as [|[|]| |q]; simpl; auto;
    now rewrite Qcompare_antisym.
Qed.

Lemma compare_total (x y : number) :
  is_nan x = false -> is_nan y = false -> exists c, compare x y = Some c.
Proof.
  destruct x as [|[|]| |p]; try discriminate; intros _;
    destruct y as [|[|]| |q]; try discriminate; intros _; simpl; eauto.
Qed.

(** ** Least and greatest value *)

Lemma min2_spec (a b : number) :
  is_nan a = false -> is_nan b = false ->
  (min2 a b = a \/ min2 a b = b)
  /\ leb (min2 a b) a = true /\ leb (min2 a b) b = true.
Proof.
  intros Ha Hb. destruct (compare_total a b Ha Hb) as [c Hc].
  pose proof (compare_antisym a b) as Hba. rewrite Hc in Hba. simpl in Hba.
  unfold min2. rewrite Hc.
  destruct c; [destruct (sign_neg a)| |]; repeat split; auto using leb_refl;
    unfold leb; rewrite ?Hc, ?Hba; reflexivity.
Qed.

Lemma max2_spec (a b : number) :
  is_nan a = false -> is_nan b = false ->
  (max2 a b = a \/ max2 a b = b)
  /\ leb a (max2 a b) = true /\ leb b (max2 a b) = true.
Proof.
  intros Ha Hb. destruct (compare_total a b Ha Hb) as [c Hc].
  pose proof (compare_antisym a b) as Hba. rewrite Hc in Hba. simpl in Hba.
  unfold max2. rewrite Hc.
  destruct c; [destruct (sign_neg a)| |]; repeat split; auto using leb_refl;
    unfold leb; rewrite ?Hc, ?Hba; reflexivity.
Qed.

Lemma fold_min2 (l : list number) (init : number) :
  is_nan init = false -> no_nan l ->
  let r := fold_left min2 l init in
  is_nan r = false /\ (r = init \/ In r l) /\ leb r init = true
  /\ forall x, In x l -> leb r x = true.
Proof.
  revert init. induction l as [|y l IH]; intros init Hi Hl; simpl.
  - repeat split; auto using leb_refl; intros x [].
  - inversion Hl as [|? ? Hy Hl']; subst.
    destruct (min2_spec init y Hi Hy) as (Hsel & Hle1 & Hle2).
    assert (Hm : is_nan (min2 init y) = false) by (destruct Hsel as [->| ->]; auto).
    destruct (IH (min2 init y) Hm Hl') as (Hn & Hin & Hle & Hall).
    repeat split; auto.
    + destruct Hin as [Hin|Hin]; auto. rewrite Hin.
      destruct Hsel as [->| ->]; auto.
    + eapply leb_trans; eauto.
    + intros x [<-|Hx]; auto. eapply leb_trans; eauto.
Qed.

Lemma fold_max2 (l : list number) (init : number) :
  is_nan init = false -> no_nan l ->
  let r := fold_left max2 l init in
  is_nan r = false /\ (r = init \/ In r l) /\ leb init r = true
  /\ forall x, In x l -> leb x r = true.
Proof.
  revert init. induction l as [|y l IH]; intros init Hi Hl; simpl.
  - repeat split; auto using leb_refl; intros x [].
  - inversion Hl as [|? ? Hy Hl']; subst.
    destruct (max2_spec init y Hi Hy) as (Hsel & Hle1 & Hle2).
    assert (Hm : is_nan (max2 init y) = false) by (destruct Hsel as [->| ->]; auto).
    destruct (IH (max2 init y) Hm Hl') as (Hn & Hin & Hle & Hall).
    repeat split; auto.
    + destruct Hin as [Hin|Hin]; auto. rewrite Hin.
      destruct Hsel as [->| ->]; auto.
    + eapply leb_trans; eauto.
    + intros x [<-|Hx]; auto. eapply leb_trans; eauto.
Qed.

Lemma min2_infinity (x : number) : is_nan x = false -> min2 (Inf false) x = x.
Proof. destruct x as [|[|]| |q]; try discriminate; reflexivity. Qed.

Lemma max2_infinity (x : number) : is_nan x = false -> max2 (Inf true) x = x.
Proof. destruct x as [|[|]| |q]; try discriminate; reflexivity. Qed.

(** [Math.min] of a non-empty list without [NaN] is its least element. *)
Lemma Math_min_least (l : list number) :
  no_nan l -> l <> [] ->
  In (Math_min l) l /\ forall x, In x l -> leb (Math_min l) x = true.
Proof.
  intros Hl Hne. destruct l as [|y l]; [congruence|].
  inversion Hl as [|? ? Hy Hl']; subst.
  unfold Math_min. simpl. rewrite min2_infinity by assumption.
  destruct (@fold_min2 l y Hy Hl') as (_ & Hin & Hle & Hall).
  split; [destruct Hin as [Hin|Hin]; [rewrite Hin; now left | now right]|].
  intros x [<-|Hx]; auto.
Qed.

(** [Math.max] of a non-empty list without [NaN] is its greatest element. *)
Lemma Math_max_greatest (l : list number) :
  no_nan l -> l <> [] ->
  In (Math_max l) l /\ forall x, In x l -> leb x (Math_max l) = true.
Proof.
  intros Hl Hne. destruct l as [|y l]; [congruence|].
  inversion Hl as [|? ? Hy Hl']; subst.
  unfold Math_max. simpl. rewrite max2_infinity by assumption.
  destruct (@fold_max2 l y Hy Hl') as (_ & Hin & Hle & Hall).
  split; [destruct Hin as [Hin|Hin]; [rewrite Hin; now left | now right]|].
  intros x [<-|Hx]; auto.
Qed.

(** No [NaN] enters the numbers of a column. *)
Lemma numbers_no_nan (cells : list cell) : no_nan (numbers_of cells).
Proof.
  unfold numbers_of, no_nan. rewrite Forall_map, Forall_forall.
  intros v Hv. apply filter_In in Hv. destruct Hv as [Hv Hnum].
  apply filter_In in Hv. destruct Hv as [_ Hne].
  destruct v as [| |x|s|name]; try discriminate Hne.
  - unfold is_numeric_value, isNaN in Hnum. simpl in *.
    destruct (is_nan x); [discriminate Hnum | reflexivity].
  - rewrite numeric_string in Hnum. apply andb_true_iff in Hnum.
    simpl. now apply negb_true_iff.
  - discriminate Hnum.
Qed.

(** ** Statistics of a numeric column *)

Lemma analyzeColumn_numeric (cells : list cell) (p : Profile.numeric_profile) :
  analyzeColumn cells = Numeric p ->
  p = numericProfile (filter is_numeric_value (filter non_empty cells))
  /\ 0 < List.length (numbers_of cells).
Proof.
  unfold analyzeColumn.
  destruct (mostly_numeric _ _) eqn:E; [|discriminate].
  intro H. injection H as <-. split; auto.
  apply mostly_numeric_true in E. unfold numbers_of. rewrite length_map. tauto.
Qed.

Lemma sort_length {A} (gt : A -> A -> bool) (l : list A) :
  List.length (sort gt l) = List.length l.
Proof. apply Permutation_length, sort_perm. Qed.



(** ** Rounding to binary64 *)

Section Rounding.
Local Open Scope Q_scope.

Lemma pow2_pos (z : Z) : 0 < pow2 z.
Proof. apply Qpower_0_lt. reflexivity. Qed.

Lemma pow2_add (a b : Z) : pow2 (a + b) == pow2 a * pow2 b.
Proof. apply Qpower_plus. discriminate. Qed.

Lemma pow2_le (a b : Z) : (a <= b)%Z -> pow2 a <= pow2 b.
Proof. intro H. apply Qpower_le_compat_l; auto. discriminate. Qed.

Lemma pow2_lt (a b : Z) : (a < b)%Z -> pow2 a < pow2 b.
Proof. intro H. apply Qpower_lt_compat_l; auto. reflexivity. Qed.

Lemma pow2_le_inv (a b : Z) : pow2 a < pow2 b -> (a < b)%Z.
Proof. intro H. apply (Qpower_lt_compat_l_inv 2); auto. reflexivity. Qed.

Lemma pow2_Z (z : Z) : (0 <= z)%Z -> pow2 z == inject_Z (2 ^ z).
Proof. intro H. unfold pow2. now rewrite Zpower_Qpower. Qed.

Lemma pow2_succ (z : Z) : pow2 (z + 1) == 2 * pow2 z.
Proof. rewrite pow2_add. change (pow2 1) with 2. apply Qmult_comm. Qed.

Lemma Qmake_times_den (p : Z) (d : positive) :
  (p # d) * inject_Z (Zpos d) == inject_Z p.
Proof. unfold Qeq. simpl. rewrite Pos.mul_1_r. lia. Qed.

Lemma log2_bounds (p : Z) :
  (0 < p)%Z -> pow2 (Z.log2 p) <= inject_Z p < pow2 (Z.log2 p + 1).
Proof.
  intro Hp. destruct (Z.log2_spec p Hp) as [H1 H2].
  pose proof (Z.log2_nonneg p) as Hn.
  rewrite !pow2_Z by lia. rewrite <- Zle_Qle, <- Zlt_Qlt.
  unfold Z.succ in H2. split; assumption.
Qed.

Lemma ilog2_spec (a : Q) :
  0 < a -> pow2 (ilog2 a) <= a < pow2 (ilog2 a + 1).
Proof.
  intro Ha. unfold ilog2.
  destruct a as [p d].
  assert (Hp : (0 < p)%Z).
  { unfold Qlt in Ha. simpl in Ha. lia. }
  simpl Qnum. simpl Qden.
  set (lp := Z.log2 p). set (ld := Z.log2 (Zpos d)).
  destruct (@log2_bounds p Hp) as [P1 P2]. fold lp in P1, P2.
  destruct (@log2_bounds (Zpos d) eq_refl) as [D1 D2]. fold ld in D1, D2.
  pose proof (Qmake_times_den p d) as Hpd.
  set (A := p # d) in *. set (P := inject_Z p) in *. set (D := inject_Z (Zpos d)) in *.
  assert (HD : 0 < D) by (unfold D; rewrite <- (Zlt_Qlt 0); reflexivity).
  pose proof (pow2_pos (lp - ld)) as HE.
  pose proof (pow2_pos ld) as HL.
  assert (E1 : pow2 lp == pow2 (lp - ld) * pow2 ld).
  { rewrite <- pow2_add. now replace (lp - ld + ld)%Z with lp by ring. }
  rewrite pow2_succ in P2, D2.
  assert (Hup : A < pow2 (lp - ld + 1)).
  { rewrite pow2_succ. apply (Qmult_lt_r _ _ D HD). rewrite Hpd.
    eapply Qlt_le_trans; [exact P2|]. rewrite E1.
    rewrite <- !Qmult_assoc. apply Qmult_le_l; [reflexivity|].
    apply Qmult_le_l; assumption. }
  assert (Hlo : pow2 (lp - ld - 1) < A).
  { apply (Qmult_lt_r _ _ D HD). rewrite Hpd.
    eapply Qlt_le_trans; [|exact P1]. rewrite E1.
    assert (E2 : pow2 (lp - ld) == 2 * pow2 (lp - ld - 1)).
    { rewrite <- pow2_succ. now replace (lp - ld - 1 + 1)%Z with (lp - ld)%Z by ring. }
    rewrite E2. rewrite <- !Qmult_assoc.
    rewrite (Qmult_comm 2), <- !Qmult_assoc.
    apply Qmult_lt_l; [apply pow2_pos|].
    rewrite (Qmult_comm _ 2). exact D2. }
  destruct (Qle_bool (pow2 (lp - ld)) A) eqn:E.
  - apply Qle_bool_iff in E. split; assumption.
  - split; [apply Qlt_le_weak; assumption|].
    replace (lp - ld - 1 + 1)%Z with (lp - ld)%Z by ring.
    apply Qnot_le_lt. intro H. apply Qle_bool_iff in H. congruence.
Qed.

Lemma floor_bounds (q : Q) : inject_Z (Qfloor q) <= q < inject_Z (Qfloor q) + 1.
Proof.
  split; [apply Qfloor_le|].
  pose proof (Qlt_floor q) as H. now rewrite inject_Z_plus in H.
Qed.

Lemma round_half_even_close (q : Q) :
  Qabs (inject_Z (round_half_even q) - q) <= 1 # 2.
Proof.
  unfold round_half_even. destruct (floor_bounds q) as [H1 H2].
  set (f := Qfloor q) in *. apply Qabs_Qle_condition.
  assert (Hp : inject_Z (f + 1) == inject_Z f + 1)
    by (rewrite inject_Z_plus; reflexivity).
  destruct (Qcompare_spec (q - inject_Z f) (1 # 2)) as [H|H|H].
  - destruct (Z.even f); rewrite ?Hp; split; lra.
  - split; lra.
  - rewrite Hp. split; lra.
Qed.

Lemma round_half_even_Z (q : Q) (k : Z) :
  q == inject_Z k -> round_half_even q = k.
Proof.
  intro H. unfold round_half_even.
  assert (Hf : Qfloor q = k) by (rewrite H; apply Qfloor_Z).
  rewrite Hf.
  destruct (Qcompare_spec (q - inject_Z k) (1 # 2)) as [E|E|E]; auto; lra.
Qed.

Lemma round_half_even_mono (p q : Q) :
  p <= q -> (round_half_even p <= round_half_even q)%Z.
Proof.
  intro H. unfold round_half_even.
  pose proof (Qfloor_resp_le _ _ H) as Hf.
  destruct (floor_bounds p) as [P1 P2]. destruct (floor_bounds q) as [Q1 Q2].
  set (f := Qfloor p) in *. set (g := Qfloor q) in *.
  destruct (Z.eq_dec f g) as [E|E].
  - rewrite <- E in *.
    destruct (Qcompare_spec (p - inject_Z f) (1 # 2)) as [A|A|A];
    destruct (Qcompare_spec (q - inject_Z f) (1 # 2)) as [B|B|B];
      try destruct (Z.even f); try lia; lra.
  - assert (f + 1 <= g)%Z by lia.
    destruct (Qcompare (p - inject_Z f) (1 # 2));
    destruct (Qcompare (q - inject_Z g) (1 # 2));
      try destruct (Z.even f); try destruct (Z.even g); lia.
Qed.

(** Rounding a rational in the normal range moves it by at most half a unit
    in the last place. *)
Lemma round_pos_close (a : Q) :
  pow2 (-1022) <= a -> a <= pow2 1023 ->
  exists r, round_pos a = Some r /\ Qabs (r - a) <= a * pow2 (-53).
Proof.
  intros Hlo Hhi.
  assert (Ha : 0 < a) by (eapply Qlt_le_trans; [apply pow2_pos | exact Hlo]).
  destruct (@ilog2_spec a Ha) as [E1 E2].
  assert (He : (-1022 <= ilog2 a)%Z).
  { assert (pow2 (-1022) < pow2 (ilog2 a + 1)) by (eapply Qle_lt_trans; eauto).
    apply pow2_le_inv in H. lia. }
  unfold round_pos.
  replace (Z.max (ilog2 a - 52) (-1074)) with (ilog2 a - 52)%Z by lia.
  set (sh := (ilog2 a - 52)%Z).
  set (m := round_half_even (a / pow2 sh)).
  pose proof (round_half_even_close (a / pow2 sh)) as Hm. fold m in Hm.
  pose proof (pow2_pos sh) as Hsh.
  assert (Hr : Qabs (inject_Z m * pow2 sh - a) <= a * pow2 (-53)).
  { assert (Hu : pow2 sh * (1 # 2) <= a * pow2 (-53)).
    { assert (Es : pow2 sh * (1 # 2) == pow2 (ilog2 a) * pow2 (-53)).
      { assert (X : pow2 (ilog2 a) == pow2 sh * pow2 52).
        { rewrite <- pow2_add. unfold sh.
          now replace (ilog2 a - 52 + 52)%Z with (ilog2 a) by ring. }
        rewrite X. rewrite <- Qmult_assoc. apply Qmult_comp; [reflexivity|].
        reflexivity. }
      rewrite Es. apply Qmult_le_compat_r; auto. apply Qlt_le_weak, pow2_pos. }
    eapply Qle_trans; [|exact Hu].
    assert (Eq : inject_Z m * pow2 sh - a == (inject_Z m - a / pow2 sh) * pow2 sh).
    { field. intro Z. rewrite Z in Hsh. discriminate. }
    rewrite Eq, Qabs_Qmult, (Qabs_pos (pow2 sh)) by (apply Qlt_le_weak; assumption).
    rewrite Qmult_comm. apply Qmult_le_l; assumption. }
  exists (Qred (inject_Z m * pow2 sh)). split.
  - apply Qabs_Qle_condition in Hr. destruct Hr as [_ Hr].
    destruct (Qle_bool (pow2 1024) (Qred (inject_Z m * pow2 sh))) eqn:E; auto.
    apply Qle_bool_iff in E. rewrite Qred_correct in E. exfalso.
    assert (U : pow2 (-53) < 1) by reflexivity.
    assert (P : pow2 1024 == 2 * pow2 1023) by reflexivity.
    assert (a * pow2 (-53) < a * 1) by (apply Qmult_lt_l; auto).
    lra.
  - now rewrite Qred_correct.
Qed.

Lemma pow2_nonzero (z : Z) : ~ pow2 z == 0.
Proof. intro H. pose proof (pow2_pos z) as P. rewrite H in P. discriminate. Qed.

(** A value on the grid of its binade is left unchanged. *)
Lemma round_pos_grid (a : Q) (k : Z) :
  a < pow2 1024 ->
  a / pow2 (Z.max (ilog2 a - 52) (-1074)) == inject_Z k ->
  exists r, round_pos a = Some r /\ r == a.
Proof.
  intros Hhi Hk. unfold round_pos.
  set (sh := Z.max (ilog2 a - 52) (-1074)) in *.
  rewrite (@round_half_even_Z _ k Hk).
  assert (E : inject_Z k * pow2 sh == a).
  { rewrite <- Hk. field. apply pow2_nonzero. }
  exists (Qred (inject_Z k * pow2 sh)). split.
  - destruct (Qle_bool (pow2 1024) (Qred (inject_Z k * pow2 sh))) eqn:B; auto.
    apply Qle_bool_iff in B. rewrite Qred_correct, E in B. lra.
  - now rewrite Qred_correct.
Qed.

Lemma round64_pos (q : Q) :
  0 < q -> round64 q = match round_pos q with Some r => Fin r | None => Inf false end.
Proof.
  intro H. unfold round64. now rewrite (proj1 (Qgt_alt q 0) H).
Qed.

Lemma round64_close (q : Q) :
  pow2 (-1022) <= q -> q <= pow2 1023 ->
  exists r, round64 q = Fin r /\ Qabs (r - q) <= q * pow2 (-53).
Proof.
  intros Hlo Hhi.
  assert (Hq : 0 < q) by (eapply Qlt_le_trans; [apply pow2_pos | exact Hlo]).
  destruct (@round_pos_close q Hlo Hhi) as (r & Hr & Hc).
  exists r. now rewrite round64_pos, Hr.
Qed.

(** Integers below 2^53 are binary64 values. *)
Lemma of_Z_exact (z : Z) :
  (0 < z < 2 ^ 53)%Z -> exists r, of_Z z = Fin r /\ r == inject_Z z.
Proof.
  intros [Hz1 Hz2]. unfold of_Z.
  set (a := inject_Z z).
  assert (Ha : 0 < a) by (unfold a; rewrite <- (Zlt_Qlt 0); exact Hz1).
  destruct (@ilog2_spec a Ha) as [E1 E2].
  assert (A1 : pow2 0 <= a).
  { change (pow2 0) with (inject_Z 1). unfold a. rewrite <- Zle_Qle. lia. }
  assert (A2 : a < pow2 53).
  { rewrite pow2_Z by lia. unfold a. now rewrite <- Zlt_Qlt. }
  assert (He1 : (0 <= ilog2 a)%Z).
  { assert (pow2 0 < pow2 (ilog2 a + 1)) by (eapply Qle_lt_trans; eauto).
    apply pow2_le_inv in H. lia. }
  assert (He2 : (ilog2 a <= 52)%Z).
  { assert (pow2 (ilog2 a) < pow2 53) by (eapply Qle_lt_trans; eauto).
    apply pow2_le_inv in H. lia. }
  rewrite round64_pos by assumption.
  destruct (@round_pos_grid a (z * 2 ^ (52 - ilog2 a))) as (r & Hr & Er).
  - eapply Qlt_trans; [exact A2|]. apply pow2_lt. lia.
  - replace (Z.max (ilog2 a - 52) (-1074)) with (- (52 - ilog2 a))%Z by lia.
    unfold pow2 at 1. rewrite Qpower_opp. fold (pow2 (52 - ilog2 a)).
    rewrite pow2_Z by lia. rewrite inject_Z_mult. fold a.
    field. rewrite <- pow2_Z by lia. apply pow2_nonzero.
  - exists r. now rewrite Hr.
Qed.


Lemma div_finite (p q : Q) :
  ~ p == 0 -> ~ q == 0 -> div (Fin p) (Fin q) = round64 (p / q).
Proof.
  intros Hp Hq. unfold div. simpl.
  destruct (Qeq_bool q 0) eqn:E1; [apply Qeq_bool_iff in E1; contradiction|].
  destruct (Qeq_bool p 0) eqn:E2; [apply Qeq_bool_iff in E2; contradiction|].
  reflexivity.
Qed.

Lemma mul_finite (p q : Q) :
  ~ p * q == 0 -> mul (Fin p) (Fin q) = round64 (p * q).
Proof.
  intros H. unfold mul.
  destruct (Qeq_bool (p * q) 0) eqn:E; [apply Qeq_bool_iff in E; contradiction|].
  reflexivity.
Qed.

Lemma toFixed_small (f : nat) (b : Q) :
  0 <= b -> b < pow10 21 ->
  toFixed f (Fin b) = show_fixed f (fixed_digits f (Qabs b)).
Proof.
  intros H0 H1. unfold toFixed.
  assert (Hs : match Qcompare b 0 with Lt => "-"%string | _ => ""%string end = ""%string).
  { destruct (Qcompare_spec b 0) as [E|E|E]; auto. lra. }
  rewrite Hs.
  destruct (Qle_bool (pow10 21) (Qabs b)) eqn:E; auto.
  apply Qle_bool_iff in E. rewrite Qabs_pos in E by assumption. lra.
Qed.

Lemma percentage_nearest (c T : nat) :
  (0 < c)%nat -> (c <= T)%nat -> (Z.of_nat T < 2 ^ 32)%Z ->
  percentage_of (Times c) T = show_fixed 1 (percentage_tenths c T)
  /\ (Z.abs (2 * Z.of_nat T * percentage_tenths c T - 2000 * Z.of_nat c)
      <= Z.of_nat T)%Z.
Proof.
  intros Hc HcT HT.
  set (C := inject_Z (Z.of_nat c)). set (TT := inject_Z (Z.of_nat T)).
  assert (HC : 1 <= C) by (unfold C; rewrite <- (Zle_Qle 1); lia).
  assert (HCT : C <= TT) by (unfold C, TT; rewrite <- Zle_Qle; lia).
  assert (HTT : TT <= inject_Z (2 ^ 32)) by (unfold TT; rewrite <- Zle_Qle; lia).
  change (inject_Z (2 ^ 32)) with 4294967296 in HTT.
  destruct (@of_Z_exact (Z.of_nat c)) as (c' & Ec & Vc); [lia|].
  destruct (@of_Z_exact (Z.of_nat T)) as (T' & Et & Vt); [lia|].
  destruct (@of_Z_exact 100) as (h & Eh & Vh); [lia|].
  fold C in Vc. fold TT in Vt. change (inject_Z 100) with 100 in Vh.
  set (x := c' / T').
  assert (Hx0 : x == C / TT) by (unfold x; now rewrite Vc, Vt).
  assert (HTpos : 0 < TT) by lra.
  assert (Hx1 : x * TT == C).
  { rewrite Hx0. field. lra. }
  assert (Hxle : x <= 1).
  { apply (Qmult_le_r _ _ TT HTpos). lra. }
  assert (Hxlo : pow2 (-32) <= x).
  { apply (Qmult_le_r _ _ TT HTpos). rewrite Hx1.
    assert (pow2 (-32) * TT <= pow2 (-32) * 4294967296)
      by (apply Qmult_le_l; [apply pow2_pos | exact HTT]).
    assert (pow2 (-32) * 4294967296 == 1) by reflexivity. lra. }
  assert (L1 : pow2 (-1022) <= pow2 (-32)) by (apply pow2_le; lia).
  assert (P32 : 0 < pow2 (-32)) by apply pow2_pos.
  assert (L2 : 1 <= pow2 1023) by (change 1 with (pow2 0); apply pow2_le; lia).
  destruct (@round64_close x) as (a & Ea & Ha); [lra | lra |].
  set (u := pow2 (-53)) in *.
  assert (Hu : u == 1 # 9007199254740992) by reflexivity.
  assert (Hxu : x * u <= u).
  { rewrite <- (Qmult_1_l u) at 2. apply Qmult_le_compat_r; [exact Hxle | rewrite Hu; discriminate]. }
  apply Qabs_Qle_condition in Ha.
  assert (Ha1 : pow2 (-33) <= a).
  { assert (pow2 (-32) * (1 # 2) == pow2 (-33)) by reflexivity.
    assert (x * u <= x * (1 # 2)).
    { apply Qmult_le_l; [lra | rewrite Hu; discriminate]. }
    lra. }
  assert (Ha2 : a <= 2) by lra.
  assert (L3 : pow2 (-1022) <= pow2 (-33)) by (apply pow2_le; lia).
  assert (L4 : 200 <= pow2 1023).
  { apply Qle_trans with (pow2 8); [discriminate | apply pow2_le; lia]. }
  assert (Hah : a * h == 100 * a) by (rewrite Vh; ring).
  assert (P33 : 0 < pow2 (-33)) by apply pow2_pos.
  destruct (@round64_close (a * h)) as (b & Eb & Hb); [lra | lra |].
  fold u in Hb. apply Qabs_Qle_condition in Hb.
  assert (Hau : a * h * u <= 200 * u).
  { apply Qmult_le_compat_r; [lra | rewrite Hu; discriminate]. }
  assert (Hb0 : 0 < b).
  { assert (a * h * u <= a * h * (1 # 2)).
    { apply Qmult_le_l; [lra | rewrite Hu; discriminate]. }
    lra. }
  assert (Hbx : - (300 * u) <= b - 100 * x <= 300 * u) by lra.
  assert (Epct : mul (div (of_nat c) (of_nat T)) (of_Z 100) = Fin b).
  { unfold of_nat. rewrite Ec, Et, Eh.
    rewrite div_finite by lra. fold x. rewrite Ea.
    rewrite mul_finite by lra. exact Eb. }
  unfold percentage_of, percentage_tenths. cbn [tallied_number]. rewrite Epct. split.
  - apply toFixed_small; [lra|].
    assert (300 < pow10 21) by reflexivity. lra.
  - unfold fixed_digits. change (Z.of_nat 1) with 1%Z.
    destruct (floor_bounds (Qabs b * pow10 1 + (1 # 2))) as [F1 F2].
    set (n := Qfloor (Qabs b * pow10 1 + (1 # 2))) in *.
    assert (HA : Qabs b == b) by (apply Qabs_pos; lra).
    change (pow10 1) with 10 in F1, F2.
    set (N := inject_Z n) in *.
    assert (Hn : - ((1 # 2) + 3000 * u) <= N - 1000 * x <= (1 # 2) + 3000 * u) by lra.
    assert (Hw : Qabs (2 * TT * (N - 1000 * x)) <= TT + 6000 * u * TT).
    { rewrite Qabs_Qmult, (Qabs_pos (2 * TT)) by lra.
      apply Qabs_Qle_condition in Hn.
      assert (E : 2 * TT * ((1 # 2) + 3000 * u) == TT + 6000 * u * TT) by ring.
      rewrite <- E. apply Qmult_le_l; [lra | exact Hn]. }
    assert (Hz : inject_Z (2 * Z.of_nat T * n - 2000 * Z.of_nat c)
                 == 2 * TT * (N - 1000 * x)).
    { unfold Zminus. rewrite inject_Z_plus, inject_Z_opp, !inject_Z_mult.
      fold TT. fold C. fold N. rewrite <- Hx1.
      change (inject_Z 2) with 2. change (inject_Z 2000) with 2000. ring. }
    rewrite <- Hz in Hw.
    assert (Hlt : Qabs (inject_Z (2 * Z.of_nat T * n - 2000 * Z.of_nat c)) < TT + 1).
    { eapply Qle_lt_trans; [exact Hw|]. rewrite Hu. lra. }
    apply Qabs_Qlt_condition in Hlt. destruct Hlt as [B1 B2].
    assert (E1 : TT + 1 == inject_Z (Z.of_nat T + 1))
      by (rewrite inject_Z_plus; reflexivity).
    rewrite E1 in B1, B2. rewrite <- inject_Z_opp in B1.
    rewrite <- Zlt_Qlt in B1, B2. lia.
Qed.

Lemma ilog2_unique (a : Q) (e : Z) :
  pow2 e <= a -> a < pow2 (e + 1) -> ilog2 a = e.
Proof.
  intros H1 H2.
  assert (Ha : 0 < a) by (eapply Qlt_le_trans; [apply pow2_pos | exact H1]).
  destruct (@ilog2_spec a Ha) as [E1 E2].
  assert (A : pow2 (ilog2 a) < pow2 (e + 1)) by (eapply Qle_lt_trans; eauto).
  assert (B : pow2 e < pow2 (ilog2 a + 1)) by (eapply Qle_lt_trans; eauto).
  apply pow2_le_inv in A. apply pow2_le_inv in B. lia.
Qed.

Lemma ilog2_compat (a b : Q) : 0 < a -> a == b -> ilog2 a = ilog2 b.
Proof.
  intros Ha E. assert (Hb : 0 < b) by now rewrite <- E.
  destruct (@ilog2_spec b Hb) as [E1 E2].
  apply ilog2_unique; now rewrite E.
Qed.


Lemma round_half_even_compat (p q : Q) :
  p == q -> round_half_even p = round_half_even q.
Proof.
  intro E. unfold round_half_even.
  assert (Hf : Qfloor p = Qfloor q) by now rewrite E.
  rewrite Hf.
  assert (Hc : Qcompare (p - inject_Z (Qfloor q)) (1 # 2)
               = Qcompare (q - inject_Z (Qfloor q)) (1 # 2)) by now rewrite E.
  now rewrite Hc.
Qed.

Lemma round_pos_compat (a b : Q) : 0 < a -> a == b -> round_pos a = round_pos b.
Proof.
  intros Ha E. unfold round_pos. rewrite <- (ilog2_compat Ha E).
  set (sh := Z.max (ilog2 a - 52) (-1074)).
  assert (Hm : round_half_even (a / pow2 sh) = round_half_even (b / pow2 sh)).
  { apply round_half_even_compat. now rewrite E. }
  now rewrite Hm.
Qed.

Lemma round64_compat (a b : Q) : a == b -> round64 a = round64 b.
Proof.
  intro E. unfold round64.
  assert (Hc : Qcompare a 0 = Qcompare b 0) by now rewrite E.
  rewrite <- Hc.
  destruct (Qcompare_spec a 0) as [H|H|H]; auto.
  - assert (F : round_pos (- a) = round_pos (- b)).
    { apply round_pos_compat; [lra | now rewrite E]. }
    now rewrite F.
  - now rewrite (round_pos_compat H E).
Qed.

Lemma round_pos_nearest (a : Q) :
  round_pos a =
  if Qle_bool (pow2 1024) (Qred (nearest a)) then None else Some (Qred (nearest a)).
Proof. reflexivity. Qed.

Lemma round_pos_cases (a : Q) :
  (round_pos a = None /\ pow2 1024 <= nearest a)
  \/ (exists r, round_pos a = Some r /\ r == nearest a /\ nearest a < pow2 1024).
Proof.
  rewrite round_pos_nearest.
  destruct (Qle_bool (pow2 1024) (Qred (nearest a))) eqn:E.
  - left. apply Qle_bool_iff in E. rewrite Qred_correct in E. auto.
  - right. exists (Qred (nearest a)). split; auto. split; [apply Qred_correct|].
    apply Qnot_le_lt. intro H. rewrite <- (Qred_correct (nearest a)) in H.
    apply Qle_bool_iff in H. congruence.
Qed.

Lemma round_half_even_nonneg (q : Q) : 0 <= q -> (0 <= round_half_even q)%Z.
Proof.
  intro H. rewrite <- (round_half_even_Z (q:=0) (k:=0)) by reflexivity.
  now apply round_half_even_mono.
Qed.

Lemma nearest_nonneg (a : Q) : 0 < a -> 0 <= nearest a.
Proof.
  intro Ha. unfold nearest. apply Qmult_le_0_compat.
  - rewrite <- (Zle_Qle 0). apply round_half_even_nonneg.
    apply Qlt_le_weak. apply Qlt_shift_div_l; [apply pow2_pos | lra].
  - apply Qlt_le_weak, pow2_pos.
Qed.


Lemma div_pow2_le (a b : Q) (e : Z) : a <= b -> a / pow2 e <= b / pow2 e.
Proof.
  intro H. unfold Qdiv. apply Qmult_le_compat_r; auto.
  apply Qlt_le_weak, Qinv_lt_0_compat, pow2_pos.
Qed.

Lemma pow2_div (a b : Z) : pow2 a / pow2 b == pow2 (a - b).
Proof.
  unfold Zminus. rewrite pow2_add. unfold pow2 at 4. rewrite Qpower_opp.
  reflexivity.
Qed.

Lemma Qfloor_unique (q : Q) (k : Z) :
  inject_Z k <= q -> q < inject_Z k + 1 -> Qfloor q = k.
Proof.
  intros H1 H2.
  pose proof (Qfloor_resp_le _ _ H1) as A. rewrite Qfloor_Z in A.
  pose proof (Qfloor_le q) as B.
  assert (C : inject_Z (Qfloor q) < inject_Z (k + 1)).
  { rewrite inject_Z_plus. change (inject_Z 1) with 1. lra. }
  rewrite <- Zlt_Qlt in C. lia.
Qed.

Lemma round_half_even_small (q : Q) : 0 <= q -> q < 1 # 2 -> round_half_even q = 0%Z.
Proof.
  intros H0 H1. unfold round_half_even.
  assert (Hf : Qfloor q = 0%Z)
    by (apply Qfloor_unique; change (inject_Z 0) with 0; lra).
  rewrite Hf.
  destruct (Qcompare_spec (q - inject_Z 0) (1 # 2)) as [E|E|E]; auto;
    change (inject_Z 0) with 0 in E; lra.
Qed.

Lemma nearest_le_pow2 (x : Q) (e : Z) :
  0 < x -> x <= pow2 e -> (grid_exp x <= e)%Z -> nearest x <= pow2 e.
Proof.
  intros Hx Hxe Hsh. unfold nearest. set (sh := grid_exp x) in *.
  assert (Hq : x / pow2 sh <= inject_Z (2 ^ (e - sh))).
  { rewrite <- pow2_Z by lia. rewrite <- pow2_div. now apply div_pow2_le. }
  apply round_half_even_mono in Hq.
  rewrite (round_half_even_Z (q:=inject_Z (2 ^ (e - sh))) (k:=(2 ^ (e - sh))%Z)) in Hq
    by reflexivity.
  apply Qle_trans with (inject_Z (2 ^ (e - sh)) * pow2 sh).
  - apply Qmult_le_compat_r; [now rewrite <- Zle_Qle | apply Qlt_le_weak, pow2_pos].
  - rewrite <- pow2_Z by lia. rewrite <- pow2_add.
    replace (e - sh + sh)%Z with e by ring. apply Qle_refl.
Qed.

Lemma nearest_ge_pow2 (y : Q) (e : Z) :
  pow2 e <= y -> (grid_exp y <= e)%Z -> pow2 e <= nearest y.
Proof.
  intros Hye Hsh. unfold nearest. set (sh := grid_exp y) in *.
  assert (Hq : inject_Z (2 ^ (e - sh)) <= y / pow2 sh).
  { rewrite <- pow2_Z by lia. rewrite <- pow2_div. now apply div_pow2_le. }
  apply round_half_even_mono in Hq.
  rewrite (round_half_even_Z (q:=inject_Z (2 ^ (e - sh))) (k:=(2 ^ (e - sh))%Z)) in Hq
    by reflexivity.
  apply Qle_trans with (inject_Z (2 ^ (e - sh)) * pow2 sh).
  - rewrite <- pow2_Z by lia. rewrite <- pow2_add.
    replace (e - sh + sh)%Z with e by ring. apply Qle_refl.
  - apply Qmult_le_compat_r; [now rewrite <- Zle_Qle | apply Qlt_le_weak, pow2_pos].
Qed.

Lemma nearest_tiny (x : Q) (e : Z) :
  0 < x -> x < pow2 e -> (e < grid_exp x)%Z -> nearest x == 0.
Proof.
  intros Hx Hxe Hsh. unfold nearest. set (sh := grid_exp x) in *.
  assert (Hq : x / pow2 sh < 1 # 2).
  { apply Qlt_le_trans with (pow2 e / pow2 sh).
    - unfold Qdiv. apply Qmult_lt_compat_r; auto.
      apply Qinv_lt_0_compat, pow2_pos.
    - rewrite pow2_div. change (1 # 2) with (pow2 (-1)). apply pow2_le. lia. }
  assert (Hq0 : 0 <= x / pow2 sh).
  { apply Qlt_le_weak, Qlt_shift_div_l; [apply pow2_pos | lra]. }
  rewrite (round_half_even_small Hq0 Hq). apply Qmult_0_l.
Qed.


Lemma round64_neg (q : Q) :
  q < 0 ->
  round64 q = match round_pos (- q) with
              | None => Inf true
              | Some r => if Qeq_bool r 0 then NegZero else Fin (Qred (- r))
              end.
Proof. intro H. unfold round64. now rewrite (proj1 (Qlt_alt q 0) H). Qed.

Lemma round64_zero (q : Q) : q == 0 -> round64 q = zero.
Proof. intro H. unfold round64. now rewrite (proj1 (Qeq_alt q 0) H). Qed.

(** What [round64] returns, by the sign of its argument. *)
Lemma round64_pos_cases (q : Q) :
  0 < q ->
  (round64 q = Inf false /\ pow2 1024 <= nearest q)
  \/ (exists r, round64 q = Fin r /\ r == nearest q /\ nearest q < pow2 1024).
Proof.
  intro H. rewrite (round64_pos H).
  destruct (round_pos_cases q) as [[-> Ho]|(r & -> & Hr & Hb)]; [left|right]; eauto.
Qed.

Lemma round64_neg_cases (q : Q) :
  q < 0 ->
  (round64 q = Inf true /\ pow2 1024 <= nearest (- q))
  \/ (round64 q = NegZero /\ nearest (- q) == 0)
  \/ (exists r, round64 q = Fin r /\ r == - nearest (- q)
                /\ nearest (- q) < pow2 1024 /\ ~ nearest (- q) == 0).
Proof.
  intro H. rewrite (round64_neg H).
  destruct (round_pos_cases (- q)) as [[-> Ho]|(r & -> & Hr & Hb)]; [left; auto|right].
  destruct (Qeq_bool r 0) eqn:E.
  - left. apply Qeq_bool_iff in E. split; auto. now rewrite <- Hr.
  - right. exists (Qred (- r)). split; auto. rewrite Qred_correct, Hr.
    split; [reflexivity|]. split; auto.
    intro Z. rewrite <- Hr in Z. apply Qeq_bool_iff in Z. congruence.
Qed.



Lemma representable_pos (q : Q) :
  0 < q -> representable q = true -> nearest q == q /\ q < pow2 1024.
Proof.
  intros Hq Hr. unfold representable in Hr.
  destruct (round64_pos_cases Hq) as [[E _]|(r & E & Er & Hb)];
    rewrite E in Hr; [discriminate|].
  apply Qeq_bool_eq in Hr. split.
  - now rewrite <- Er.
  - now rewrite <- Hr, Er.
Qed.

Lemma representable_neg (q : Q) :
  q < 0 -> representable q = true -> nearest (- q) == - q /\ - q < pow2 1024.
Proof.
  intros Hq Hr. unfold representable in Hr.
  destruct (round64_neg_cases Hq) as [[E _]|[[E _]|(r & E & Er & Hb & _)]];
    rewrite E in Hr; try discriminate.
  apply Qeq_bool_eq in Hr.
  split; lra.
Qed.




(** A point of the grid is its own nearest grid point. *)
Lemma nearest_grid (v : Q) (k : Z) :
  v / pow2 (grid_exp v) == inject_Z k -> nearest v == v.
Proof.
  intro H. unfold nearest. rewrite (round_half_even_Z H), <- H.
  field. apply pow2_nonzero.
Qed.




Lemma nearest_compat (a b : Q) : 0 < a -> a == b -> nearest a == nearest b.
Proof.
  intros Ha E. unfold nearest, grid_exp. rewrite <- (ilog2_compat Ha E).
  set (sh := Z.max (ilog2 a - 52) (-1074)).
  assert (Hm : round_half_even (a / pow2 sh) = round_half_even (b / pow2 sh)).
  { apply round_half_even_compat. now rewrite E. }
  now rewrite Hm.
Qed.

Lemma representable_zero (q : Q) : q == 0 -> representable q = true.
Proof.
  intro H. unfold representable. rewrite (round64_zero H). unfold zero.
  apply Qeq_bool_iff. now rewrite H.
Qed.

Lemma representable_of_nearest (q : Q) :
  0 < q -> nearest q == q -> q < pow2 1024 -> representable q = true.
Proof.
  intros Hq Hn Hb. unfold representable.
  destruct (round64_pos_cases Hq) as [[_ Ho]|(r & -> & Er & _)]; [lra|].
  apply Qeq_bool_iff. now rewrite Er.
Qed.

Lemma representable_of_nearest_neg (q : Q) :
  q < 0 -> nearest (- q) == - q -> - q < pow2 1024 -> representable q = true.
Proof.
  intros Hq Hn Hb. unfold representable.
  destruct (round64_neg_cases Hq) as [[_ Ho]|[[_ Hz]|(r & -> & Er & _)]]; try lra.
  apply Qeq_bool_iff. lra.
Qed.







Lemma ilog2_pow2 (e : Z) : ilog2 (pow2 e) = e.
Proof. apply ilog2_unique; [apply Qle_refl | apply pow2_lt; lia]. Qed.

(** The nearest grid point is itself on the grid of its own binade. *)
Lemma nearest_idem (a : Q) :
  0 < a -> nearest a == 0 \/ nearest (nearest a) == nearest a.
Proof.
  intro Ha. destruct (@ilog2_spec a Ha) as [E1 E2].
  set (e := ilog2 a) in *. set (sh := grid_exp a).
  assert (Hsh : sh = Z.max (e - 52) (-1074)) by reflexivity.
  destruct (Z_lt_le_dec (e + 1) sh) as [Ht|Ht].
  { left. now apply (@nearest_tiny a (e + 1)). }
  pose proof (nearest_nonneg Ha) as V0.
  destruct (Qeq_dec (nearest a) 0) as [Z|Z]; [now left | right].
  assert (Vpos : 0 < nearest a).
  { destruct (Qlt_le_dec 0 (nearest a)); auto. exfalso. apply Z. lra. }
  assert (Vup : nearest a <= pow2 (e + 1)).
  { apply nearest_le_pow2; auto. now apply Qlt_le_weak. }
  assert (Vm : nearest a / pow2 sh
               == inject_Z (round_half_even (a / pow2 sh))).
  { unfold nearest. fold sh. field. apply pow2_nonzero. }
  destruct (Qlt_le_dec (nearest a) (pow2 (e + 1))) as [Hlt|Hge].
  - assert (Hg : grid_exp (nearest a) = sh).
    { assert (U : (ilog2 (nearest a) <= e)%Z).
      { destruct (@ilog2_spec (nearest a) Vpos) as [A _].
        assert (B : pow2 (ilog2 (nearest a)) < pow2 (e + 1)) by lra.
        apply pow2_le_inv in B. lia. }
      destruct (Z_le_gt_dec sh e) as [Hn|Hn].
      - assert (L : pow2 e <= nearest a) by (apply nearest_ge_pow2; auto).
        assert (X : ilog2 (nearest a) = e) by (apply ilog2_unique; auto).
        unfold grid_exp. rewrite X. now rewrite Hsh.
      - unfold grid_exp. lia. }
    apply (@nearest_grid (nearest a) (round_half_even (a / pow2 sh))).
    now rewrite Hg.
  - assert (Ve : nearest a == pow2 (e + 1)) by lra.
    assert (X : ilog2 (nearest a) = (e + 1)%Z).
    { apply ilog2_unique; [lra|]. rewrite Ve. apply pow2_lt. lia. }
    assert (Hcase : grid_exp (nearest a) = sh \/
                    (grid_exp (nearest a) = (sh + 1)%Z /\ sh = (e - 52)%Z)).
    { unfold grid_exp. rewrite X. lia. }
    destruct Hcase as [Hg|[Hg Hs]].
    + apply (@nearest_grid (nearest a) (round_half_even (a / pow2 sh))).
      now rewrite Hg.
    + apply (@nearest_grid (nearest a) (2 ^ 52)).
      rewrite Hg, Ve, pow2_div, <- pow2_Z by lia. 
      replace (e + 1 - (sh + 1))%Z with 52%Z by lia. reflexivity.
Qed.

(** The results of [round64] are binary64 values. *)
Lemma round64_valid (x : Q) : valid (round64 x) = true.
Proof.
  destruct (Qcompare_spec x 0) as [E|E|E].
  - rewrite (round64_zero E). simpl. now apply representable_zero.
  - destruct (round64_neg_cases E) as [[-> _]|[[-> _]|(r & -> & Er & B & NZ)]]; auto.
    simpl. assert (Hx : 0 < - x) by lra.
    destruct (nearest_idem Hx) as [Z|I]; [contradiction|].
    assert (V0 : 0 <= nearest (- x)) by (now apply nearest_nonneg).
    assert (Vpos : 0 < nearest (- x)).
    { destruct (Qlt_le_dec 0 (nearest (- x))); auto. exfalso. apply NZ. lra. }
    apply representable_of_nearest_neg; [lra| |lra].
    assert (C : - r == nearest (- x)) by lra.
    rewrite (@nearest_compat (- r) (nearest (- x))); [lra | lra | exact C].
  - destruct (round64_pos_cases E) as [[-> _]|(r & -> & Er & B)]; auto.
    simpl. destruct (nearest_idem E) as [Z|I].
    + apply representable_zero. lra.
    + pose proof (nearest_nonneg E) as V0.
      destruct (Qeq_dec (nearest x) 0) as [Z|Z];
        [apply representable_zero; lra|].
      assert (Vpos : 0 < nearest x).
      { destruct (Qlt_le_dec 0 (nearest x)); auto. exfalso. apply Z. lra. }
      apply representable_of_nearest; [lra| |lra].
      rewrite (@nearest_compat r (nearest x)); [lra | lra | exact Er].
Qed.

End Rounding.

(** ** Row numbers of the comparison series *)

Lemma filter_sorted {A} (R : A -> A -> Prop) (f : A -> bool) (l : list A) :
  StronglySorted R l -> StronglySorted R (filter f l).
Proof.
  induction 1 as [|x l Hl IH Hx]; simpl; [constructor|].
  destruct (f x); auto. constructor; auto.
  rewrite Forall_forall in *. intros y Hy. apply filter_In in Hy. apply Hx. tauto.
Qed.

Lemma seq_sorted (start len : nat) : StronglySorted lt (seq start len).
Proof.
  revert start. induction len as [|len IH]; intro start; simpl; constructor; auto.
  rewrite Forall_forall. intros y Hy. apply in_seq in Hy. lia.
Qed.

(** Row numbers are distinct as numbers. *)
Lemma of_nat_positive_inj (i j : nat) :
  0 < i -> 0 < j -> (Z.of_nat i < 2 ^ 53)%Z -> (Z.of_nat j < 2 ^ 53)%Z ->
  of_nat i = of_nat j -> i = j.
Proof.
  intros Hi Hj Bi Bj H. unfold of_nat in H.
  destruct (@of_Z_exact (Z.of_nat i)) as [r1 [E1 Q1]]; [lia|].
  destruct (@of_Z_exact (Z.of_nat j)) as [r2 [E2 Q2]]; [lia|].
  rewrite E1, E2 in H. injection H as H. subst r2.
  rewrite Q1 in Q2. rewrite inject_Z_injective in Q2. lia.
Qed.

Lemma positions_from_indices (l : list nat) :
  Forall (fun i => i < 100) l -> List.length l <= 100 ->
  map (fun i => Some (of_nat (i + 1))) l =
  map (fun i => Some (of_nat i)) (seq 1 (List.length l)) ->
  l = seq 0 (List.length l).
Proof.
  intros B Hl H. rewrite <- seq_shift, map_map in H.
  assert (G : forall (l1 l2 : list nat),
             Forall (fun i => i < 100) l1 -> Forall (fun i => i < 100) l2 ->
             map (fun i => Some (of_nat (i + 1))) l1 =
             map (fun i => Some (of_nat (S i))) l2 -> l1 = l2).
  { induction l1 as [|a l1 IH]; intros [|b l2] B1 B2 E; simpl in E;
      try discriminate; auto.
    inversion B1; inversion B2; subst. injection E as E1 E2.
    f_equal; [|apply IH; auto].
    assert (a + 1 = S b); [|lia].
    assert (101 < 2 ^ 53)%Z by reflexivity.
    apply of_nat_positive_inj; auto; lia. }
  apply G; auto.
  rewrite Forall_forall. intros i Hi. apply in_seq in Hi. lia.
Qed.

(** C1, as the code has it: a point's [index] is the 1-based position of its
    row among the first 100 rows of the dataset, that is the original row
    number; the indices of the series are those of the kept rows, in
    increasing order. *)
Theorem comparison_index_is_row_position (data : list row) (col1 col2 : string) :
  indices (getComparisonData data col1 col2) =
  map (fun i => Some (of_nat (i + 1))) (kept_positions data col1 col2)
  /\ StronglySorted lt (kept_positions data col1 col2)
  /\ Forall (fun i => i < 100 /\ i < List.length data) (kept_positions data col1 col2)
  /\ (sequential (getComparisonData data col1 col2) <->
      kept_positions data col1 col2 =
      seq 0 (List.length (kept_positions data col1 col2))).
Proof.
  assert (E : indices (getComparisonData data col1 col2) =
              map (fun i => Some (of_nat (i + 1))) (kept_positions data col1 col2)).
  { unfold getComparisonData, mapi, kept_positions.
    rewrite comparison_indices_from. f_equal.
    apply filter_ext_in. intros i Hi. apply in_seq in Hi.
    rewrite Nat.sub_0_r. f_equal. apply nth_firstn_lt.
    pose proof (firstn_le_length 100 data). lia. }
  assert (B : Forall (fun i => i < 100 /\ i < List.length data)
                (kept_positions data col1 col2)).
  { unfold kept_positions. rewrite Forall_forall. intros i Hi.
    apply filter_In in Hi. destruct Hi as [Hi _]. apply in_seq in Hi.
    rewrite length_firstn in Hi. lia. }
  assert (S : StronglySorted lt (kept_positions data col1 col2))
    by (unfold kept_positions; apply filter_sorted, seq_sorted).
  assert (L : List.length (getComparisonData data col1 col2) =
              List.length (kept_positions data col1 col2)).
  { apply (f_equal (@List.length _)) in E. unfold indices in E.
    rewrite !length_map in E. exact E. }
  repeat split; auto.
  - unfold sequential. rewrite E, L. intro H.
    apply positions_from_indices; [| |exact H].
    + eapply Forall_impl; [|exact B]. cbv beta. lia.
    + unfold kept_positions.
      pose proof (filter_length_le (fun i => keeps col1 col2 (nth i data [])) (seq 0 (List.length (firstn 100 data)))) as F.
      rewrite length_seq in F. pose proof (firstn_le_length 100 data). lia.
  - unfold sequential. rewrite E, L. intro H. rewrite H at 1.
    rewrite <- seq_shift, map_map. apply map_ext. intro i.
    rewrite Nat.add_1_r. reflexivity.
Qed.

(** C1 fails as stated: when the first row is dropped, the only point of the
    series carries index 2, not 1. *)
Lemma comparison_index_not_sequential :
  ~ sequential (getComparisonData gap_data "a" "b").
Proof. vm_compute. discriminate. Qed.

Example comparison_gap_data :
  getComparisonData gap_data "a" "b"
  = [ [("a", of_Z 2); ("b", of_Z 3); ("index", of_Z 2)] ].
Proof. vm_compute. reflexivity. Qed.

(** ** The frequency projection *)

Lemma occurrences_le (k : string) (l : list string) :
  occurrences k l <= List.length l.
Proof. unfold occurrences. apply filter_length_le. Qed.

Lemma list_sum_perm (l l' : list nat) : Permutation l l' -> list_sum l = list_sum l'.
Proof. induction 1; simpl; lia. Qed.

Lemma sum_indicator (x : string) (ks : list string) :
  NoDup ks ->
  list_sum (map (fun k => if String.eqb k x then 1 else 0) ks)
  = if seen ks x then 1 else 0.
Proof.
  induction 1 as [|k ks Hk Hnd IH]; [reflexivity|].
  change (seen (k :: ks) x) with (String.eqb x k || seen ks x).
  cbn [map list_sum fold_right]. fold (list_sum (map (fun k => if String.eqb k x then 1 else 0) ks)).
  rewrite IH, (String.eqb_sym k x).
  destruct (String.eqb x k) eqn:E; simpl; auto.
  apply String.eqb_eq in E. subst.
  apply seen_false in Hk. now rewrite Hk.
Qed.

Lemma list_sum_map_add {A} (f g : A -> nat) (l : list A) :
  list_sum (map (fun x => f x + g x) l) = list_sum (map f l) + list_sum (map g l).
Proof. induction l as [|x l IH]; simpl; lia. Qed.

(** The counts of the distinct keys add up to the number of values. *)
Lemma tally_table_total (l : list string) :
  list_sum (map snd (tally_table l)) = List.length l.
Proof.
  unfold tally_table. rewrite map_map. simpl.
  induction l as [|x l IH] using rev_ind; [reflexivity|].
  rewrite length_app. simpl. rewrite <- IH.
  assert (E : forall ks, NoDup ks ->
            list_sum (map (fun k => occurrences k (l ++ [x])) ks)
            = list_sum (map (fun k => occurrences k l) ks)
              + (if seen ks x then 1 else 0)).
  { intros ks Hks. rewrite <- (sum_indicator x Hks), <- list_sum_map_add.
    f_equal. apply map_ext. intro k. apply occurrences_snoc. }
  rewrite first_occ_snoc. destruct (seen (first_occ l) x) eqn:S.
  - rewrite E by apply first_occ_NoDup. now rewrite S.
  - rewrite map_app, list_sum_app. cbn [map list_sum fold_right].
    rewrite E by apply first_occ_NoDup. rewrite S.
    apply seen_false in S. rewrite first_occ_In in S.
    rewrite occurrences_snoc, String.eqb_refl, (occurrences_absent x l S). lia.
Qed.

Lemma column_values_length (data : list row) (column : string) :
  List.length (column_values data column) <= List.length data.
Proof.
  unfold column_values. etransitivity; [apply filter_length_le|].
  now rewrite length_map.
Qed.

Lemma sorted_entries_table (values : list cell) (e : string * tallied) :
  no_member_name (map JsString values) = true ->
  In e (sort gt_count (entries (frequencies values))) <->
  In e (as_counts (tally_table (map JsString values))).
Proof.
  intro Hfree. rewrite frequencies_table by exact Hfree. unfold entries. split; intro H.
  - apply (Permutation_in _ (own_entries_perm _)).
    apply (Permutation_in _ (sort_perm gt_count _)). exact H.
  - apply (Permutation_in _ (Permutation_sym (sort_perm gt_count _))).
    apply (Permutation_in _ (Permutation_sym (own_entries_perm _))). exact H.
Qed.

Lemma sorted_entries_perm (values : list cell) :
  no_member_name (map JsString values) = true ->
  Permutation (sort gt_count (entries (frequencies values)))
              (as_counts (tally_table (map JsString values))).
Proof.
  intro Hfree. rewrite frequencies_table by exact Hfree. unfold entries.
  etransitivity; [apply sort_perm | apply own_entries_perm].
Qed.

Lemma as_counts_times (t : list (string * nat)) :
  map (fun e => times (snd e)) (as_counts t) = map snd t.
Proof. unfold as_counts. rewrite map_map. reflexivity. Qed.

Lemma In_firstn {A} (n : nat) (l : list A) (x : A) : In x (firstn n l) -> In x l.
Proof.
  revert n. induction l as [|y l IH]; intros [|n]; simpl; try tauto.
  intros [H|H]; eauto.
Qed.

Lemma tenths_sum_bound (T : nat) (l : list (string * nat)) :
  (Z.of_nat T < 2 ^ 32)%Z ->
  Forall (fun e => 0 < snd e <= T) l ->
  (Z.abs (2 * Z.of_nat T * sum_Z (map (fun e => percentage_tenths (snd e) T) l)
          - 2000 * Z.of_nat (list_sum (map snd l)))
   <= Z.of_nat (List.length l) * Z.of_nat T)%Z.
Proof.
  intros HT. induction 1 as [|e l [He1 He2] Hl IH]; [simpl; lia|].
  destruct (percentage_nearest He1 He2 HT) as [_ Hn].
  cbn [map sum_Z fold_right list_sum List.length].
  fold (sum_Z (map (fun e => percentage_tenths (snd e) T) l)).
  fold (list_sum (map snd l)).
  rewrite Nat2Z.inj_add, Nat2Z.inj_succ.
  set (n := percentage_tenths (snd e) T) in *.
  set (S1 := sum_Z (map (fun e => percentage_tenths (snd e) T) l)) in *.
  set (S2 := Z.of_nat (list_sum (map snd l))) in *.
  replace (2 * Z.of_nat T * (n + S1) - 2000 * (Z.of_nat (snd e) + S2))%Z
    with ((2 * Z.of_nat T * n - 2000 * Z.of_nat (snd e))
          + (2 * Z.of_nat T * S1 - 2000 * S2))%Z by ring.
  lia.
Qed.

(** X24: for a column none of whose stringified values names a member of
    [Object.prototype], every entry's value is the number of occurrences of
    the value it names, and its percentage is computed from that count and
    the number of non-empty values of the whole column, whatever the limit:
    it is the decimal rendering, with one fractional digit, of a nearest
    number of tenths to 100 * count / total; over the untruncated
    distribution the counts add up to the total and the percentages to 100,
    within 0.05 per entry. *)
Theorem percentage_of_whole_column (data : list row) (column : string) (limit : nat) :
  (Z.of_nat (List.length data) < 2 ^ 32)%Z ->
  let strs := map JsString (column_values data column) in
  let total := List.length strs in
  let series := getChartData data column limit in
  no_member_name strs = true ->
  Forall (fun p =>
            exists k,
              In k strs
              /\ Freq.name p = label k
              /\ Freq.value p = Times (occurrences k strs)
              /\ Freq.percentage p = percentage_of (Freq.value p) total
              /\ Freq.percentage p
                 = show_fixed 1 (percentage_tenths (occurrences k strs) total)
              /\ (Z.abs (2 * Z.of_nat total * percentage_tenths (occurrences k strs) total
                         - 2000 * Z.of_nat (occurrences k strs))
                  <= Z.of_nat total)%Z)
         series
  /\ (column <> "" -> List.length (first_occ strs) <= limit ->
      List.length series = List.length (first_occ strs)
      /\ list_sum (map (fun p => times (Freq.value p)) series) = total
      /\ (0 < total ->
          (2 * Z.abs (sum_Z (map (fun p => percentage_tenths (times (Freq.value p)) total)
                                 series) - 1000)
           <= Z.of_nat (List.length series))%Z)).
Proof.
  intros Hlen strs total series Hfree.
  assert (Htotal : total = List.length (column_values data column))
    by (unfold total, strs; apply length_map).
  assert (HT : (Z.of_nat total < 2 ^ 32)%Z).
  { pose proof (column_values_length data column). lia. }
  assert (Hentry : forall e, In e (tally_table strs) ->
                             In (fst e) strs /\ snd e = occurrences (fst e) strs
                             /\ 0 < snd e <= total).
  { intros e He. apply tally_table_In in He. destruct He as [Hk Hc].
    repeat split; auto; rewrite Hc.
    - now apply occurrences_present.
    - apply occurrences_le. }
  unfold series. rewrite getChartData_entries, <- Htotal.
  destruct ((List.length data =? 0) || String.eqb column "") eqn:Hcond.
  - split; [constructor|]. intros Hcol Hlim.
    apply orb_true_iff in Hcond. destruct Hcond as [Hd|Hc].
    + apply Nat.eqb_eq in Hd. destruct data; [|discriminate Hd].
      simpl. repeat split; auto. unfold total, strs. simpl. lia.
    + apply String.eqb_eq in Hc. contradiction.
  - rewrite (sorted_counts (column_values data column) Hfree). fold strs.
    set (sortedFreq := sort gt_times (own_entries (tally_table strs))).
    assert (Hperm : Permutation sortedFreq (tally_table strs)).
    { unfold sortedFreq. etransitivity; [apply sort_perm | apply own_entries_perm]. }
    split.
    + rewrite Forall_map, Forall_forall. intros e He.
      apply In_firstn, as_counts_In in He. destruct He as (n & Hn & He).
      apply (Permutation_in _ Hperm) in He.
      destruct (Hentry _ He) as (Hk & Hc & Hpos & Hle). cbn [fst snd] in *.
      destruct (percentage_nearest Hpos Hle HT) as [Hs Hn'].
      exists (fst e). cbn [freq_point Freq.name Freq.value Freq.percentage].
      rewrite Hn, <- Hc. repeat split; auto.
    + intros _ Hlim.
      assert (Hk : List.length sortedFreq = List.length (first_occ strs)).
      { rewrite (Permutation_length Hperm). unfold tally_table. apply length_map. }
      rewrite firstn_all2 by (unfold as_counts; rewrite length_map; lia).
      assert (Hsum : list_sum (map snd sortedFreq) = total).
      { rewrite (list_sum_perm (Permutation_map snd Hperm)). apply tally_table_total. }
      rewrite !map_map, length_map. cbn [freq_point Freq.value].
      change (map (fun x : string * tallied => times (snd x)) (as_counts sortedFreq))
        with (map (fun e => times (snd e)) (as_counts sortedFreq)).
      rewrite as_counts_times.
      split; [unfold as_counts; rewrite length_map; exact Hk|].
      split; [exact Hsum|].
      intro Hpos.
      assert (Hall : Forall (fun e => 0 < snd e <= total) sortedFreq).
      { rewrite Forall_forall. intros e He.
        apply (Permutation_in _ Hperm) in He. apply Hentry in He. tauto. }
      pose proof (tenths_sum_bound HT Hall) as Hb. rewrite Hsum in Hb.
      assert (Hmap : map (fun x : string * tallied => percentage_tenths (times (snd x)) total)
                         (as_counts sortedFreq)
                     = map (fun e => percentage_tenths (snd e) total) sortedFreq).
      { unfold as_counts. rewrite map_map. reflexivity. }
      rewrite Hmap.
      assert (Hl : List.length (as_counts sortedFreq) = List.length sortedFreq)
        by (unfold as_counts; apply length_map).
      rewrite Hl.
      set (S := sum_Z _) in *.
      set (t := Z.of_nat total) in *.
      assert (Ht : (0 < t)%Z) by lia.
      replace (2 * t * S - 2000 * t)%Z with (2 * (S - 1000) * t)%Z in Hb by ring.
      rewrite Z.abs_mul, (Z.abs_eq t) in Hb by lia.
      apply Z.mul_le_mono_pos_r in Hb; [|exact Ht].
      rewrite Z.abs_mul in Hb. exact Hb.
Qed.

Lemma percentage_of_whole_column_witness :
  (Z.of_nat (List.length dept_salary) < 2 ^ 32)%Z
  /\ no_member_name (map JsString (column_values dept_salary "dept")) = true
  /\ map Freq.percentage (getChartData dept_salary "dept" 1) = ["66.7"]
  /\ list_sum (map (fun p => times (Freq.value p)) (getChartData dept_salary "dept" 10))
     = 3.
Proof.
  assert (H : (Z.of_nat (List.length dept_salary) < 2 ^ 32)%Z) by reflexivity.
  assert (Hfree : no_member_name (map JsString (column_values dept_salary "dept")) = true)
    by reflexivity.
  assert (Hcol : "dept" <> "") by discriminate.
  assert (Hlim : List.length
                   (first_occ (map JsString (column_values dept_salary "dept"))) <= 10)
    by (vm_compute; lia).
  split; [exact H|]. split; [exact Hfree|]. split; [vm_compute; reflexivity|].
  exact (proj1 (proj2 (proj2 (@percentage_of_whole_column dept_salary "dept" 10 H Hfree)
                             Hcol Hlim))).
Defined.

(** C6 fails on the code for a cell that holds the text "constructor": the
    percentage of every entry should be 100 * count / total, but the counter
    of that value starts from the function inherited from
    [Object.prototype] instead of 0, so the entry holds a text instead of
    the count 1 and its percentage is "NaN" instead of "33.3". *)
Theorem constructor_cell_percentage :
  getChartData member_data "c" 10
  = [ {| Freq.name := "constructor";
         Freq.value := Text "function Object() { [native code] }1";
         Freq.percentage := "NaN" |};
      {| Freq.name := "a"; Freq.value := Times 2; Freq.percentage := "66.7" |} ]
  /\ show_fixed 1 (percentage_tenths 1 3) = "33.3"
  /\ ~ percentages_of_counts member_data "c" 10.
Proof.
  split; [vm_compute; reflexivity|]. split; [vm_compute; reflexivity|].
  intro H. unfold percentages_of_counts in H.
  assert (Hin : In {| Freq.name := "constructor";
                      Freq.value := Text "function Object() { [native code] }1";
                      Freq.percentage := "NaN" |}
                   (getChartData member_data "c" 10))
    by (vm_compute; auto).
  cbv zeta in H. rewrite Forall_forall in H. apply H in Hin.
  destruct Hin as (k & Hk & _ & Hp).
  cbn [Freq.percentage] in Hp.
  vm_compute in Hk.
  destruct Hk as [<-|[<-|[<-|[]]]]; vm_compute in Hp; discriminate Hp.
Qed.

(** The text "constructor" is counted on top of the inherited function, and
    the text "__proto__" is counted in the total without getting an entry. *)
Example constructor_cell_series :
  frequencies [CStr "constructor"; CStr "a"; CStr "a"]
  = [("constructor", Text "function Object() { [native code] }1"); ("a", Times 2)]
  /\ Profile.mostCommon (categoricalProfile [CStr "constructor"; CStr "a"; CStr "a"])
     = Some ("constructor", Text "function Object() { [native code] }1")
  /\ frequencies [CStr "__proto__"; CStr "a"] = [("a", Times 1)]
  /\ Profile.unique (categoricalProfile [CStr "__proto__"; CStr "a"]) = 1
  /\ Profile.total (categoricalProfile [CStr "__proto__"; CStr "a"]) = 2
  /\ Profile.mostCommon (categoricalProfile [CStr "__proto__"; CStr "a"])
     = Some ("a", Times 1)
  /\ map Freq.percentage
         (getChartData [ [("c", CStr "__proto__")]; [("c", CStr "a")] ] "c" 10)
     = ["50.0"].
Proof. vm_compute. repeat split; reflexivity. Qed.

(** ** The profile of a dataset *)

Lemma analyzeData_fold (csvData : list row) (cols : list string) :
  let step := fun (acc : obj Profile.numeric_profile * obj Profile.categorical_profile)
                  header =>
                match analyzeColumn (map (fun r => field r header) csvData) with
                | Numeric p => (obj_set (fst acc) header p, snd acc)
                | Categorical p => (fst acc, obj_set (snd acc) header p)
                end in
  Profile.numeric (analyzeData csvData cols) = fst (fold_left step cols ([], []))
  /\ Profile.categorical (analyzeData csvData cols) = snd (fold_left step cols ([], [])).
Proof.
  intro step. unfold analyzeData. fold step.
  destruct (fold_left step cols ([], [])) as [n c]. split; reflexivity.
Qed.

(** Every column of the dataset gets exactly one profile: the one
    [analyzeColumn] computes from its cells. *)
Lemma analyzeData_column (csvData : list row) (cols : list string) (header : string) :
  In header cols ->
  match analyzeColumn (map (fun r => field r header) csvData) with
  | Numeric p =>
      obj_get (Profile.numeric (analyzeData csvData cols)) header = Some p
      /\ obj_get (Profile.categorical (analyzeData csvData cols)) header = None
  | Categorical p =>
      obj_get (Profile.categorical (analyzeData csvData cols)) header = Some p
      /\ obj_get (Profile.numeric (analyzeData csvData cols)) header = None
  end.
Proof.
  destruct (analyzeData_fold csvData cols) as [-> ->].
  set (step := fun (acc : obj Profile.numeric_profile * obj Profile.categorical_profile)
                   header =>
                 match analyzeColumn (map (fun r => field r header) csvData) with
                 | Numeric p => (obj_set (fst acc) header p, snd acc)
                 | Categorical p => (fst acc, obj_set (snd acc) header p)
                 end).
  assert (Hinv : forall h,
             (In h cols ->
              match analyzeColumn (map (fun r => field r h) csvData) with
              | Numeric p =>
                  obj_get (fst (fold_left step cols ([], []))) h = Some p
                  /\ obj_get (snd (fold_left step cols ([], []))) h = None
              | Categorical p =>
                  obj_get (snd (fold_left step cols ([], []))) h = Some p
                  /\ obj_get (fst (fold_left step cols ([], []))) h = None
              end)
             /\ (~ In h cols ->
                 obj_get (fst (fold_left step cols ([], []))) h = None
                 /\ obj_get (snd (fold_left step cols ([], []))) h = None)).
  { induction cols as [|c cols IH] using rev_ind; intro h.
    - simpl. tauto.
    - rewrite fold_left_app. simpl fold_left.
      destruct (IH h) as [IH1 IH2].
      set (acc := fold_left step cols ([], [])) in *.
      rewrite in_app_iff. simpl In.
      destruct (string_dec c h) as [->|Hne].
      + split; [|tauto]. intros _.
        assert (Hstep : step acc h =
                  match analyzeColumn (map (fun r => field r h) csvData) with
                  | Numeric p => (obj_set (fst acc) h p, snd acc)
                  | Categorical p => (fst acc, obj_set (snd acc) h p)
                  end) by reflexivity.
        rewrite Hstep. clear Hstep.
        destruct (in_dec string_dec h cols) as [Hin|Hnin].
        * specialize (IH1 Hin).
          destruct (analyzeColumn (map (fun r => field r h) csvData)) as [p|p];
            simpl; rewrite obj_get_set_same; tauto.
        * specialize (IH2 Hnin).
          destruct (analyzeColumn (map (fun r => field r h) csvData)) as [p|p];
            simpl; rewrite obj_get_set_same; tauto.
      + assert (Hfst : obj_get (fst (step acc c)) h = obj_get (fst acc) h).
        { unfold step.
          destruct (analyzeColumn (map (fun r => field r c) csvData)); simpl; auto.
          now apply obj_get_set_other. }
        assert (Hsnd : obj_get (snd (step acc c)) h = obj_get (snd acc) h).
        { unfold step.
          destruct (analyzeColumn (map (fun r => field r c) csvData)); simpl; auto.
          now apply obj_get_set_other. }
        rewrite Hfst, Hsnd. split.
        * intros [Hin|[Heq|[]]]; [apply IH1; exact Hin | contradiction].
        * intro Hnin. apply IH2. tauto. }
  intro Hin. apply (proj1 (Hinv header) Hin).
Qed.

Lemma analyzeColumn_empty (cells : list cell) :
  filter non_empty cells = [] ->
  analyzeColumn cells = Categorical empty_profile.
Proof.
  intro H. unfold analyzeColumn. rewrite H. reflexivity.
Qed.

(** C10: a column with no non-empty value gets the categorical profile with
    an empty distribution, zero unique values, zero total and no most
    common entry, and the dataset's profile holds no numeric profile for
    it. *)
Theorem analyze_empty_column (csvData : list row) (cols : list string) (header : string) :
  In header cols ->
  column_values csvData header = [] ->
  analyzeColumn (map (fun r => field r header) csvData) = Categorical empty_profile
  /\ obj_get (Profile.categorical (analyzeData csvData cols)) header
     = Some empty_profile
  /\ obj_get (Profile.numeric (analyzeData csvData cols)) header = None.
Proof.
  intros Hin Hempty.
  pose proof (@analyzeData_column csvData cols header Hin) as H.
  rewrite (analyzeColumn_empty _ Hempty) in H.
  split; [now apply analyzeColumn_empty | exact H].
Qed.

Lemma analyze_empty_column_witness :
  In "a" ["a"; "b"]
  /\ column_values blank_rows "a" = []
  /\ obj_get (Profile.categorical (analyzeData blank_rows ["a"; "b"])) "a"
     = Some empty_profile.
Proof.
  assert (Hin : In "a" ["a"; "b"]) by (now left).
  assert (Hempty : column_values blank_rows "a" = []) by reflexivity.
  split; [exact Hin|]. split; [exact Hempty|].
  exact (proj1 (proj2 (@analyze_empty_column blank_rows ["a"; "b"] "a" Hin Hempty))).
Defined.

(** ** Arithmetic on binary64 values *)

Section NumberFacts.
Local Open Scope Q_scope.

Lemma of_Z_two : of_Z 2 = Fin 2.
Proof. vm_compute. reflexivity. Qed.

Lemma add_comm (a b : number) : add a b = add b a.
Proof.
  destruct a as [|[|]| |p], b as [|[|]| |q]; simpl; auto.
  apply round64_compat. ring.
Qed.


Lemma valid_val (a : number) :
  valid a = true -> is_finite a = true -> representable (val a) = true.
Proof.
  destruct a as [|s| |p]; simpl; try discriminate; auto.
Qed.

Lemma representable_round (q : Q) :
  representable q = true -> exists r, round64 q = Fin r /\ r == q.
Proof.
  unfold representable. destruct (round64 q) as [|s| |r]; try discriminate.
  intro H. exists r. split; auto. now apply Qeq_bool_eq.
Qed.





Lemma of_magnitude_valid (negative : bool) (m : magnitude) :
  valid (of_magnitude negative m) = true.
Proof.
  destruct m as [|q]; simpl; auto.
  destruct (Qeq_bool q 0); [destruct negative; reflexivity | apply round64_valid].
Qed.

Lemma scan_decimal_valid (l : list Ascii.ascii) (x : number) (r : list Ascii.ascii) :
  scan_decimal l = Some (x, r) -> valid x = true.
Proof.
  unfold scan_decimal.
  destruct (match l with
            | [] => (false, l)
            | c :: r0 => _
            end) as [negative body].
  destruct (scan_unsigned body) as [[m r']|]; [|discriminate].
  intro H. injection H as <- _. apply of_magnitude_valid.
Qed.

(** [parseFloat] returns a binary64 value. *)
Lemma parseFloat_valid (s : string) : valid (parseFloat s) = true.
Proof.
  unfold parseFloat.
  destruct (scan_decimal (trim_start (list_ascii_of_string s))) as [[x r]|] eqn:E; auto.
  exact (scan_decimal_valid _ E).
Qed.

Lemma coerce_valid (v : cell) : valid_cell v = true -> valid (coerce v) = true.
Proof.
  destruct v as [| |x|s|name]; simpl; auto using parseFloat_valid.
Qed.

Lemma numbers_valid (cells : list cell) :
  forallb valid_cell cells = true ->
  Forall (fun x => valid x = true) (numbers_of cells).
Proof.
  intro H. unfold numbers_of. rewrite Forall_map, Forall_forall.
  intros v Hv. apply coerce_valid.
  apply filter_In in Hv. destruct Hv as [Hv _].
  apply filter_In in Hv. destruct Hv as [Hv _].
  rewrite forallb_forall in H. auto.
Qed.


Lemma fixed_digits_nonneg (f : nat) (q : Q) : 0 <= q -> (0 <= fixed_digits f q)%Z.
Proof.
  intro H. change 0%Z with (Qfloor 0). unfold fixed_digits. apply Qfloor_resp_le.
  assert (P : 0 <= pow10 (Z.of_nat f)).
  { unfold pow10. apply Qpower_0_le. discriminate. }
  assert (M : 0 <= q * pow10 (Z.of_nat f)) by (now apply Qmult_le_0_compat).
  lra.
Qed.

Lemma hundredths_Fin (q : Q) :
  (0 <= q -> hundredths (Fin q) = fixed_digits 2 q)
  /\ (q < 0 -> hundredths (Fin q) = (- fixed_digits 2 (- q))%Z).
Proof.
  unfold hundredths. split; intro H.
  - assert (E : fixed_digits 2 (Qabs q) = fixed_digits 2 q).
    { unfold fixed_digits. now rewrite (Qabs_pos q H). }
    destruct (Qcompare_spec q 0) as [C|C|C]; auto. lra.
  - assert (E : fixed_digits 2 (Qabs q) = fixed_digits 2 (- q)).
    { unfold fixed_digits. rewrite (Qabs_neg q); [reflexivity | lra]. }
    destruct (Qcompare_spec q 0) as [C|C|C]; try lra. now rewrite E.
Qed.



(** What [toFixed(2)] prints for a finite number below 1e21 in magnitude:
    the sign and the two-digit rendering of its hundredths. *)
Lemma toFixed_hundredths (x : number) :
  is_finite x = true -> Qabs (val x) < pow10 21 ->
  toFixed 2 x =
  ((if (hundredths x <? 0)%Z || (ltb x zero && (hundredths x =? 0)%Z)
    then "-" else "") ++ show_fixed 2 (Z.abs (hundredths x)))%string.
Proof.
  destruct x as [|s| |q]; try discriminate; intros _ Hb.
  - reflexivity.
  - cbn [val] in Hb. unfold toFixed, ltb, compare, zero, hundredths.
    assert (E : Qle_bool (pow10 21) (Qabs q) = false).
    { destruct (Qle_bool (pow10 21) (Qabs q)) eqn:E; auto.
      apply Qle_bool_iff in E. lra. }
    rewrite E.
    pose proof (@fixed_digits_nonneg 2 (Qabs q) (Qabs_nonneg q)) as N.
    destruct (Qcompare q 0) eqn:C.
    + rewrite Z.abs_eq by exact N.
      replace (fixed_digits 2 (Qabs q) <? 0)%Z with false by (symmetry; apply Z.ltb_ge; lia).
      reflexivity.
    + replace (Z.abs (- fixed_digits 2 (Qabs q))) with (fixed_digits 2 (Qabs q)) by lia.
      destruct (Z.eq_dec (fixed_digits 2 (Qabs q)) 0) as [Z|Z].
      * rewrite Z. reflexivity.
      * replace (- fixed_digits 2 (Qabs q) <? 0)%Z with true
          by (symmetry; apply Z.ltb_lt; lia).
        reflexivity.
    + rewrite Z.abs_eq by exact N.
      replace (fixed_digits 2 (Qabs q) <? 0)%Z with false by (symmetry; apply Z.ltb_ge; lia).
      reflexivity.
Qed.

(** Binary64 values are integer multiples of 2^-1074. *)
Lemma nearest_multiple (q : Q) :
  exists k, nearest q == inject_Z k * pow2 (-1074).
Proof.
  unfold nearest. set (m := round_half_even (q / pow2 (grid_exp q))).
  assert (Hsh : (-1074 <= grid_exp q)%Z) by (unfold grid_exp; lia).
  exists (m * 2 ^ (grid_exp q + 1074))%Z.
  rewrite inject_Z_mult, <- pow2_Z by lia.
  rewrite <- Qmult_assoc, <- pow2_add.
  now replace (grid_exp q + 1074 + -1074)%Z with (grid_exp q) by ring.
Qed.

Lemma representable_multiple (q : Q) :
  representable q = true -> exists k, q == inject_Z k * pow2 (-1074).
Proof.
  intro H. destruct (Qcompare_spec q 0) as [E|E|E].
  - exists 0%Z. rewrite E. ring.
  - destruct (representable_neg E H) as [R _].
    destruct (nearest_multiple (- q)) as [k Hk].
    exists (- k)%Z. rewrite inject_Z_opp. lra.
  - destruct (representable_pos E H) as [R _].
    destruct (nearest_multiple q) as [k Hk]. exists k. lra.
Qed.

Lemma nearest_positive (x : Q) : pow2 (-1074) <= x -> 0 < nearest x.
Proof.
  intro H. pose proof (pow2_pos (-1074)) as P. assert (Hx : 0 < x) by lra.
  destruct (@ilog2_spec x Hx) as [E1 E2].
  assert (He : (-1074 <= ilog2 x)%Z).
  { assert (A : pow2 (-1074) < pow2 (ilog2 x + 1)) by lra.
    apply pow2_le_inv in A. lia. }
  assert (N : pow2 (ilog2 x) <= nearest x).
  { apply nearest_ge_pow2; auto. unfold grid_exp. lia. }
  pose proof (pow2_pos (ilog2 x)). lra.
Qed.

Lemma multiple_positive (x : Q) (k : Z) :
  x == inject_Z k * pow2 (-1074) -> 0 < x -> pow2 (-1074) <= x.
Proof.
  intros E Hx. pose proof (pow2_pos (-1074)) as P.
  assert (Hk : (0 < k)%Z).
  { destruct (Z_lt_le_dec 0 k) as [L|L]; auto. exfalso.
    assert (inject_Z k <= 0) by (change 0 with (inject_Z 0); rewrite <- Zle_Qle; exact L).
    assert (inject_Z k * pow2 (-1074) <= 0 * pow2 (-1074))
      by (apply Qmult_le_compat_r; lra).
    lra. }
  assert (1 <= inject_Z k) by (change 1 with (inject_Z 1); rewrite <- Zle_Qle; lia).
  assert (1 * pow2 (-1074) <= inject_Z k * pow2 (-1074))
    by (apply Qmult_le_compat_r; lra).
  lra.
Qed.

(** On a difference of binary64 values rounding keeps the sign. *)
Lemma round64_sign (x : Q) (k : Z) :
  x == inject_Z k * pow2 (-1074) ->
  ltb zero (round64 x) = negb (Qle_bool x 0).
Proof.
  intro E. unfold ltb, zero.
  destruct (Qcompare_spec x 0) as [C|C|C].
  - rewrite (round64_zero C). simpl.
    assert (L : Qle_bool x 0 = true) by (apply Qle_bool_iff; lra).
    now rewrite L.
  - assert (L : Qle_bool x 0 = true) by (apply Qle_bool_iff; lra).
    rewrite L.
    destruct (round64_neg_cases C) as [[-> _]|[[-> _]|(r & -> & Er & _ & _)]]; auto.
    simpl. assert (N : 0 <= nearest (- x)) by (apply nearest_nonneg; lra).
    destruct (Qcompare_spec 0 r) as [D|D|D]; auto. lra.
  - assert (L : Qle_bool x 0 = false).
    { destruct (Qle_bool x 0) eqn:B; auto. apply Qle_bool_iff in B. lra. }
    rewrite L.
    destruct (round64_pos_cases C) as [[-> _]|(r & -> & Er & _)]; auto.
    simpl. pose proof (nearest_positive (multiple_positive E C)) as N.
    destruct (Qcompare_spec 0 r) as [D|D|D]; auto; lra.
Qed.

Lemma Qle_bool_compat (a b c d : Q) : a == c -> b == d -> Qle_bool a b = Qle_bool c d.
Proof.
  intros E1 E2. destruct (Qle_bool c d) eqn:E.
  - apply Qle_bool_iff in E. apply Qle_bool_iff. lra.
  - destruct (Qle_bool a b) eqn:F; auto.
    apply Qle_bool_iff in F. assert (G : c <= d) by lra.
    apply Qle_bool_iff in G. congruence.
Qed.

Lemma ltb_zero_Fin (r : Q) : ltb zero (Fin r) = negb (Qle_bool r 0).
Proof.
  unfold ltb, zero. simpl.
  destruct (Qcompare_spec 0 r) as [C|C|C]; destruct (Qle_bool r 0) eqn:L; auto;
    try (apply Qle_bool_iff in L; lra).
  - assert (G : r <= 0) by lra. apply Qle_bool_iff in G. congruence.
  - assert (G : r <= 0) by lra. apply Qle_bool_iff in G. congruence.
Qed.

Lemma leb_bool_finite (a b : number) :
  is_finite a = true -> is_finite b = true -> leb a b = Qle_bool (val a) (val b).
Proof.
  intros Fa Fb. pose proof (@leb_finite a b Fa Fb) as H.
  destruct (leb a b), (Qle_bool (val a) (val b)) eqn:E; auto.
  - assert (G : val a <= val b) by (now apply H). apply Qle_bool_iff in G. congruence.
  - apply Qle_bool_iff in E. apply H in E. discriminate.
Qed.

Lemma gt_number_finite (a b : number) :
  valid a = true -> valid b = true -> is_finite a = true -> is_finite b = true ->
  gt_number a b = negb (Qle_bool (val a) (val b)).
Proof.
  intros Va Vb Fa Fb.
  assert (Hd : forall x, x == val a - val b ->
               negb (Qle_bool x 0) = negb (Qle_bool (val a) (val b))).
  { intros x Hx. f_equal. destruct (Qle_bool (val a) (val b)) eqn:E.
    - apply Qle_bool_iff in E. apply Qle_bool_iff. lra.
    - destruct (Qle_bool x 0) eqn:F; auto. apply Qle_bool_iff in F.
      assert (G : val a <= val b) by lra. apply Qle_bool_iff in G. congruence. }
  destruct (@representable_multiple (val a)) as [ka Ka]; [now apply valid_val|].
  destruct (@representable_multiple (val b)) as [kb Kb]; [now apply valid_val|].
  assert (Hm : forall x, x == val a - val b ->
               x == inject_Z (ka - kb) * pow2 (-1074)).
  { intros x Hx. unfold Zminus. rewrite inject_Z_plus, inject_Z_opp. lra. }
  unfold gt_number, sub.
  destruct a as [|sa| |p]; try discriminate; destruct b as [|sb| |q]; try discriminate;
    cbn [val neg] in *.
  - reflexivity.
  - destruct (Qeq_bool q 0) eqn:Z.
    + apply Qeq_bool_eq in Z. cbn [add].
      rewrite <- (Hd 0) by lra. reflexivity.
    + cbn [add]. rewrite ltb_zero_Fin. apply Hd. rewrite Qred_correct. ring.
  - change (add (Fin p) zero) with (round64 (p + 0)).
    rewrite (@round64_sign (p + 0) (ka - kb)) by (apply Hm; ring).
    apply Hd. ring.
  - destruct (Qeq_bool q 0) eqn:Z.
    + apply Qeq_bool_eq in Z. cbn [add]. rewrite ltb_zero_Fin. apply Hd. lra.
    + cbn [add].
      rewrite (@round64_sign (p + Qred (- q)) (ka - kb))
        by (apply Hm; rewrite Qred_correct; ring).
      apply Hd. rewrite Qred_correct. ring.
Qed.

(** On binary64 values the comparison function [(a, b) => a - b] is positive
    exactly when [a] is greater than [b]. *)
Lemma gt_number_spec (a b : number) :
  valid a = true -> valid b = true -> is_nan a = false -> is_nan b = false ->
  gt_number a b = negb (leb a b).
Proof.
  intros Va Vb Na Nb.
  destruct (is_finite a) eqn:Fa, (is_finite b) eqn:Fb.
  - rewrite gt_number_finite, leb_bool_finite; auto.
  - destruct b as [|[|]| |q]; try discriminate;
      destruct a as [|sa| |p]; try discriminate; reflexivity.
  - destruct a as [|[|]| |p]; try discriminate;
      destruct b as [|sb| |q]; try discriminate; unfold gt_number, sub; cbn [neg];
      try reflexivity; destruct (Qeq_bool q 0); reflexivity.
  - destruct a as [|[|]| |p]; try discriminate;
      destruct b as [|[|]| |q]; try discriminate; reflexivity.
Qed.

End NumberFacts.

(** ** Bounds of the reported statistics *)


(** On binary64 values [sort((a, b) => a - b)] sorts in ascending order. *)
Lemma sort_numbers_ascending (numbers : list number) :
  no_nan numbers -> Forall (fun x => valid x = true) numbers ->
  StronglySorted (fun a b => leb a b = true) (sort gt_number numbers).
Proof.
  intros Hnn Hv.
  set (P := fun x => valid x = true /\ is_nan x = false).
  assert (HP : Forall P numbers).
  { unfold no_nan in Hnn. rewrite Forall_forall in *. intros x Hx. split; auto. }
  assert (Hgt : forall a b, P a -> P b -> gt_number a b = negb (leb a b)).
  { intros a b [Va Na] [Vb Nb]. now apply gt_number_spec. }
  assert (S : StronglySorted (fun a b => gt_number a b = false)
                             (sort gt_number numbers)).
  { apply (@sort_sorted _ gt_number P); auto.
    - intros a b Pa Pb. rewrite !Hgt by assumption.
      rewrite negb_true_iff, negb_false_iff. intro H.
      destruct (leb_total a b (proj2 Pa) (proj2 Pb)); congruence.
    - intros a b c Pa Pb Pc. rewrite !Hgt by assumption.
      rewrite !negb_false_iff. apply leb_trans. }
  assert (HPs : Forall P (sort gt_number numbers))
    by (apply (Permutation_Forall (Permutation_sym (sort_perm gt_number numbers))); exact HP).
  induction S as [|x s Hs IH Hx]; constructor.
  - apply IH. now inversion HPs.
  - inversion HPs as [|? ? Px Ps]; subst.
    rewrite Forall_forall in *. intros y Hy.
    specialize (Hx y Hy). rewrite (Hgt x y Px (Ps y Hy)) in Hx.
    now apply negb_false_iff in Hx.
Qed.







(** With two values 1e308 the sum of the central values overflows and the
    reported median is Infinity. *)
Example median_overflow :
  analyzeColumn cells_1e308 =
  Numeric {| Profile.mean := "Infinity"; Profile.median := "Infinity";
             Profile.min := "1e+308"; Profile.max := "1e+308";
             Profile.sum := "Infinity"; Profile.count := 2 |}
  /\ forallb valid_cell cells_1e308 = true.
Proof. vm_compute. split; reflexivity. Qed.

(** With the two infinities the sum of the central values is NaN, and so is
    the reported median. *)
Example median_of_infinities :
  analyzeColumn cells_infinities =
  Numeric {| Profile.mean := "NaN"; Profile.median := "NaN";
             Profile.min := "-Infinity"; Profile.max := "Infinity";
             Profile.sum := "NaN"; Profile.count := 2 |}
  /\ forallb valid_cell cells_infinities = true.
Proof. vm_compute. split; reflexivity. Qed.

(** * Further properties *)

(** ** The rows kept at upload *)

Lemma has_content_spec (v : cell) :
  not_null v && not_blank v = true <-> has_content v.
Proof.
  unfold has_content. destruct v as [| |x|[|a s]|name]; simpl; split;
    try discriminate; try (intros [H1 H2]; congruence);
    intros _; split; discriminate.
Qed.

Lemma values_In {V} (o : obj V) (v : V) :
  In v (values o) <-> exists k, In (k, v) o.
Proof.
  unfold values. rewrite in_map_iff. split.
  - intros ([k v'] & E & H). simpl in E. subst. exists k.
    apply (Permutation_in _ (own_entries_perm o)). exact H.
  - intros [k H]. exists (k, v). split; auto.
    apply (Permutation_in _ (Permutation_sym (own_entries_perm o))). exact H.
Qed.

Lemma filter_idem {A} (f : A -> bool) (l : list A) :
  filter f (filter f l) = filter f l.
Proof.
  induction l as [|x l IH]; simpl; auto.
  destruct (f x) eqn:E; simpl; rewrite ?E, IH; auto.
Qed.

(** X1: the upload keeps, in order, exactly the rows with a cell that is
    neither [null] nor the empty string; cleaning rows already cleaned
    changes nothing. *)
Theorem upload_keeps_rows_with_content (result_data : list row) :
  (forall r, In r (Upload.cleanData result_data) <->
             In r result_data /\ exists k v, In (k, v) r /\ has_content v)
  /\ Upload.cleanData (Upload.cleanData result_data) = Upload.cleanData result_data
  /\ List.length (Upload.cleanData result_data) <= List.length result_data
  /\ (forall l1 l2, Upload.cleanData (l1 ++ l2)
                    = (Upload.cleanData l1 ++ Upload.cleanData l2)%list).
Proof.
  unfold Upload.cleanData. repeat split.
  - apply filter_In in H. tauto.
  - apply filter_In in H. destruct H as [_ H].
    apply existsb_exists in H. destruct H as (v & Hv & Hc).
    apply values_In in Hv. destruct Hv as [k Hk].
    exists k, v. split; auto. now apply has_content_spec.
  - intros (Hin & k & v & Hk & Hc). apply filter_In. split; auto.
    apply existsb_exists. exists v. split.
    + apply values_In. now exists k.
    + now apply has_content_spec.
  - apply filter_idem.
  - apply filter_length_le.
  - intros l1 l2. apply filter_app.
Qed.

(** ** The two objects of the analysis *)



Lemma first_occ_length (l : list string) : List.length (first_occ l) <= List.length l.
Proof.
  induction l as [|x l IH] using rev_ind; [reflexivity|].
  rewrite first_occ_snoc, length_app. simpl.
  destruct (seen (first_occ l) x); rewrite ?length_app; simpl; lia.
Qed.

(** The numeric and the categorical object hold, in first-encountered order,
    the distinct headers of their class, each with the profile of its
    column. *)
Lemma analyzeData_tables (csvData : list row) (cols : list string) :
  exists (fn : string -> Profile.numeric_profile)
         (fc : string -> Profile.categorical_profile),
    (forall h, match analyzeColumn (column_cells csvData h) with
               | Numeric p => fn h = p
               | Categorical p => fc h = p
               end)
    /\ Profile.numeric (analyzeData csvData cols)
       = map (fun h => (h, fn h)) (first_occ (filter (is_numeric_column csvData) cols))
    /\ Profile.categorical (analyzeData csvData cols)
       = map (fun h => (h, fc h))
             (first_occ (filter (fun h => negb (is_numeric_column csvData h)) cols)).
Proof.
  set (fn := fun h => match analyzeColumn (column_cells csvData h) with
                      | Numeric p => p
                      | Categorical _ => numericProfile []
                      end).
  set (fc := fun h => match analyzeColumn (column_cells csvData h) with
                      | Numeric _ => empty_profile
                      | Categorical p => p
                      end).
  exists fn, fc. split.
  { intro h. unfold fn, fc. now destruct (analyzeColumn (column_cells csvData h)). }
  destruct (analyzeData_fold csvData cols) as [-> ->].
  induction cols as [|h cols IH] using rev_ind; [split; reflexivity|].
  rewrite fold_left_app. cbn [fold_left].
  match goal with
  | |- context [fold_left ?f cols ?a] => set (F := fold_left f cols a) in *
  end.
  clearbody F. destruct F as [N C]. cbn [fst snd] in IH.
  destruct IH as [IHn IHc]. subst N C.
  rewrite !filter_app. cbn [filter].
  change (map (fun r : row => field r h) csvData) with (column_cells csvData h).
  destruct (analyzeColumn (column_cells csvData h)) as [p|p] eqn:E; cbn [fst snd].
  - assert (Hn : is_numeric_column csvData h = true)
      by (unfold is_numeric_column; now rewrite E).
    rewrite Hn. cbn [negb]. rewrite app_nil_r. split; [|reflexivity].
    assert (Hp : p = fn h) by (unfold fn; now rewrite E). rewrite Hp.
    rewrite first_occ_snoc.
    destruct (seen (first_occ (filter (is_numeric_column csvData) cols)) h) eqn:S.
    + apply (obj_set_table_old fn fn); auto using first_occ_NoDup.
      now apply seen_In.
    + rewrite obj_set_table_new by now apply seen_false.
      now rewrite map_app.
  - assert (Hn : is_numeric_column csvData h = false)
      by (unfold is_numeric_column; now rewrite E).
    rewrite Hn. cbn [negb]. rewrite app_nil_r. split; [reflexivity|].
    assert (Hp : p = fc h) by (unfold fc; now rewrite E). rewrite Hp.
    rewrite first_occ_snoc.
    destruct (seen (first_occ (filter (fun h0 => negb (is_numeric_column csvData h0)) cols)) h)
      eqn:S.
    + apply (obj_set_table_old fc fc); auto using first_occ_NoDup.
      now apply seen_In.
    + rewrite obj_set_table_new by now apply seen_false.
      now rewrite map_app.
Qed.

Lemma seen_first_occ_filter (f : string -> bool) (l : list string) (k : string) :
  seen (first_occ (filter f l)) k = seen l k && f k.
Proof.
  destruct (seen l k && f k) eqn:E.
  - apply andb_true_iff in E. destruct E as [S F].
    apply seen_In, first_occ_In, filter_In. split; [now apply seen_In | exact F].
  - apply seen_false. intro H. apply first_occ_In, filter_In in H.
    destruct H as [H F]. apply seen_In in H. rewrite H, F in E. discriminate.
Qed.

Lemma columnStats_analyzeData (csvData : list row) (cols : list string) (header : string) :
  columnStats (Some (analyzeData csvData cols)) header
  = Returns (if seen cols header
             then looked_up header (analyzeColumn (column_cells csvData header))
             else looked_up_unknown header).
Proof.
  unfold columnStats, looked_up, looked_up_unknown.
  destruct (analyzeData_tables csvData cols) as (fn & fc & Hf & -> & ->).
  rewrite !obj_get_table, !seen_first_occ_filter.
  specialize (Hf header). unfold is_numeric_column.
  destruct (seen cols header); cbn [andb].
  - destruct (analyzeColumn (column_cells csvData header)); cbn [negb]; subst;
      [reflexivity|]. now destruct (inherits header).
  - now destruct (inherits header).
Qed.

Lemma analyzeData_lookup (csvData : list row) (cols : list string) (header : string) :
  (forall p, obj_get (Profile.numeric (analyzeData csvData cols)) header = Some p <->
             In header cols
             /\ analyzeColumn (column_cells csvData header) = Numeric p)
  /\ (forall p, obj_get (Profile.categorical (analyzeData csvData cols)) header = Some p <->
             In header cols
             /\ analyzeColumn (column_cells csvData header) = Categorical p).
Proof.
  destruct (analyzeData_tables csvData cols) as (fn & fc & Hf & -> & ->).
  rewrite !obj_get_table, !seen_first_occ_filter.
  specialize (Hf header). unfold is_numeric_column.
  destruct (seen cols header) eqn:S; cbn [andb].
  - apply seen_In in S.
    destruct (analyzeColumn (column_cells csvData header)) as [q|q]; cbn [negb];
      subst q; repeat split; try tauto; try congruence;
      try (intros [_ H]; congruence); try (intro H; discriminate H);
      try (intros [_ H]; discriminate H).
  - apply seen_false in S. repeat split; try tauto; try discriminate.
Qed.

(** X2: when no column is named [__proto__], the analysis holds a numeric
    profile under a header exactly when the header is one of the columns
    analysed and its column is classified NUMERIC, and a categorical profile
    exactly when it is classified CATEGORICAL; the profile is the one
    computed from that column's cells alone.  No header has both, a header
    that is not analysed has neither.  The statistics looked up for a chart
    insight are: the profile of a NUMERIC column; the profile of a
    CATEGORICAL column unless its name is that of a member of
    [Object.prototype], which is then found instead; and for a name that
    was not analysed that member, or [undefined]. *)
Theorem profile_iff_analysed_column
        (csvData : list row) (cols : list string) (header : string) :
  ~ In "__proto__" cols ->
  let a := analyzeData csvData cols in
  let profile := analyzeColumn (column_cells csvData header) in
  (forall p, obj_get (Profile.numeric a) header = Some p <->
             In header cols /\ profile = Numeric p)
  /\ (forall p, obj_get (Profile.categorical a) header = Some p <->
             In header cols /\ profile = Categorical p)
  /\ (obj_get (Profile.numeric a) header = None
      \/ obj_get (Profile.categorical a) header = None)
  /\ columnStats (Some a) header
     = Returns (if seen cols header
                then match profile with
                     | Numeric _ => Stats profile
                     | Categorical _ =>
                         if inherits header then Member header else Stats profile
                     end
                else if inherits header then Member header else Missing).
Proof.
  intros _ a profile. split; [|split; [|split]].
  - apply analyzeData_lookup.
  - apply analyzeData_lookup.
  - unfold a.
    destruct (analyzeData_tables csvData cols) as (fn & fc & Hf & -> & ->).
    rewrite !obj_get_table, !seen_first_occ_filter.
    destruct (seen cols header); cbn [andb]; auto.
    destruct (is_numeric_column csvData header); cbn [negb]; auto.
  - unfold a. apply columnStats_analyzeData.
Qed.

Lemma profile_iff_analysed_column_witness :
  ~ In "__proto__" ["constructor"]
  /\ columnStats (Some (analyzeData member_rows ["constructor"])) "constructor"
     = Returns (Member "constructor").
Proof.
  assert (H : ~ In "__proto__" ["constructor"])
    by (intros [H|[]]; discriminate H).
  split; [exact H|].
  exact (proj2 (proj2 (proj2
           (@profile_iff_analysed_column member_rows ["constructor"] "constructor" H)))).
Defined.

Example constructor_column_stats :
  analyzeColumn (column_cells member_rows "constructor")
  = Categorical (categoricalProfile [CStr "x"; CStr "y"])
  /\ columnStats (Some (analyzeData member_rows ["constructor"])) "constructor"
     = Returns (Member "constructor")
  /\ columnStats (Some (analyzeData member_rows ["constructor"])) "toString"
     = Returns (Member "toString")
  /\ columnStats (Some (analyzeData member_rows ["constructor"])) "other"
     = Returns Missing.
Proof. repeat split; reflexivity. Qed.

Lemma keys_perm {V} (o : obj V) : Permutation (keys o) (map fst o).
Proof. unfold keys. apply Permutation_map, own_entries_perm. Qed.


Lemma analyzeData_totals (csvData : list row) (cols : list string) :
  Profile.totalRows (analyzeData csvData cols) = List.length csvData
  /\ Profile.totalColumns (analyzeData csvData cols) = List.length cols.
Proof.
  unfold analyzeData.
  match goal with
  | |- context [fold_left ?f cols ?a] => destruct (fold_left f cols a)
  end.
  split; reflexivity.
Qed.


(** ** From the parsed rows to the analysis *)

Lemma keys_In {V} (o : obj V) (k : string) :
  In k (keys o) <-> exists v, In (k, v) o.
Proof.
  rewrite (Permutation_in' (eq_refl k) (keys_perm o)), in_map_iff. split.
  - intros ([k' v] & E & H). simpl in E. subst. now exists v.
  - intros [v H]. now exists (k, v).
Qed.

(** X4: the upload analyses the rows it keeps, under the property names of
    the first row kept: the headers analysed are exactly the properties of
    that row, and a column that appears in later rows only is never
    analysed.  When none of them is [__proto__], the statistics looked up
    under an analysed header are computed from the cells of its column in
    the rows kept, and are its profile unless the column is CATEGORICAL and
    named like a member of [Object.prototype], which the lookup then finds
    instead, as it does for such a name that was not analysed.  When no row
    is kept the analysis is the one of the empty dataset and no chart is
    proposed. *)
Theorem upload_analyses_first_row_columns (result_data : list row) :
  let data := Upload.cleanData result_data in
  let a := Upload.analysisResult result_data in
  Profile.totalRows a = List.length data
  /\ Profile.totalColumns a = List.length (Upload.cols data)
  /\ (forall header,
        In header (Upload.cols data) <->
        exists r rest v, data = r :: rest /\ In (header, v) r)
  /\ (~ In "__proto__" (Upload.cols data) ->
      forall header,
        columnStats (Some a) header =
        Returns (if seen (Upload.cols data) header
                 then looked_up header (analyzeColumn (column_cells data header))
                 else looked_up_unknown header))
  /\ (data = [] ->
      a = analyzeData [] [] /\ getBestChartsForData (Some a) = []).
Proof.
  intros data a. unfold a, Upload.analysisResult. fold data.
  destruct (analyzeData_totals data (Upload.cols data)) as [-> ->].
  split; [reflexivity|]. split; [reflexivity|]. split; [|split].
  - intro header. unfold Upload.cols. destruct data as [|r rest].
    + split; [intros [] | intros (r & rest & v & E & _); discriminate E].
    + rewrite keys_In. split.
      * intros [v H]. now exists r, rest, v.
      * intros (r' & rest' & v & E & H). injection E as <- <-. now exists v.
  - intros _ header.
    apply columnStats_analyzeData.
  - intro E. rewrite E. split; reflexivity.
Qed.

(** ** The profile of a categorical column *)

Lemma analyzeColumn_categorical (cells : list cell) (p : Profile.categorical_profile) :
  analyzeColumn cells = Categorical p ->
  p = categoricalProfile (filter non_empty cells)
  /\ 2 * List.length (filter is_numeric_value (filter non_empty cells))
     <= List.length (filter non_empty cells).
Proof.
  unfold analyzeColumn.
  destruct (mostly_numeric _ _) eqn:E; [discriminate|].
  intro H. injection H as <-. split; [reflexivity|].
  destruct (Nat.le_gt_cases
              (2 * List.length (filter is_numeric_value (filter non_empty cells)))
              (List.length (filter non_empty cells))) as [L|L]; [exact L|].
  assert (T : mostly_numeric (filter non_empty cells)
                (filter is_numeric_value (filter non_empty cells)) = true).
  { apply mostly_numeric_true. split; lia. }
  congruence.
Qed.

Lemma seen_first_occ (l : list string) (k : string) :
  seen (first_occ l) k = seen l k.
Proof.
  destruct (seen l k) eqn:E.
  - now apply seen_In, first_occ_In, seen_In.
  - apply seen_false. rewrite first_occ_In. now apply seen_false.
Qed.

Lemma list_sum_bound (l : list nat) (b : nat) :
  Forall (fun x => x <= b) l -> list_sum l <= List.length l * b.
Proof. induction 1; simpl; lia. Qed.

Lemma sorted_head_greatest (l : list (string * nat)) (m : string * tallied) :
  hd_error (sort gt_count (as_counts l)) = Some m ->
  exists n, snd m = Times n /\ In (fst m, n) l /\ forall e, In e l -> snd e <= n.
Proof.
  rewrite sort_as_counts. intro H. pose proof (sort_times_sorted l) as S.
  pose proof (sort_perm gt_times l) as P.
  destruct (sort gt_times l) as [|[k n] rest]; [discriminate|].
  injection H as <-. exists n. cbn [fst snd]. split; [reflexivity|]. split.
  - apply (Permutation_in _ P). now left.
  - intros e He. apply (Permutation_in _ (Permutation_sym P)) in He.
    inversion S as [|? ? _ Hall]; subst. rewrite Forall_forall in Hall.
    destruct He as [<-|He]; [cbn; lia | now apply Hall].
Qed.

Lemma occurrences_filter (f : string -> bool) (k : string) (l : list string) :
  f k = true -> occurrences k (filter f l) = occurrences k l.
Proof.
  intro H. unfold occurrences. induction l as [|x l IH]; [reflexivity|].
  cbn [filter]. destruct (f x) eqn:Fx; cbn [filter].
  - destruct (String.eqb k x); cbn [List.length]; now rewrite IH.
  - destruct (String.eqb k x) eqn:E; [|exact IH].
    apply String.eqb_eq in E. subst x. congruence.
Qed.

(** X5: in the profile of a CATEGORICAL column, [total] is the number of
    non-empty values; the frequency object cannot hold the key [__proto__],
    so [unique] is the number of distinct stringified values other than
    [__proto__], at most [total]; [distribution] has an entry under each of
    them: the number of occurrences, or for the name of a function of
    [Object.prototype] the text of that function followed by one "1" per
    occurrence; and at most half of the values are numeric.  When no
    stringified value names a member of [Object.prototype]: [unique] is zero
    only with [total], the counts add up to [total], and the most common
    entry exists unless the column is empty, is an entry of [distribution],
    occurs at least once and at least [total / unique] times. *)
Theorem categorical_profile_counts (cells : list cell) (p : Profile.categorical_profile) :
  analyzeColumn cells = Categorical p ->
  let strs := stringified cells in
  let own := filter (fun k => negb (String.eqb k "__proto__")) strs in
  Profile.total p = List.length strs
  /\ Profile.unique p = List.length (first_occ own)
  /\ Profile.unique p <= Profile.total p
  /\ (forall k, obj_get (Profile.distribution p) k
                = if seen own k
                  then Some (if inherits k
                             then Text (function_source k ++ ones (occurrences k strs))
                             else Times (occurrences k strs))
                  else None)
  /\ 2 * List.length (filter is_numeric_value (filter non_empty cells))
     <= Profile.total p
  /\ (no_member_name strs = true ->
      (Profile.unique p = 0 <-> Profile.total p = 0)
      /\ (forall k, obj_get (Profile.distribution p) k
                    = if seen strs k then Some (Times (occurrences k strs)) else None)
      /\ list_sum (map (fun e => times (snd e)) (Profile.distribution p))
         = Profile.total p
      /\ (forall m, Profile.mostCommon p = Some m ->
            exists n,
              snd m = Times n
              /\ 1 <= n
              /\ obj_get (Profile.distribution p) (fst m) = Some (Times n)
              /\ (forall k, occurrences k strs <= n)
              /\ Profile.total p <= Profile.unique p * n)
      /\ (Profile.mostCommon p = None <-> Profile.total p = 0)).
Proof.
  intros H strs own. apply analyzeColumn_categorical in H. destruct H as [-> Hhalf].
  cbn [categoricalProfile Profile.total Profile.unique Profile.distribution
       Profile.mostCommon].
  set (values := filter non_empty cells) in *.
  assert (Hstrs : strs = map JsString values) by reflexivity.
  assert (Hgen : frequencies values = frequency_table strs)
    by (rewrite Hstrs; apply frequencies_general).
  assert (Htotal : List.length values = List.length strs)
    by (rewrite Hstrs; now rewrite length_map).
  assert (Hunique : List.length (keys (frequencies values))
                    = List.length (first_occ own)).
  { rewrite (Permutation_length (keys_perm _)), Hgen. unfold frequency_table.
    fold own. now rewrite !length_map. }
  rewrite Hunique, Htotal.
  split; [reflexivity|]. split; [reflexivity|].
  split.
  { etransitivity; [apply first_occ_length|]. apply filter_length_le. }
  split.
  { intro k. rewrite Hgen. unfold frequency_table. fold own.
    rewrite obj_get_table, seen_first_occ.
    destruct (seen own k) eqn:S; [|reflexivity].
    apply seen_In, filter_In in S. destruct S as [_ S].
    unfold own. rewrite (occurrences_filter _ k strs S). reflexivity. }
  split; [lia|].
  intro Hfree.
  assert (Hfreq : frequencies values = as_counts (tally_table strs))
    by (rewrite Hstrs; apply frequencies_table; rewrite <- Hstrs; exact Hfree).
  assert (Hown : own = strs).
  { unfold own. apply filter_all, forallb_forall. intros k Hk.
    apply negb_true_iff, String.eqb_neq. intros ->.
    apply (proj1 (no_member_name_spec strs) Hfree) in Hk. discriminate Hk. }
  rewrite Hown.
  assert (Hzero : List.length (first_occ strs) = 0 <-> List.length strs = 0).
  { split; intro E.
    - destruct strs as [|k l]; [reflexivity|].
      assert (Hk : In k (first_occ (k :: l))) by (apply first_occ_In; now left).
      destruct (first_occ (k :: l)); [destruct Hk | discriminate E].
    - destruct strs; [reflexivity | discriminate E]. }
  assert (Hget : forall k, obj_get (frequencies values) k
                           = if seen strs k then Some (Times (occurrences k strs)) else None).
  { intro k. rewrite Hfreq. unfold as_counts, tally_table. rewrite map_map.
    cbn [fst snd].
    now rewrite (obj_get_table (fun k => Times (occurrences k strs))), seen_first_occ. }
  split; [exact Hzero|]. split; [exact Hget|].
  split; [rewrite Hfreq, as_counts_times; apply tally_table_total|].
  split.
  - intros m Hm. unfold entries in Hm.
    rewrite Hfreq, own_entries_as_counts in Hm.
    apply sorted_head_greatest in Hm. destruct Hm as (n & Hn & Hin & Hmax).
    assert (Hin' : In (fst m, n) (tally_table strs))
      by (apply (Permutation_in _ (own_entries_perm _)); exact Hin).
    assert (Hmax' : forall e, In e (tally_table strs) -> snd e <= n).
    { intros e He. apply Hmax.
      apply (Permutation_in _ (Permutation_sym (own_entries_perm _))). exact He. }
    apply tally_table_In in Hin'. cbn [fst snd] in Hin'. destruct Hin' as [Hk Hc].
    assert (Hocc : forall k, occurrences k strs <= n).
    { intro k. destruct (seen strs k) eqn:S.
      - apply seen_In in S.
        apply (Hmax' (k, occurrences k strs)). apply tally_table_In. now split.
      - apply seen_false in S. rewrite (@occurrences_absent k strs S). lia. }
    exists n. split; [exact Hn|].
    split; [rewrite Hc; now apply occurrences_present|].
    split; [rewrite Hget, (proj2 (seen_In strs (fst m)) Hk); now rewrite Hc|].
    split; [exact Hocc|].
    rewrite <- (tally_table_total strs).
    replace (List.length (first_occ strs)) with (List.length (map snd (tally_table strs)))
      by (unfold tally_table; now rewrite !length_map).
    apply list_sum_bound. rewrite Forall_forall. intros c Hc'.
    apply in_map_iff in Hc'. destruct Hc' as (e & <- & He). now apply Hmax'.
  - unfold entries. rewrite Hfreq, own_entries_as_counts, sort_as_counts.
    split; intro E.
    + destruct strs as [|k l] eqn:Es; [reflexivity|]. exfalso.
      assert (Hk : In (k, occurrences k (k :: l)) (tally_table (k :: l))).
      { apply tally_table_In. split; [now left | reflexivity]. }
      apply (Permutation_in _ (Permutation_sym (own_entries_perm _))) in Hk.
      apply (Permutation_in _ (Permutation_sym (sort_perm gt_times _))) in Hk.
      destruct (sort gt_times (own_entries (tally_table (k :: l))));
        [destruct Hk | discriminate E].
    + destruct strs; [|discriminate E]. reflexivity.
Qed.

Lemma categorical_profile_counts_witness :
  classify tied_cells = CATEGORICAL
  /\ Profile.unique (categoricalProfile tied_cells) <= Profile.total (categoricalProfile tied_cells).
Proof.
  assert (H : analyzeColumn tied_cells = Categorical (categoricalProfile tied_cells))
    by reflexivity.
  split; [reflexivity|].
  exact (proj1 (proj2 (proj2 (@categorical_profile_counts tied_cells _ H)))).
Defined.

(** ** The series of a pie or bar chart *)

Lemma first_occ_nil (l : list string) : first_occ l = [] <-> l = [].
Proof.
  split; [|intros ->; reflexivity].
  destruct l as [|k l]; [reflexivity|]. intro E. exfalso.
  assert (Hk : In k (first_occ (k :: l))) by (apply first_occ_In; now left).
  rewrite E in Hk. destruct Hk.
Qed.

Lemma filter_nil {A} (f : A -> bool) (l : list A) :
  filter f l = [] <-> forall x, In x l -> f x = false.
Proof.
  induction l as [|x l IH]; cbn [filter]; [split; [intros _ y []|reflexivity]|].
  destruct (f x) eqn:E; split.
  - discriminate.
  - intro H. specialize (H x (or_introl eq_refl)). congruence.
  - intros H y [<-|Hy]; [exact E | now apply IH].
  - intro H. apply IH. intros y Hy. apply H. now right.
Qed.

(** The sorted entries are empty exactly when every value is the text
    [__proto__], the one key the frequency object cannot hold. *)
Lemma sorted_entries_nil (values : list cell) :
  sort gt_count (entries (frequencies values)) = [] <->
  forall v, In v values -> JsString v = "__proto__".
Proof.
  assert (E : sort gt_count (entries (frequencies values)) = [] <->
              filter (fun k => negb (String.eqb k "__proto__")) (map JsString values) = []).
  { rewrite frequencies_general. unfold frequency_table, entries.
    set (own := filter _ (map JsString values)).
    rewrite <- first_occ_nil.
    set (t := map _ (first_occ own)).
    assert (P : Permutation (sort gt_count (own_entries t)) t)
      by (etransitivity; [apply sort_perm | apply own_entries_perm]).
    split; intro H.
    - rewrite H in P. apply Permutation_nil in P. unfold t in P.
      now apply map_eq_nil in P.
    - unfold t in *. rewrite H in *. cbn [map] in P.
      now apply Permutation_sym, Permutation_nil in P. }
  rewrite E, filter_nil. split; intros H v Hv.
  - specialize (H (JsString v) (in_map JsString _ _ Hv)).
    now apply negb_false_iff, String.eqb_eq in H.
  - apply in_map_iff in Hv. destruct Hv as (c & <- & Hc).
    apply negb_false_iff, String.eqb_eq. now apply H.
Qed.

(** With a column name, the series is the head of the sorted entries of the
    column's frequency object; without rows that object is empty. *)
Lemma getChartData_named (data : list row) (column : string) (limit : nat) :
  column <> "" ->
  getChartData data column limit
  = map (freq_point (List.length (column_values data column)))
        (firstn limit
           (sort gt_count (entries (frequencies (column_values data column))))).
Proof.
  intro Hc. rewrite getChartData_entries.
  apply String.eqb_neq in Hc. rewrite Hc, orb_false_r.
  destruct data as [|r data]; [|reflexivity].
  cbn [List.length Nat.eqb]. now rewrite firstn_nil.
Qed.

Lemma getChartData_unnamed (data : list row) (limit : nat) :
  getChartData data "" limit = [].
Proof. rewrite getChartData_entries. now rewrite orb_true_r. Qed.

(** X6: the series of a column is empty exactly when the column name is
    empty, the limit is zero, or every non-empty value read under that name
    is the text [__proto__], which the frequency object cannot hold; in
    particular when there are no rows.  A row that lacks the column reads
    [undefined], or, under the name of a member of [Object.prototype], that
    member, which counts as a value. *)
Theorem chart_data_empty_iff (data : list row) (column : string) (limit : nat) :
  (getChartData data column limit = [] <->
   column = "" \/ limit = 0
   \/ forall v, In v (column_values data column) -> JsString v = "__proto__")
  /\ (inherits column = false ->
      (forall r, In r data -> obj_get r column = None) ->
      getChartData data column limit = [])
  /\ getChartData [] column limit = [].
Proof.
  assert (Hiff : getChartData data column limit = [] <->
                 column = "" \/ limit = 0
                 \/ forall v, In v (column_values data column) -> JsString v = "__proto__").
  { destruct (string_dec column "") as [->|Hc].
    { rewrite getChartData_unnamed. tauto. }
    rewrite (getChartData_named data limit Hc). split.
    - intro E. apply map_eq_nil in E. right.
      destruct limit as [|n]; [now left | right].
      apply sorted_entries_nil.
      destruct (sort gt_count (entries (frequencies (column_values data column))));
        [reflexivity | discriminate E].
    - intros [E|[->|E]]; [contradiction | reflexivity |].
      apply sorted_entries_nil in E. rewrite E. now rewrite firstn_nil. }
  split; [exact Hiff|]. split.
  - intros Hi Hnone. apply Hiff. right. right. intros v Hv.
    unfold column_values in Hv. apply filter_In in Hv. destruct Hv as [Hv Hne].
    apply in_map_iff in Hv. destruct Hv as (r & <- & Hr).
    unfold field in Hne. rewrite (Hnone r Hr), Hi in Hne. discriminate Hne.
  - rewrite getChartData_entries. reflexivity.
Qed.

Example member_column_series :
  getChartData [ [("a", CStr "x")] ] "toString" 10
  = [ {| Freq.name := "function toString() ...";
         Freq.value := Times 1;
         Freq.percentage := "100.0" |} ]
  /\ getChartData [ [("a", CStr "__proto__")] ] "a" 10 = [].
Proof. vm_compute. split; reflexivity. Qed.

(** X7: a shorter limit yields a prefix of the series of a longer one: the
    slices of the pie chart (limit 8) are the first eight bars of the bar
    chart (limit 10) of the same column. *)
Theorem chart_data_prefix (data : list row) (column : string) (m n : nat) :
  getChartData data column (Nat.min m n) = firstn m (getChartData data column n)
  /\ getChartData data column 8 = firstn 8 (getChartData data column 10).
Proof.
  assert (H : forall m n, getChartData data column (Nat.min m n)
                          = firstn m (getChartData data column n)).
  { intros m' n'. rewrite !getChartData_entries.
    destruct ((List.length data =? 0) || String.eqb column "");
      [now rewrite firstn_nil|].
    now rewrite firstn_map, firstn_firstn. }
  split; [apply H | exact (H 8 10)].
Qed.

Lemma string_length_append (s t : string) :
  String.length (s ++ t) = String.length s + String.length t.
Proof. induction s as [|a s IH]; simpl; auto. Qed.

Lemma string_length_prefix (m : nat) (s : string) :
  String.length (substring 0 m s) = Nat.min m (String.length s).
Proof.
  revert m. induction s as [|a s IH]; intros [|m]; simpl; auto.
Qed.

Lemma label_length (name : string) :
  String.length (label name) <= 23
  /\ (String.length name <= 20 -> label name = name).
Proof.
  unfold label. destruct (20 <? String.length name) eqn:E.
  - apply Nat.ltb_lt in E. split; [|lia].
    rewrite string_length_append, string_length_prefix.
    change (String.length "...") with 3. lia.
  - apply Nat.ltb_ge in E. split; [lia | reflexivity].
Qed.

Lemma sorted_app_le {A} (R : A -> A -> Prop) (l1 l2 : list A) :
  StronglySorted R (l1 ++ l2) -> forall x y, In x l1 -> In y l2 -> R x y.
Proof.
  induction l1 as [|a l1 IH]; intros S x y Hx Hy; [destruct Hx|].
  inversion S as [|? ? S' Hall]; subst. destruct Hx as [<-|Hx].
  - rewrite Forall_forall in Hall. apply Hall, in_or_app. now right.
  - now apply IH.
Qed.

Lemma sorted_app_left {A} (R : A -> A -> Prop) (l1 l2 : list A) :
  StronglySorted R (l1 ++ l2) -> StronglySorted R l1.
Proof.
  induction l1 as [|a l1 IH]; intro S; [constructor|].
  inversion S as [|? ? S' Hall]; subst. constructor; auto.
  rewrite Forall_forall in *. intros x Hx. apply Hall, in_or_app. now left.
Qed.

Lemma sorted_map {A B} (R : A -> A -> Prop) (Q : B -> B -> Prop) (f : A -> B)
      (l : list A) :
  (forall x y, R x y -> Q (f x) (f y)) ->
  StronglySorted R l -> StronglySorted Q (map f l).
Proof.
  intros HR. induction 1 as [|a l S IH Hall]; simpl; constructor; auto.
  rewrite Forall_forall in *. intros y Hy. apply in_map_iff in Hy.
  destruct Hy as (x & <- & Hx). auto.
Qed.

(** X8: the series of a named column none of whose values stringifies to
    the name of a member of [Object.prototype] shows the most frequent
    values: it has as many points as the limit allows, one per distinct
    stringified value; the counts are in descending order, each at least
    one, and add up to at most the number of non-empty values; a value that
    is left out occurs no more often than any value shown; and every name
    has at most 23 characters, the value itself when it has at most 20. *)
Theorem chart_data_most_frequent (data : list row) (column : string) (limit : nat) :
  column <> "" ->
  let strs := map JsString (column_values data column) in
  let series := getChartData data column limit in
  let count := fun p => times (Freq.value p) in
  no_member_name strs = true ->
  List.length series = Nat.min limit (List.length (first_occ strs))
  /\ StronglySorted (fun p q => count q <= count p) series
  /\ Forall (fun p => (exists n, Freq.value p = Times n)
                      /\ 1 <= count p <= List.length strs
                      /\ String.length (Freq.name p) <= 23) series
  /\ list_sum (map count series) <= List.length strs
  /\ (forall k, In k strs ->
        (exists p, In p series /\ Freq.name p = label k
                   /\ Freq.value p = Times (occurrences k strs))
        \/ Forall (fun p => occurrences k strs <= count p) series).
Proof.
  intros Hc strs series count Hfree. subst count. cbv beta.
  unfold series. rewrite (getChartData_named data limit Hc).
  rewrite (sorted_counts (column_values data column) Hfree). fold strs.
  set (S := sort gt_times (own_entries (tally_table strs))).
  set (T := List.length (column_values data column)).
  assert (HP : Permutation S (tally_table strs)).
  { unfold S. etransitivity; [apply sort_perm | apply own_entries_perm]. }
  assert (HS : StronglySorted times_ge S) by apply sort_times_sorted.
  assert (HT : T = List.length strs) by (unfold T, strs; now rewrite length_map).
  assert (Hsplit : S = (firstn limit S ++ skipn limit S)%list)
    by (symmetry; apply firstn_skipn).
  assert (Hin : forall e, In e (firstn limit S) ->
                          In (fst e) strs /\ snd e = occurrences (fst e) strs).
  { intros e He. apply tally_table_In.
    apply (Permutation_in _ HP). now apply In_firstn in He. }
  assert (Hfirst : firstn limit (as_counts S) = as_counts (firstn limit S))
    by (unfold as_counts; apply firstn_map).
  rewrite Hfirst. unfold as_counts. rewrite map_map.
  split; [|split; [|split; [|split]]].
  - rewrite length_map, length_firstn. f_equal.
    rewrite (Permutation_length HP). unfold tally_table. now rewrite length_map.
  - apply (sorted_map (R := times_ge)); [intros x y H; exact H|].
    rewrite Hsplit in HS. now apply sorted_app_left in HS.
  - rewrite Forall_forall. intros p Hp. apply in_map_iff in Hp.
    destruct Hp as (e & <- & He). destruct (Hin e He) as [Hk Ho].
    cbn [freq_point Freq.value Freq.name fst snd times]. rewrite Ho.
    split; [now exists (occurrences (fst e) strs)|]. repeat split.
    + now apply occurrences_present.
    + apply occurrences_le.
    + apply label_length.
  - rewrite map_map. cbn [freq_point Freq.value fst snd times].
    rewrite <- (tally_table_total strs), <- (list_sum_perm (Permutation_map snd HP)).
    rewrite Hsplit at 2. rewrite map_app, list_sum_app.
    change (fun x : string * nat => snd x) with (@snd string nat). lia.
  - intros k Hk.
    assert (He : In (k, occurrences k strs) S).
    { apply (Permutation_in _ (Permutation_sym HP)), tally_table_In. now split. }
    rewrite Hsplit in He. apply in_app_or in He. destruct He as [He|He].
    + left. exists (freq_point T (k, Times (occurrences k strs))).
      split; [|split; reflexivity].
      apply in_map_iff. exists (k, occurrences k strs). split; [reflexivity|exact He].
    + right. rewrite Forall_forall. intros p Hp. apply in_map_iff in Hp.
      destruct Hp as (e & <- & He'). cbn [freq_point Freq.value fst snd times].
      rewrite Hsplit in HS.
      exact (@sorted_app_le _ times_ge _ _ HS e (k, occurrences k strs) He' He).
Qed.

Lemma chart_data_most_frequent_witness :
  "dept" <> ""
  /\ no_member_name (map JsString (column_values dept_salary "dept")) = true
  /\ List.length (getChartData dept_salary "dept" 8) = 2.
Proof.
  assert (H : "dept" <> "") by discriminate.
  assert (Hfree : no_member_name (map JsString (column_values dept_salary "dept")) = true)
    by reflexivity.
  split; [exact H|]. split; [exact Hfree|].
  exact (proj1 (@chart_data_most_frequent dept_salary "dept" 8 H Hfree)).
Defined.

Lemma hd_error_map {A B} (f : A -> B) (l : list A) :
  hd_error (map f l) = option_map f (hd_error l).
Proof. now destruct l. Qed.

Lemma hd_error_firstn {A} (n : nat) (l : list A) :
  0 < n -> hd_error (firstn n l) = hd_error l.
Proof. destruct n; [lia|]. now destruct l. Qed.

(** X9: for a CATEGORICAL column none of whose values stringifies to the
    name of a member of [Object.prototype], the chart and the profile tell
    the same story: every point's count is the entry of [distribution] under
    the value it names and its percentage is taken over [total]; with a
    positive limit the first point is the profile's most common entry; and
    when the limit is at least [unique] there is one point per distinct
    value and the counts add up to [total]. *)
Theorem chart_agrees_with_profile
        (data : list row) (column : string) (limit : nat)
        (p : Profile.categorical_profile) :
  column <> "" ->
  analyzeColumn (column_cells data column) = Categorical p ->
  no_member_name (map JsString (column_values data column)) = true ->
  let series := getChartData data column limit in
  Forall (fun q =>
            exists k n,
              Freq.name q = label k
              /\ Freq.value q = Times n
              /\ obj_get (Profile.distribution p) k = Some (Times n)
              /\ Freq.percentage q = percentage_of (Times n) (Profile.total p))
         series
  /\ (0 < limit ->
      option_map (fun q => (Freq.name q, Freq.value q)) (hd_error series)
      = option_map (fun m => (label (fst m), snd m)) (Profile.mostCommon p))
  /\ (Profile.unique p <= limit ->
      List.length series = Profile.unique p
      /\ list_sum (map (fun q => times (Freq.value q)) series) = Profile.total p).
Proof.
  intros Hc H Hfree series. apply analyzeColumn_categorical in H. destruct H as [-> _].
  unfold series. rewrite (getChartData_named data limit Hc).
  change (filter non_empty (column_cells data column))
    with (column_values data column) in *.
  set (values := column_values data column) in *.
  cbn [categoricalProfile Profile.total Profile.unique Profile.distribution
       Profile.mostCommon].
  set (S := sort gt_count (entries (frequencies values))).
  assert (HP : Permutation S (as_counts (tally_table (map JsString values))))
    by (apply sorted_entries_perm; exact Hfree).
  split; [|split].
  - rewrite Forall_forall. intros q Hq. apply in_map_iff in Hq.
    destruct Hq as (e & <- & He).
    apply In_firstn in He. apply (Permutation_in _ HP) in He.
    apply as_counts_In in He. destruct He as (n & Hn & He).
    exists (fst e), n.
    cbn [freq_point Freq.name Freq.value Freq.percentage]. rewrite Hn.
    split; [reflexivity|]. split; [reflexivity|]. split; [|reflexivity].
    apply tally_table_In in He. cbn [fst snd] in He. destruct He as [Hk Ho].
    rewrite (frequencies_table values Hfree). unfold as_counts, tally_table.
    rewrite map_map. cbn [fst snd].
    rewrite (obj_get_table (fun k => Times (occurrences k (map JsString values)))),
            seen_first_occ, (proj2 (seen_In _ _) Hk).
    now rewrite Ho.
  - intro Hl. rewrite hd_error_map, (hd_error_firstn _ Hl).
    now destruct (hd_error S).
  - intro Hu.
    assert (Hlen : List.length S = List.length (keys (frequencies values))).
    { unfold S, keys, entries. now rewrite sort_length, length_map. }
    rewrite firstn_all2 by lia. rewrite length_map. split; [exact Hlen|].
    rewrite map_map. cbn [freq_point Freq.value].
    rewrite (list_sum_perm (Permutation_map (fun e => times (snd e)) HP)).
    rewrite as_counts_times, tally_table_total.
    now rewrite length_map.
Qed.

Lemma chart_agrees_with_profile_witness :
  "c" <> ""
  /\ analyzeColumn (column_cells tied_data "c")
     = Categorical (categoricalProfile tied_cells)
  /\ no_member_name (map JsString (column_values tied_data "c")) = true
  /\ List.length (getChartData tied_data "c" 10)
     = Profile.unique (categoricalProfile tied_cells).
Proof.
  assert (Hc : "c" <> "") by discriminate.
  assert (H : analyzeColumn (column_cells tied_data "c")
              = Categorical (categoricalProfile tied_cells)) by reflexivity.
  assert (Hfree : no_member_name (map JsString (column_values tied_data "c")) = true)
    by reflexivity.
  assert (Hu : Profile.unique (categoricalProfile tied_cells) <= 10)
    by (vm_compute; lia).
  split; [exact Hc|]. split; [exact H|]. split; [exact Hfree|].
  exact (proj1 (proj2 (proj2 (@chart_agrees_with_profile tied_data "c" 10 _ Hc H Hfree))
                      Hu)).
Defined.

(** ** The charts proposed *)

Lemma per_column_In categorical ok mk (c : Chart.spec) :
  In c (Plan.per_column categorical ok mk) <->
  exists col p, In col (keys categorical) /\ obj_get categorical col = Some p
                /\ ok p = true /\ c = mk col p.
Proof.
  unfold Plan.per_column. rewrite in_flat_map. split.
  - intros (col & Hcol & H).
    destruct (obj_get categorical col) as [p|] eqn:G; [|destruct H].
    destruct (ok p) eqn:O; [|destruct H].
    destruct H as [<-|[]]. now exists col, p.
  - intros (col & p & Hcol & G & O & ->). exists col. split; auto.
    rewrite G, O. now left.
Qed.

Lemma per_column_length categorical ok mk :
  List.length (Plan.per_column categorical ok mk)
  = List.length
      (filter (fun col => match obj_get categorical col with
                          | Some p => ok p
                          | None => false
                          end)
              (keys categorical)).
Proof.
  unfold Plan.per_column.
  induction (keys categorical) as [|col l IH]; [reflexivity|].
  cbn [flat_map filter]. rewrite length_app, IH.
  destruct (obj_get categorical col) as [p|]; [|reflexivity].
  now destruct (ok p).
Qed.

Lemma filter_length_impl {A} (f g : A -> bool) (l : list A) :
  (forall x, f x = true -> g x = true) ->
  List.length (filter f l) <= List.length (filter g l).
Proof.
  intro H. induction l as [|x l IH]; [reflexivity|]. cbn [filter].
  destruct (f x) eqn:F.
  - rewrite (H x F). simpl. lia.
  - destruct (g x); simpl; lia.
Qed.

Lemma unique_within_wider (p : Profile.categorical_profile) :
  Plan.unique_within 2 15 p = true -> Plan.unique_within 2 20 p = true.
Proof.
  unfold Plan.unique_within. rewrite !andb_true_iff, !Nat.leb_le. lia.
Qed.

(** The types of the specs of the four groups. *)
Lemma pie_group_type (a : Profile.analysis) (c : Chart.spec) :
  In c (Plan.per_column (Profile.categorical a) (Plan.unique_within 2 15) Plan.pie_spec) ->
  Chart.type c = Chart.pie.
Proof. intro H. apply per_column_In in H. now destruct H as (col & p & _ & _ & _ & ->). Qed.

Lemma bar_group_type (a : Profile.analysis) (c : Chart.spec) :
  In c (Plan.per_column (Profile.categorical a) (Plan.unique_within 2 20)
                        (fun col _ => Plan.bar_spec col)) ->
  Chart.type c = Chart.bar.
Proof. intro H. apply per_column_In in H. now destruct H as (col & p & _ & _ & _ & ->). Qed.

Lemma In_firstn_app {A} (n : nat) (l1 l2 : list A) (x : A) :
  ~ In x l1 ->
  In x (firstn n (l1 ++ l2)) <-> In x (firstn (n - List.length l1) l2).
Proof.
  intro H. rewrite firstn_app, in_app_iff. split; [|tauto].
  intros [H1|H1]; [|exact H1]. apply In_firstn in H1. contradiction.
Qed.

(** X10: how many charts are proposed, and when the numeric columns get
    theirs: with [pies] categorical columns of 2 to 15 distinct values and
    [bars] of 2 to 20, the line chart is proposed exactly when there are two
    numeric columns and [pies + bars] is at most 5, the comparison chart
    exactly when it is at most 4.  So three categorical columns with 2 to
    15 distinct values fill the six places with pie and bar charts,
    whatever the numeric columns. *)
Theorem trend_charts_shown_iff (a : Profile.analysis) :
  let charts := getBestChartsForData (Some a) in
  let pies := List.length (filter (pie_ready (Profile.categorical a))
                                  (keys (Profile.categorical a))) in
  let bars := List.length (filter (bar_ready (Profile.categorical a))
                                  (keys (Profile.categorical a))) in
  let numericCols := keys (Profile.numeric a) in
  pies <= bars
  /\ List.length charts
     = Nat.min 6 (pies + bars + (if 2 <=? List.length numericCols then 2 else 0))
  /\ ((exists c, In c charts /\ Chart.type c = Chart.line) <->
      2 <= List.length numericCols /\ pies + bars <= 5)
  /\ ((exists c, In c charts /\ Chart.type c = Chart.comparison) <->
      2 <= List.length numericCols /\ pies + bars <= 4)
  /\ (3 <= pies ->
      List.length charts = 6
      /\ forallb (fun c => negb (is_trend c)) charts = true).
Proof.
  intros charts pies bars numericCols. unfold charts.
  rewrite getBestChartsForData_plan. unfold Plan.plan, Plan.all_specs.
  fold numericCols.
  set (P := Plan.per_column (Profile.categorical a) (Plan.unique_within 2 15)
                            Plan.pie_spec).
  set (B := Plan.per_column (Profile.categorical a) (Plan.unique_within 2 20)
                            (fun col _ => Plan.bar_spec col)).
  assert (HP : List.length P = pies) by (unfold P; now rewrite per_column_length).
  assert (HB : List.length B = bars) by (unfold B; now rewrite per_column_length).
  assert (Hle : pies <= bars).
  { unfold pies, bars. apply filter_length_impl. intro col.
    unfold pie_ready, bar_ready.
    destruct (obj_get (Profile.categorical a) col); auto.
    apply unique_within_wider. }
  assert (HtP : forall c, In c P -> Chart.type c = Chart.pie)
    by apply pie_group_type.
  assert (HtB : forall c, In c B -> Chart.type c = Chart.bar)
    by apply bar_group_type.
  set (L := Plan.line_spec numericCols). set (C := Plan.comparison_spec numericCols).
  assert (E : (P ++ B
               ++ (if 2 <=? List.length numericCols then [L] else [])
               ++ (if 2 <=? List.length numericCols then [C] else []))%list
              = ((P ++ B)
                 ++ (if 2 <=? List.length numericCols then [L; C] else []))%list).
  { rewrite <- app_assoc. now destruct (2 <=? List.length numericCols). }
  rewrite E.
  assert (HPB : List.length (P ++ B) = pies + bars)
    by (now rewrite length_app, HP, HB).
  assert (Hnot : forall c, is_trend c = true -> ~ In c (P ++ B)).
  { intros c Hc Hin. apply in_app_or in Hin. unfold is_trend in Hc.
    destruct Hin as [Hin|Hin]; [rewrite (HtP c Hin) in Hc | rewrite (HtB c Hin) in Hc];
      discriminate Hc. }
  split; [exact Hle|]. split; [|split; [|split]].
  - rewrite length_firstn, length_app, HPB.
    destruct (2 <=? List.length numericCols); simpl; lia.
  - split.
    + intros (c & Hc & Ht).
      assert (Hn : ~ In c (P ++ B)) by (apply Hnot; unfold is_trend; now rewrite Ht).
      apply (@In_firstn_app _ 6 (P ++ B) _ c Hn) in Hc. rewrite HPB in Hc.
      destruct (2 <=? List.length numericCols) eqn:N;
        [apply Nat.leb_le in N | now rewrite firstn_nil in Hc].
      split; [exact N|].
      destruct (6 - (pies + bars)) eqn:D; [destruct Hc | lia].
    + intros [N H5]. exists L. split; [|reflexivity].
      apply In_firstn_app; [now apply Hnot|]. rewrite HPB.
      apply Nat.leb_le in N. rewrite N.
      destruct (6 - (pies + bars)) as [|k] eqn:D; [lia|]. now left.
  - split.
    + intros (c & Hc & Ht).
      assert (Hn : ~ In c (P ++ B)) by (apply Hnot; unfold is_trend; now rewrite Ht).
      apply (@In_firstn_app _ 6 (P ++ B) _ c Hn) in Hc. rewrite HPB in Hc.
      destruct (2 <=? List.length numericCols) eqn:N;
        [apply Nat.leb_le in N | now rewrite firstn_nil in Hc].
      split; [exact N|].
      destruct (6 - (pies + bars)) as [|[|k]] eqn:D; [destruct Hc | | lia].
      cbn [firstn In] in Hc. destruct Hc as [<-|[]]. discriminate Ht.
    + intros [N H4]. exists C. split; [|reflexivity].
      apply In_firstn_app; [now apply Hnot|]. rewrite HPB.
      apply Nat.leb_le in N. rewrite N.
      destruct (6 - (pies + bars)) as [|[|k]] eqn:D; [lia | lia |].
      right. now left.
  - intro H3. rewrite firstn_app.
    replace (6 - List.length (P ++ B)) with 0 by lia.
    rewrite firstn_O, app_nil_r. split.
    + rewrite length_firstn. lia.
    + apply forallb_firstn. rewrite forallb_app. unfold P, B.
      rewrite !no_trend_in_per_column; auto.
Qed.

(** X11: a column that gets a pie chart gets a bar chart too, unless the
    limit of six charts cut the list short. *)
Theorem pie_chart_has_bar_chart (a : Profile.analysis) (c : Chart.spec) :
  In c (getBestChartsForData (Some a)) ->
  Chart.type c = Chart.pie ->
  List.length (getBestChartsForData (Some a)) = 6
  \/ exists b, In b (getBestChartsForData (Some a))
               /\ Chart.type b = Chart.bar
               /\ Chart.column b = Chart.column c.
Proof.
  rewrite getBestChartsForData_plan. unfold Plan.plan. intros Hin Hpie.
  destruct (Nat.le_gt_cases (List.length (Plan.all_specs a)) 6) as [L|L].
  - right. rewrite firstn_all2 in * by exact L.
    unfold Plan.all_specs in *.
    apply in_app_or in Hin. destruct Hin as [Hin|Hin].
    + apply per_column_In in Hin. destruct Hin as (col & p & Hk & G & O & ->).
      exists (Plan.bar_spec col). split; [|split; reflexivity].
      apply in_or_app. right. apply in_or_app. left.
      apply per_column_In. exists col, p. repeat split; auto.
      now apply unique_within_wider.
    + exfalso. apply in_app_or in Hin. destruct Hin as [Hin|Hin].
      * apply bar_group_type in Hin. congruence.
      * apply in_app_or in Hin.
        destruct (2 <=? List.length (keys (Profile.numeric a)));
          cbn [In] in Hin; destruct Hin as [H|H];
          try destruct H as [H|H]; try contradiction; subst c; discriminate Hpie.
  - left. rewrite length_firstn. lia.
Qed.

Lemma pie_chart_has_bar_chart_witness :
  exists b, In b (getBestChartsForData (Some (analyzeData dept_salary ["dept"; "salary"])))
            /\ Chart.type b = Chart.bar
            /\ Chart.column b = Some "dept".
Proof.
  assert (Hin : In (Plan.pie_spec "dept" (categoricalProfile (column_cells dept_salary "dept")))
                   (getBestChartsForData (Some (analyzeData dept_salary ["dept"; "salary"]))))
    by (now left).
  destruct (@pie_chart_has_bar_chart _ _ Hin eq_refl) as [H|H].
  - discriminate H.
  - exact H.
Defined.

Lemma sorted_app {A} (R : A -> A -> Prop) (l1 l2 : list A) :
  StronglySorted R l1 -> StronglySorted R l2 ->
  (forall x y, In x l1 -> In y l2 -> R x y) ->
  StronglySorted R (l1 ++ l2).
Proof.
  intros S1 S2 H. induction S1 as [|a l1 S1 IH Hall]; [exact S2|].
  cbn [app]. constructor.
  - apply IH. intros x y Hx Hy. apply H; [now right | exact Hy].
  - rewrite Forall_forall in *. intros y Hy. apply in_app_or in Hy.
    destruct Hy as [Hy|Hy]; [now apply Hall | apply H; [now left | exact Hy]].
Qed.

Lemma sorted_same_rank (l : list Chart.spec) (t : Chart.chart_type) :
  (forall c, In c l -> Chart.type c = t) ->
  StronglySorted (fun c d => rank (Chart.type c) <= rank (Chart.type d)) l.
Proof.
  induction l as [|c l IH]; intro H; constructor.
  - apply IH. intros d Hd. apply H. now right.
  - rewrite Forall_forall. intros d Hd.
    rewrite (H c (or_introl eq_refl)), (H d (or_intror Hd)). lia.
Qed.

Lemma sorted_firstn {A} (R : A -> A -> Prop) (n : nat) (l : list A) :
  StronglySorted R l -> StronglySorted R (firstn n l).
Proof.
  intro S. rewrite <- (firstn_skipn n l) in S. now apply sorted_app_left in S.
Qed.

Lemma filter_firstn_length {A} (f : A -> bool) (n : nat) (l : list A) :
  List.length (filter f (firstn n l)) <= List.length (filter f l).
Proof.
  rewrite <- (firstn_skipn n l) at 2. rewrite filter_app, length_app. lia.
Qed.

Lemma In_firstn_pair {A} (n : nat) (l : list A) (x y : A) :
  ~ In y l -> In y (firstn n (l ++ [x; y])) -> In x (firstn n (l ++ [x; y])).
Proof.
  intros Hy H. rewrite firstn_app in *. apply in_or_app. right.
  apply in_app_or in H. destruct H as [H|H].
  - apply In_firstn in H. contradiction.
  - destruct (n - List.length l) as [|[|k]]; cbn [firstn] in *.
    + destruct H.
    + now left.
    + now left.
Qed.

Lemma all_specs_groups (a : Profile.analysis) :
  exists P B,
    (forall c, In c P -> Chart.type c = Chart.pie)
    /\ (forall c, In c B -> Chart.type c = Chart.bar)
    /\ Plan.all_specs a
       = ((P ++ B)
          ++ (if 2 <=? List.length (keys (Profile.numeric a))
              then [Plan.line_spec (keys (Profile.numeric a));
                    Plan.comparison_spec (keys (Profile.numeric a))]
              else []))%list.
Proof.
  exists (Plan.per_column (Profile.categorical a) (Plan.unique_within 2 15) Plan.pie_spec),
         (Plan.per_column (Profile.categorical a) (Plan.unique_within 2 20)
                          (fun col _ => Plan.bar_spec col)).
  split; [apply pie_group_type|]. split; [apply bar_group_type|].
  unfold Plan.all_specs. rewrite <- app_assoc.
  now destruct (2 <=? List.length (keys (Profile.numeric a))).
Qed.

(** X12: the charts come grouped by type, pie charts first, then bar
    charts, then the line chart, then the comparison chart; there is at most
    one line chart and one comparison chart, and a comparison chart is
    always preceded by the line chart, whose first two columns it
    compares. *)
Theorem charts_grouped_by_type (analysis : option Profile.analysis) :
  let charts := getBestChartsForData analysis in
  StronglySorted (fun c d => rank (Chart.type c) <= rank (Chart.type d)) charts
  /\ List.length (filter (fun c => rank (Chart.type c) =? 2) charts) <= 1
  /\ List.length (filter (fun c => rank (Chart.type c) =? 3) charts) <= 1
  /\ (forall c, In c charts -> Chart.type c = Chart.comparison ->
        exists l, In l charts /\ Chart.type l = Chart.line
                  /\ Chart.columns c = option_map (firstn 2) (Chart.columns l)).
Proof.
  destruct analysis as [a|].
  2:{ change (getBestChartsForData None) with (@nil Chart.spec). cbv zeta.
      split; [constructor|]. split; [simpl; lia|]. split; [simpl; lia|].
      intros c []. }
  rewrite getBestChartsForData_plan. unfold Plan.plan.
  destruct (all_specs_groups a) as (P & B & HP & HB & ->).
  set (numericCols := keys (Profile.numeric a)).
  set (T := if 2 <=? List.length numericCols
            then [Plan.line_spec numericCols; Plan.comparison_spec numericCols]
            else []).
  cbv zeta.
  assert (HT : forall c, In c T ->
                 c = Plan.line_spec numericCols \/ c = Plan.comparison_spec numericCols).
  { unfold T. intros c Hc. destruct (2 <=? List.length numericCols).
    - destruct Hc as [<-|[<-|[]]]; auto.
    - destruct Hc. }
  assert (Hcount : forall k,
             (forall c, In c (P ++ B) -> (rank (Chart.type c) =? k) = false) ->
             List.length (filter (fun c => rank (Chart.type c) =? k) (P ++ B)) = 0).
  { intros k Hk. induction (P ++ B)%list as [|c l IH]; [reflexivity|].
    cbn [filter]. rewrite (Hk c (or_introl eq_refl)). apply IH.
    intros d Hd. apply Hk. now right. }
  assert (HPB : forall c, In c (P ++ B) ->
                  Chart.type c = Chart.pie \/ Chart.type c = Chart.bar).
  { intros c Hc. apply in_app_or in Hc. destruct Hc; [left; auto | right; auto]. }
  split; [|split; [|split]].
  - apply sorted_firstn. apply sorted_app; [apply sorted_app| |].
    + now apply sorted_same_rank with (t := Chart.pie).
    + now apply sorted_same_rank with (t := Chart.bar).
    + intros x y Hx Hy. rewrite (HP x Hx), (HB y Hy). simpl. lia.
    + unfold T. destruct (2 <=? List.length numericCols); repeat constructor.
    + intros x y Hx Hy. destruct (HPB x Hx) as [-> | ->];
        destruct (HT y Hy) as [-> | ->]; simpl; lia.
  - etransitivity; [apply filter_firstn_length|].
    rewrite filter_app, length_app, Hcount.
    + unfold T. destruct (2 <=? List.length numericCols); simpl; lia.
    + intros c Hc. destruct (HPB c Hc) as [-> | ->]; reflexivity.
  - etransitivity; [apply filter_firstn_length|].
    rewrite filter_app, length_app, Hcount.
    + unfold T. destruct (2 <=? List.length numericCols); simpl; lia.
    + intros c Hc. destruct (HPB c Hc) as [-> | ->]; reflexivity.
  - intros c Hc Htype.
    assert (Hall : In c ((P ++ B) ++ T)) by (now apply In_firstn in Hc).
    apply in_app_or in Hall. destruct Hall as [Hall|Hall].
    { destruct (HPB c Hall); congruence. }
    destruct (HT c Hall) as [-> | ->]; [discriminate Htype|].
    exists (Plan.line_spec numericCols).
    split; [|split; [reflexivity|]].
    + unfold T in *. destruct (2 <=? List.length numericCols); [|destruct Hall].
      apply In_firstn_pair; [|exact Hc].
      intro H. destruct (HPB _ H); discriminate.
    + cbn [Plan.comparison_spec Plan.line_spec Chart.columns option_map].
      now rewrite firstn_firstn.
Qed.

(** ** Hovering over a chart *)






(** ** The points of the line series and of the comparison series *)

Lemma indices_mapi_from (f : row -> nat -> point) (k : nat) (l : list row) :
  (forall r idx, obj_get (f r idx) "index" = Some (of_nat (idx + 1))) ->
  indices (mapi_from f k l)
  = map (fun i => Some (of_nat i)) (seq (k + 1) (List.length l)).
Proof.
  intro H. revert k. induction l as [|r l IH]; intro k; [reflexivity|].
  cbn [mapi_from indices map List.length seq]. rewrite H. f_equal.
  apply (IH (S k)).
Qed.

(** X14: the line series has one point per row of the first 50.  Under a
    tracked column's name the point holds the coerced cell when the cell is
    plottable, that is not NaN as a number, not [null] and not the empty
    string; otherwise the point has no such property, except that [index]
    holds the 1-based row position.  So when no tracked column is named
    [index], the indices are 1, 2, 3, ... *)
Theorem line_series_points (data : list row) (columns : list string) :
  List.length (getLineChartData data columns) = Nat.min 50 (List.length data)
  /\ (forall i, i < Nat.min 50 (List.length data) ->
        let p := nth i (getLineChartData data columns) [] in
        let r := nth i data [] in
        forall k,
          obj_get p k =
          if seen columns k && plots (field r k) then Some (coerce (field r k))
          else if String.eqb k "index" then Some (of_nat (i + 1)) else None)
  /\ (~ In "index" columns -> sequential (getLineChartData data columns)).
Proof.
  assert (L : List.length (getLineChartData data columns)
              = Nat.min 50 (List.length data)).
  { unfold getLineChartData, mapi. now rewrite mapi_from_length, length_firstn. }
  split; [exact L|]. split.
  - intros i Hi. cbv zeta. intro k. unfold getLineChartData, mapi.
    rewrite (@nth_mapi_from row point _ (firstn 50 data) 0 i [] [])
      by (rewrite length_firstn; exact Hi).
    rewrite nth_firstn_lt by lia. set (r := nth i data []). cbv beta.
    destruct (seen columns k) eqn:S; cbn [andb].
    + apply seen_In in S. rewrite line_point_column by assumption.
      destruct (plots (field r k)); [reflexivity|].
      cbn [obj_get]. now rewrite String.eqb_sym.
    + apply seen_false in S. rewrite line_point_other by assumption.
      cbn [obj_get]. now rewrite String.eqb_sym.
  - intro Hidx. unfold sequential. rewrite L.
    unfold getLineChartData, mapi. rewrite indices_mapi_from.
    + now rewrite length_firstn.
    + intros r idx. now rewrite line_point_other.
Qed.

Lemma comparison_points_from (col1 col2 : string) (l : list row) (k : nat) :
  filter_Boolean (mapi_from (comparison_point col1 col2) k l)
  = map (fun i => comparison_point_of col1 col2 (nth (i - k) l []) i)
        (filter (fun i => keeps col1 col2 (nth (i - k) l [])) (seq k (List.length l))).
Proof.
  revert k. induction l as [|r l IH]; intro k; [reflexivity|].
  cbn [mapi_from List.length seq filter].
  rewrite comparison_point_keeps, Nat.sub_diag.
  change (nth 0 (r :: l) []) with r.
  assert (Hshift : forall i, In i (seq (S k) (List.length l)) ->
                     nth (i - k) (r :: l) [] = nth (i - S k) l []).
  { intros i Hi. apply in_seq in Hi.
    replace (i - k) with (S (i - S k)) by lia. reflexivity. }
  assert (Hf : filter (fun i => keeps col1 col2 (nth (i - k) (r :: l) []))
                      (seq (S k) (List.length l))
               = filter (fun i => keeps col1 col2 (nth (i - S k) l []))
                        (seq (S k) (List.length l))).
  { apply filter_ext_in. intros i Hi. now rewrite Hshift. }
  assert (Hm : map (fun i => comparison_point_of col1 col2 (nth (i - k) (r :: l) []) i)
                   (filter (fun i => keeps col1 col2 (nth (i - S k) l []))
                           (seq (S k) (List.length l)))
               = map (fun i => comparison_point_of col1 col2 (nth (i - S k) l []) i)
                     (filter (fun i => keeps col1 col2 (nth (i - S k) l []))
                             (seq (S k) (List.length l)))).
  { apply map_ext_in. intros i Hi. apply filter_In in Hi.
    now rewrite (Hshift i (proj1 Hi)). }
  rewrite Hf.
  destruct (keeps col1 col2 r); cbn [filter_Boolean map].
  - rewrite Nat.sub_diag. change (nth 0 (r :: l) []) with r.
    unfold comparison_point_of at 1. f_equal. rewrite Hm. apply IH.
  - rewrite Hm. apply IH.
Qed.

Lemma comparison_point_of_get (col1 col2 : string) (r : row) (i : nat) :
  obj_get (comparison_point_of col1 col2 r i) "index" = Some (of_nat (i + 1))
  /\ (col2 <> "index" ->
      obj_get (comparison_point_of col1 col2 r i) col2 = Some (coerce (field r col2)))
  /\ (col1 <> col2 -> col1 <> "index" ->
      obj_get (comparison_point_of col1 col2 r i) col1 = Some (coerce (field r col1))).
Proof.
  unfold comparison_point_of. split; [apply obj_get_set_same|]. split.
  - intro H. rewrite obj_get_set_other by congruence. apply obj_get_set_same.
  - intros H1 H2. rewrite !obj_get_set_other by congruence.
    apply obj_get_set_same.
Qed.

Lemma getComparisonData_kept (data : list row) (col1 col2 : string) :
  getComparisonData data col1 col2
  = map (fun i => comparison_point_of col1 col2 (nth i data []) i)
        (kept_positions data col1 col2).
Proof.
  unfold getComparisonData, mapi, kept_positions.
  rewrite comparison_points_from.
  assert (Hn : forall i, In i (seq 0 (List.length (firstn 100 data))) ->
                 nth (i - 0) (firstn 100 data) [] = nth i data []).
  { intros i Hi. apply in_seq in Hi. rewrite Nat.sub_0_r.
    apply nth_firstn_lt. pose proof (firstn_le_length 100 data). lia. }
  rewrite (filter_ext_in _ (fun i => keeps col1 col2 (nth i data [])))
    by (intros i Hi; now rewrite Hn).
  apply map_ext_in. intros i Hi. apply filter_In in Hi.
  now rewrite (Hn i (proj1 Hi)).
Qed.

(** X15: the comparison series holds one point per row, among the first
    100, whose two cells pass the test of the series, in row order; the
    point of the row at position [i] carries the index [i + 1] and, under
    each column's name, the coerced cell (the second column's when both
    names are the same, the index when a column is named [index]). *)
Theorem comparison_series_points (data : list row) (col1 col2 : string) :
  getComparisonData data col1 col2
  = map (fun i => comparison_point_of col1 col2 (nth i data []) i)
        (kept_positions data col1 col2)
  /\ List.length (getComparisonData data col1 col2)
     <= Nat.min 100 (List.length data)
  /\ Forall (fun p =>
               exists i,
                 i < Nat.min 100 (List.length data)
                 /\ keeps col1 col2 (nth i data []) = true
                 /\ obj_get p "index" = Some (of_nat (i + 1))
                 /\ (col2 <> "index" ->
                     obj_get p col2 = Some (coerce (field (nth i data []) col2)))
                 /\ (col1 <> col2 -> col1 <> "index" ->
                     obj_get p col1 = Some (coerce (field (nth i data []) col1))))
            (getComparisonData data col1 col2).
Proof.
  pose proof (getComparisonData_kept data col1 col2) as E.
  split; [exact E|]. split; [apply comparison_length|].
  rewrite E, Forall_forall. intros p Hp. apply in_map_iff in Hp.
  destruct Hp as (i & <- & Hi). unfold kept_positions in Hi.
  apply filter_In in Hi. destruct Hi as [Hi Hk]. apply in_seq in Hi.
  rewrite length_firstn in Hi. exists i.
  split; [lia|]. split; [exact Hk|]. apply comparison_point_of_get.
Qed.

(** X16: when the two cells of every row among the first 100 pass the test
    of the comparison series, no row is dropped: the series has one point
    per row and its indices are 1, 2, 3, ... *)
Theorem comparison_of_clean_columns (data : list row) (col1 col2 : string) :
  (forall r, In r (firstn 100 data) -> keeps col1 col2 r = true) ->
  getComparisonData data col1 col2
  = mapi (comparison_point_of col1 col2) (firstn 100 data)
  /\ List.length (getComparisonData data col1 col2) = Nat.min 100 (List.length data)
  /\ sequential (getComparisonData data col1 col2).
Proof.
  intro H.
  assert (E : forall l k,
             (forall r, In r l -> keeps col1 col2 r = true) ->
             filter_Boolean (mapi_from (comparison_point col1 col2) k l)
             = mapi_from (comparison_point_of col1 col2) k l).
  { induction l as [|r l IH]; intros k Hl; [reflexivity|].
    cbn [mapi_from]. rewrite comparison_point_keeps, (Hl r (or_introl eq_refl)).
    cbn [filter_Boolean]. unfold comparison_point_of at 1. f_equal.
    apply IH. intros r' Hr'. apply Hl. now right. }
  assert (G : getComparisonData data col1 col2
              = mapi (comparison_point_of col1 col2) (firstn 100 data)).
  { unfold getComparisonData, mapi. now apply E. }
  assert (L : List.length (getComparisonData data col1 col2)
              = Nat.min 100 (List.length data)).
  { rewrite G. unfold mapi. now rewrite mapi_from_length, length_firstn. }
  split; [exact G|]. split; [exact L|].
  unfold sequential. rewrite L, G. unfold mapi. rewrite indices_mapi_from.
  - now rewrite length_firstn.
  - intros r idx. apply comparison_point_of_get.
Qed.

Lemma comparison_of_clean_columns_witness :
  getComparisonData xy_data "x" "y"
  = [ [("x", of_Z 1); ("y", of_Z 10); ("index", of_Z 1)];
      [("x", of_Z 2); ("y", of_Z 20); ("index", of_Z 2)] ].
Proof.
  refine (proj1 (@comparison_of_clean_columns xy_data "x" "y" _)).
  intros r [<-|[<-|[]]]; reflexivity.
Defined.

(** ** The object in the reply *)

Lemma free_of_occurs (c : ascii) (a b : string) :
  free_of c (a ++ String c b) -> False.
Proof.
  induction a as [|x a IH]; simpl; intros [H1 H2]; [now apply H1 | now apply IH].
Qed.

Lemma from_first_found (c : ascii) (s t : string) :
  from_first c s = Some t ->
  exists pre r, s = (pre ++ String c r)%string /\ free_of c pre /\ t = String c r.
Proof.
  induction s as [|a s IH]; simpl; [discriminate|].
  destruct (Ascii.eqb_spec a c) as [->|N].
  - intro H. injection H as <-. exists ""%string, s. simpl. auto.
  - intro H. destruct (IH H) as (pre & r & -> & F & ->).
    exists (String a pre), r. simpl. auto.
Qed.

Lemma from_first_at (c : ascii) (pre r : string) :
  free_of c pre -> from_first c (pre ++ String c r) = Some (String c r).
Proof.
  induction pre as [|a pre IH]; simpl.
  - intros _. now rewrite Ascii.eqb_refl.
  - intros [N F]. apply Ascii.eqb_neq in N. rewrite N. now apply IH.
Qed.

Lemma from_first_occurs (c : ascii) (a b : string) :
  exists w, from_first c (a ++ String c b) = Some (w ++ String c b)%string.
Proof.
  induction a as [|x a IH]; simpl.
  - exists ""%string. now rewrite Ascii.eqb_refl.
  - destruct (Ascii.eqb x c) eqn:E; [|exact IH].
    exists (String x a). reflexivity.
Qed.

Lemma upto_last_free (c : ascii) (s : string) :
  upto_last c s = None <-> free_of c s.
Proof.
  induction s as [|a s IH]; simpl; [tauto|].
  destruct (upto_last c s) as [t|].
  - split; [discriminate|]. intros [_ F]. apply IH in F. discriminate F.
  - destruct (Ascii.eqb_spec a c) as [->|N].
    + split; [discriminate | intros [H _]; now elim H].
    + split; [intros _; split; [exact N | now apply IH] | reflexivity].
Qed.

Lemma upto_last_found (c : ascii) (s t : string) :
  upto_last c s = Some t ->
  exists r post, s = (r ++ String c post)%string /\ free_of c post
                 /\ t = (r ++ String c "")%string.
Proof.
  revert t. induction s as [|a s IH]; simpl; [discriminate|]. intro t.
  destruct (upto_last c s) as [t'|] eqn:E.
  - intro H. injection H as <-.
    destruct (IH t' eq_refl) as (r & post & -> & F & ->).
    exists (String a r), post. simpl. auto.
  - destruct (Ascii.eqb_spec a c) as [->|N]; [|discriminate].
    intro H. injection H as <-. exists ""%string, s. simpl.
    split; [reflexivity|]. split; [now apply upto_last_free | reflexivity].
Qed.

Lemma upto_last_at (c : ascii) (r post : string) :
  free_of c post ->
  upto_last c (r ++ String c post) = Some (r ++ String c "")%string.
Proof.
  intro F. induction r as [|a r IH]; simpl.
  - rewrite (proj2 (@upto_last_free c post) F). now rewrite Ascii.eqb_refl.
  - now rewrite IH.
Qed.

Lemma jsonMatch_at (pre mid post : string) :
  free_of "{" pre -> free_of "}" post ->
  jsonMatch (pre ++ "{" ++ mid ++ "}" ++ post) = Some ("{" ++ mid ++ "}")%string.
Proof.
  intros F1 F2. unfold jsonMatch.
  change ("{" ++ mid ++ "}" ++ post)%string
    with (String "{" (mid ++ String "}" post)).
  rewrite (@from_first_at "{" pre _ F1).
  change (String "{" (mid ++ String "}" post))
    with (String "{" mid ++ String "}" post)%string.
  now rewrite (@upto_last_at "}" (String "{" mid) post F2).
Qed.

(** X17: the object looked for in the reply is the text from the first
    opening brace to the last closing brace after it: anything before and
    after is ignored, so an object wrapped in prose that holds no brace of its
    own is found exactly and parsed; nothing is found exactly when no
    opening brace is followed by a closing brace; and what is found matches
    itself.  Unless an object is found and parsed, the whole reply becomes
    the summary of the insights. *)
Theorem json_match_spans_braces (aiText : string) :
  (forall m,
      jsonMatch aiText = Some m <->
      exists pre mid post,
        aiText = (pre ++ "{" ++ mid ++ "}" ++ post)%string
        /\ free_of "{" pre /\ free_of "}" post
        /\ m = ("{" ++ mid ++ "}")%string)
  /\ (jsonMatch aiText = None <->
      forall pre mid post, aiText <> (pre ++ "{" ++ mid ++ "}" ++ post)%string)
  /\ (forall m, jsonMatch aiText = Some m -> jsonMatch m = Some m)
  /\ (forall (J : Type) (JSON_parse : string -> option J) m insights,
        jsonMatch aiText = Some m -> JSON_parse m = Some insights ->
        insights_of_reply JSON_parse aiText = Insights.Parsed insights)
  /\ (forall (J : Type) (JSON_parse : string -> option J),
        (forall m, jsonMatch aiText = Some m -> JSON_parse m = None) ->
        exists f,
          insights_of_reply JSON_parse aiText = Insights.Fallback J f
          /\ Insights.summary f = aiText
          /\ Insights.dataType f = "Unknown"
          /\ Insights.trends f = [] /\ Insights.recommendations f = []).
Proof.
  assert (Found : forall m,
             jsonMatch aiText = Some m ->
             exists pre mid post,
               aiText = (pre ++ "{" ++ mid ++ "}" ++ post)%string
               /\ free_of "{" pre /\ free_of "}" post
               /\ m = ("{" ++ mid ++ "}")%string).
  { intros m H. unfold jsonMatch in H.
    destruct (from_first "{" aiText) as [t|] eqn:E1; [|discriminate].
    apply from_first_found in E1. destruct E1 as (pre & r & -> & F1 & ->).
    apply upto_last_found in H. destruct H as (r' & post & E & F2 & ->).
    destruct r' as [|x mid]; simpl in E.
    - injection E as E _. discriminate E.
    - injection E as <- ->. exists pre, mid, post. auto. }
  split; [|split; [|split; [|split]]].
  - intro m. split; [apply Found|].
    intros (pre & mid & post & -> & F1 & F2 & ->). now apply jsonMatch_at.
  - split.
    + intros H pre mid post E.
      destruct (from_first_occurs "{" pre (mid ++ "}" ++ post)) as [w Hw].
      unfold jsonMatch in H. rewrite E in H.
      change ("{" ++ mid ++ "}" ++ post)%string
        with (String "{" (mid ++ "}" ++ post)) in H.
      rewrite Hw in H.
      change (w ++ String "{" (mid ++ "}" ++ post))%string
        with (w ++ (String "{" mid ++ String "}" post))%string in H.
      rewrite <- append_assoc in H.
      apply upto_last_free in H. now apply free_of_occurs in H.
    + intro H. destruct (jsonMatch aiText) as [m|] eqn:E; [|reflexivity].
      destruct (Found m eq_refl) as (pre & mid & post & E' & _). now elim (H pre mid post).
  - intros m H. destruct (Found m H) as (pre & mid & post & _ & _ & _ & ->).
    apply (@jsonMatch_at "" mid ""); exact I.
  - intros J JSON_parse m insights H1 H2. unfold insights_of_reply.
    now rewrite H1, H2.
  - intros J JSON_parse H. unfold insights_of_reply.
    destruct (jsonMatch aiText) as [m|].
    + rewrite (H m eq_refl). eexists. repeat split.
    + eexists. repeat split.
Qed.

(** ** Columns of integers *)

Section Integers.
Local Open Scope Q_scope.

Lemma inject_Z_lt (a b : Z) : (a < b)%Z -> inject_Z a < inject_Z b.
Proof. intro H. now rewrite <- Zlt_Qlt. Qed.

Lemma inject_Z_le (a b : Z) : (a <= b)%Z -> inject_Z a <= inject_Z b.
Proof. intro H. now rewrite <- Zle_Qle. Qed.

Lemma nearest_integer (z : Z) :
  (0 < z < 2 ^ 53)%Z -> nearest (inject_Z z) == inject_Z z.
Proof.
  intro H. destruct (of_Z_exact H) as (r & E & Hr). unfold of_Z in E.
  assert (P : 0 < inject_Z z) by (apply (@inject_Z_lt 0 z); lia).
  destruct (round64_pos_cases P) as [[E' _]|(r' & E' & Hr' & _)];
    rewrite E' in E; [discriminate|].
  injection E as ->. now rewrite <- Hr'.
Qed.

(** Integers below 2^53 in absolute value are binary64 values. *)
Lemma of_Z_integer (z : Z) :
  (Z.abs z < 2 ^ 53)%Z -> exists r, of_Z z = Fin r /\ r == inject_Z z.
Proof.
  intro H. destruct (Z.lt_trichotomy z 0) as [N|[->|P]].
  - unfold of_Z.
    assert (Q0 : inject_Z z < 0) by exact (@inject_Z_lt z 0 N).
    assert (Q1 : 0 < inject_Z (- z)) by (apply (@inject_Z_lt 0 (- z)); lia).
    assert (Hn : nearest (- inject_Z z) == inject_Z (- z)).
    { rewrite <- (@nearest_integer (- z)%Z) by lia.
      apply nearest_compat; [lra | now rewrite inject_Z_opp]. }
    destruct (round64_neg_cases Q0) as [[_ B]|[[_ B]|(r & E & Hr & _)]].
    + exfalso. rewrite Hn in B.
      assert (inject_Z (- z) < pow2 53)
        by (rewrite pow2_Z by lia; apply inject_Z_lt; lia).
      assert (pow2 53 < pow2 1024) by (apply pow2_lt; lia). lra.
    + exfalso. rewrite Hn in B. lra.
    + exists r. split; [exact E|]. rewrite Hr, Hn, inject_Z_opp. ring.
  - exists 0. split; reflexivity.
  - apply of_Z_exact. lia.
Qed.

Lemma add_integers (a b : Z) :
  (Z.abs a < 2 ^ 53)%Z -> (Z.abs b < 2 ^ 53)%Z ->
  add (of_Z a) (of_Z b) = of_Z (a + b).
Proof.
  intros Ha Hb.
  destruct (@of_Z_integer a Ha) as (r1 & -> & E1).
  destruct (@of_Z_integer b Hb) as (r2 & -> & E2).
  cbn [add]. unfold of_Z. apply round64_compat.
  rewrite E1, E2, inject_Z_plus. reflexivity.
Qed.

Lemma sum_integers (ns : list Z) (acc : Z) :
  (Z.abs acc < 2 ^ 53)%Z -> sums_within acc ns ->
  fold_left add (map of_Z ns) (of_Z acc) = of_Z (acc + sum_Z ns)
  /\ (Z.abs (acc + sum_Z ns) < 2 ^ 53)%Z.
Proof.
  revert acc. induction ns as [|z ns IH]; intros acc Ha H.
  - cbn [map fold_left sum_Z fold_right]. rewrite Z.add_0_r. auto.
  - destruct H as (Hz & Hs & H). cbn [map fold_left].
    rewrite (@add_integers acc z Ha Hz).
    destruct (IH (acc + z)%Z Hs H) as [E B].
    cbn [sum_Z fold_right]. fold (sum_Z ns).
    rewrite Z.add_assoc. auto.
Qed.

Lemma hundredths_integer (z : Z) (r : Q) :
  r == inject_Z z -> hundredths (Fin r) = (100 * z)%Z.
Proof.
  intro E.
  assert (P : pow10 (Z.of_nat 2) == 100) by reflexivity.
  destruct (Z_lt_le_dec z 0) as [N|N].
  - assert (Hr : r < 0) by (rewrite E; exact (@inject_Z_lt z 0 N)).
    rewrite (proj2 (hundredths_Fin r) Hr). unfold fixed_digits.
    rewrite (@Qfloor_unique _ (100 * - z)%Z); [lia| |].
    + rewrite P, E, inject_Z_mult, inject_Z_opp.
      change (inject_Z 100) with 100. lra.
    + rewrite P, E, inject_Z_mult, inject_Z_opp.
      change (inject_Z 100) with 100. lra.
  - assert (Hr : 0 <= r) by (rewrite E; exact (@inject_Z_le 0 z N)).
    rewrite (proj1 (hundredths_Fin r) Hr). unfold fixed_digits.
    apply Qfloor_unique.
    + rewrite P, E, inject_Z_mult. change (inject_Z 100) with 100. lra.
    + rewrite P, E, inject_Z_mult. change (inject_Z 100) with 100. lra.
Qed.

Lemma integer_cells_numeric (ns : list Z) :
  Forall (fun z => (Z.abs z < 2 ^ 53)%Z) ns ->
  let cells := map (fun n => CNum (of_Z n)) ns in
  filter non_empty cells = cells
  /\ filter is_numeric_value cells = cells
  /\ map coerce cells = map of_Z ns.
Proof.
  intros H cells. unfold cells.
  induction H as [|z ns Hz Hns (IH1 & IH2 & IH3)]; [repeat split|].
  destruct (@of_Z_integer z Hz) as (r & E & _).
  cbn [map filter]. rewrite E.
  cbn [non_empty not_null not_blank not_undefined andb is_numeric_value isNaN
       ToNumber is_nan negb is_string orb coerce].
  rewrite <- E, IH1, IH2, IH3. repeat split.
Qed.

Lemma sums_within_each (acc : Z) (ns : list Z) :
  sums_within acc ns -> Forall (fun z => (Z.abs z < 2 ^ 53)%Z) ns.
Proof.
  revert acc. induction ns as [|z ns IH]; intros acc H; constructor.
  - apply H.
  - apply (IH (acc + z)%Z). apply H.
Qed.

(** X18: a column of integer cells is summed exactly as long as the
    integers and the running sums stay below 2^53 in absolute value: the
    column is NUMERIC, [count] is the number of cells, [sum] prints the
    integer sum with two zero decimals after it, and [mean] prints the
    quotient of that sum by the count, rounded once. *)
Theorem integer_column_sum_exact (ns : list Z) :
  sums_within 0 ns -> ns <> [] ->
  let s := sum_Z ns in
  exists p,
    analyzeColumn (map (fun n => CNum (of_Z n)) ns) = Numeric p
    /\ Profile.count p = List.length ns
    /\ sum_of (map of_Z ns) = of_Z s
    /\ val (of_Z s) == inject_Z s
    /\ Profile.sum p
       = ((if (s <? 0)%Z then "-" else "") ++ show_fixed 2 (100 * Z.abs s))%string
    /\ Profile.mean p = toFixed 2 (div (of_Z s) (of_nat (List.length ns))).
Proof.
  intros H Hne s.
  assert (H0 : (Z.abs 0 < 2 ^ 53)%Z) by reflexivity.
  destruct (@sum_integers ns 0%Z H0 H) as [Hsum Hb].
  rewrite Z.add_0_l in Hsum, Hb. fold s in Hsum, Hb.
  change (of_Z 0) with zero in Hsum. fold (sum_of (map of_Z ns)) in Hsum.
  destruct (@integer_cells_numeric ns (@sums_within_each 0%Z ns H)) as (C1 & C2 & C3).
  set (cells := map (fun n => CNum (of_Z n)) ns) in *.
  assert (Hlen : List.length cells = List.length ns)
    by (unfold cells; now rewrite length_map).
  assert (Hpos : (0 < List.length ns)%nat)
    by (destruct ns; [congruence | simpl; lia]).
  destruct (@of_Z_integer s Hb) as (r & Er & Hr).
  exists (numericProfile cells). split.
  { unfold analyzeColumn. rewrite C1, C2.
    assert (M : mostly_numeric cells cells = true)
      by (apply mostly_numeric_true; lia).
    now rewrite M. }
  cbn [numericProfile Profile.count Profile.sum Profile.mean].
  rewrite C3, Hsum, length_map. unfold mean_of. rewrite Hsum, length_map.
  split; [reflexivity|]. split; [reflexivity|].
  split; [rewrite Er; exact Hr|]. split; [|reflexivity].
  assert (Hh : hundredths (of_Z s) = (100 * s)%Z)
    by (rewrite Er; exact (@hundredths_integer s r Hr)).
  rewrite toFixed_hundredths, Hh.
  - assert (Hl : ltb (of_Z s) zero = (s <? 0)%Z).
    { rewrite Er. unfold ltb. cbn [compare zero].
      destruct (Z.ltb_spec s 0) as [N|N].
      - assert (r < 0) by (rewrite Hr; exact (@inject_Z_lt s 0 N)).
        now rewrite (proj1 (Qlt_alt r 0) H1).
      - assert (0 <= r) by (rewrite Hr; exact (@inject_Z_le 0 s N)).
        destruct (Qcompare_spec r 0); auto. lra. }
    rewrite Hl.
    replace (Z.abs (100 * s)) with (100 * Z.abs s)%Z by lia.
    destruct (Z.ltb_spec s 0) as [N|N].
    + replace (100 * s <? 0)%Z with true by (symmetry; apply Z.ltb_lt; lia).
      reflexivity.
    + replace (100 * s <? 0)%Z with false by (symmetry; apply Z.ltb_ge; lia).
      reflexivity.
  - now rewrite Er.
  - rewrite Er. cbn [val]. rewrite Hr.
    assert (B1 : Qabs (inject_Z s) < inject_Z (2 ^ 53)).
    { apply Qabs_case; intros _; [|rewrite <- inject_Z_opp];
        apply inject_Z_lt; lia. }
    assert (B2 : inject_Z (2 ^ 53) < pow10 21) by reflexivity.
    lra.
Qed.

Lemma integer_column_sum_exact_witness :
  exists p,
    analyzeColumn (map (fun n => CNum (of_Z n)) [3; -5; 12]%Z) = Numeric p
    /\ Profile.count p = 3%nat
    /\ sum_of (map of_Z [3; -5; 12]%Z) = of_Z 10
    /\ val (of_Z 10) == 10
    /\ Profile.sum p = "10.00"%string
    /\ Profile.mean p = toFixed 2 (div (of_Z 10) (of_nat 3)).
Proof.
  refine (@integer_column_sum_exact [3; -5; 12]%Z _ _).
  - cbn [sums_within]. repeat split; reflexivity.
  - discriminate.
Defined.

End Integers.

(** ** The statistics and the series agree on the numbers *)

Lemma counted_plots (v : cell) :
  counted v = true -> plots v = true /\ is_nan (coerce v) = false.
Proof.
  unfold counted. rewrite andb_true_iff. intros [Hne Hnum].
  destruct v as [| |x|s|name]; try discriminate Hne.
  - unfold is_numeric_value, isNaN in Hnum. unfold plots, isNaN. simpl in *.
    destruct (is_nan x); [discriminate Hnum | auto].
  - rewrite numeric_string in Hnum. apply andb_true_iff in Hnum.
    destruct Hnum as [Hp Hf]. unfold plots, isNaN. cbn [ToNumber not_null coerce JsString].
    split; [|now apply negb_true_iff].
    destruct (StringToNumber s); try discriminate Hf;
      destruct s; try discriminate Hne; reflexivity.
  - discriminate Hnum.
Qed.

Lemma numbers_of_counted (cells : list cell) :
  numbers_of cells = map coerce (filter counted cells).
Proof.
  unfold numbers_of, counted. f_equal.
  induction cells as [|v cells IH]; [reflexivity|]. cbn [filter].
  destruct (non_empty v); cbn [filter andb]; [|exact IH].
  destruct (is_numeric_value v); now rewrite IH.
Qed.

(** X19: the statistics and the series read the same numbers: the
    statistics of a NUMERIC column are computed from the coerced values of
    its counted cells; within the first 50 rows each counted cell of a
    tracked column is plotted in the line series with that same number,
    never NaN; and a row among the first 100 whose two cells are counted is
    a point of the comparison series. *)
Theorem counted_values_are_plotted
        (data : list row) (columns : list string) (col1 col2 : string) (i : nat) :
  let r := nth i data [] in
  (forall col p,
      analyzeColumn (column_cells data col) = Numeric p ->
      p = numericProfile (filter counted (column_cells data col))
      /\ numbers_of (column_cells data col)
         = map coerce (filter counted (column_cells data col)))
  /\ (forall col,
        i < Nat.min 50 (List.length data) -> In col columns ->
        counted (field r col) = true ->
        obj_get (nth i (getLineChartData data columns) []) col
        = Some (coerce (field r col))
        /\ is_nan (coerce (field r col)) = false)
  /\ (i < Nat.min 100 (List.length data) ->
      counted (field r col1) = true -> counted (field r col2) = true ->
      In (comparison_point_of col1 col2 r i) (getComparisonData data col1 col2)).
Proof.
  intro r. split; [|split].
  - intros col p H. apply analyzeColumn_numeric in H. destruct H as [-> _].
    split; [|apply numbers_of_counted].
    f_equal. unfold counted.
    induction (column_cells data col) as [|v cells IH]; [reflexivity|].
    cbn [filter]. destruct (non_empty v); cbn [filter andb]; [|exact IH].
    destruct (is_numeric_value v); now rewrite IH.
  - intros col Hi Hcol Hc. destruct (counted_plots _ Hc) as [Hp Hn].
    split; [|exact Hn].
    unfold getLineChartData, mapi.
    rewrite (@nth_mapi_from row point _ (firstn 50 data) 0 i [] [])
      by (rewrite length_firstn; exact Hi).
    rewrite nth_firstn_lt by lia. fold r. cbv beta.
    rewrite line_point_column by assumption. now rewrite Hp.
  - intros Hi H1 H2. rewrite getComparisonData_kept.
    apply in_map_iff. exists i. split; [reflexivity|].
    unfold kept_positions. apply filter_In. split.
    + apply in_seq. rewrite length_firstn. lia.
    + fold r. unfold keeps.
      destruct (counted_plots _ H1) as [P1 _]. destruct (counted_plots _ H2) as [P2 _].
      unfold plots in P1, P2. rewrite !andb_true_iff in P1, P2.
      destruct P1 as [[A1 B1] _]. destruct P2 as [[A2 B2] _].
      now rewrite A1, A2, B1, B2.
Qed.

(** ** The order of the rows *)

Lemma stringified_perm (cells cells' : list cell) :
  Permutation cells cells' -> Permutation (stringified cells) (stringified cells').
Proof. intro H. unfold stringified. now apply Permutation_map, Permutation_filter. Qed.

Lemma occurrences_perm (k : string) (l l' : list string) :
  Permutation l l' -> occurrences k l = occurrences k l'.
Proof. intro H. unfold occurrences. now apply Permutation_length, Permutation_filter. Qed.

Lemma seen_perm (k : string) (l l' : list string) :
  Permutation l l' -> seen l k = seen l' k.
Proof.
  intro H. destruct (seen l' k) eqn:E.
  - apply seen_In. apply seen_In in E. now apply (Permutation_in _ (Permutation_sym H)).
  - apply seen_false. apply seen_false in E. intro F. apply E.
    now apply (Permutation_in _ H).
Qed.

Lemma analyzeColumn_perm_counts (cells cells' : list cell) :
  Permutation cells cells' ->
  mostly_numeric (filter non_empty cells)
                 (filter is_numeric_value (filter non_empty cells))
  = mostly_numeric (filter non_empty cells')
                   (filter is_numeric_value (filter non_empty cells')).
Proof.
  intro H. apply mostly_numeric_lengths;
    apply Permutation_length; repeat apply Permutation_filter; exact H.
Qed.

Lemma most_common_count (values : list cell) (m : string * tallied) :
  no_member_name (map JsString values) = true ->
  Profile.mostCommon (categoricalProfile values) = Some m ->
  In (fst m) (map JsString values)
  /\ snd m = Times (occurrences (fst m) (map JsString values))
  /\ forall k, occurrences k (map JsString values) <= times (snd m).
Proof.
  cbn [categoricalProfile Profile.mostCommon]. intros Hfree H.
  rewrite (entries_counts values Hfree) in H.
  apply sorted_head_greatest in H. destruct H as (n & Hn & Hin & Hmax).
  assert (Hin' : In (fst m, n) (tally_table (map JsString values)))
    by (apply (Permutation_in _ (own_entries_perm _)); exact Hin).
  apply tally_table_In in Hin'. cbn [fst snd] in Hin'. destruct Hin' as [Hk Hc].
  split; [exact Hk|]. split; [now rewrite Hn, Hc|]. intro k.
  rewrite Hn. cbn [times].
  destruct (seen (map JsString values) k) eqn:S.
  - apply seen_In in S.
    apply (Hmax (k, occurrences k (map JsString values))).
    apply (Permutation_in _ (Permutation_sym (own_entries_perm _))).
    apply tally_table_In. now split.
  - apply seen_false in S. rewrite (@occurrences_absent k _ S). lia.
Qed.

Lemma most_common_none (values : list cell) :
  no_member_name (map JsString values) = true ->
  Profile.mostCommon (categoricalProfile values) = None <-> values = [].
Proof.
  intro Hfree. cbn [categoricalProfile Profile.mostCommon].
  assert (E : sort gt_count (entries (frequencies values)) = [] <-> values = []).
  { rewrite sorted_entries_nil. split.
    - intro H. destruct values as [|v values]; [reflexivity|]. exfalso.
      assert (Hv : In (JsString v) (map JsString (v :: values))) by now left.
      apply (proj1 (no_member_name_spec _) Hfree) in Hv.
      rewrite (H v (or_introl eq_refl)) in Hv. discriminate Hv.
    - intros -> v []. }
  rewrite <- E.
  destruct (sort gt_count (entries (frequencies values))); split;
    intro H; try reflexivity; discriminate H.
Qed.

Lemma no_member_name_perm (l l' : list string) :
  Permutation l l' -> no_member_name l = true -> no_member_name l' = true.
Proof.
  intros HP. rewrite !no_member_name_spec. intros H k Hk. apply H.
  now apply (Permutation_in _ (Permutation_sym HP)).
Qed.

(** X20: the profile of a CATEGORICAL column none of whose values
    stringifies to the name of a member of [Object.prototype] does not
    depend on the order of the rows, except for which of several equally
    frequent values is named most common: after any reordering the column is
    still CATEGORICAL, with the same [total], the same [unique], the same
    count under every key of [distribution], and a most common entry of the
    same count. *)
Theorem categorical_profile_order_independent
        (cells cells' : list cell) (p : Profile.categorical_profile) :
  Permutation cells cells' ->
  analyzeColumn cells = Categorical p ->
  no_member_name (stringified cells) = true ->
  exists p',
    analyzeColumn cells' = Categorical p'
    /\ Profile.total p' = Profile.total p
    /\ Profile.unique p' = Profile.unique p
    /\ (forall k, obj_get (Profile.distribution p') k
                  = obj_get (Profile.distribution p) k)
    /\ option_map snd (Profile.mostCommon p') = option_map snd (Profile.mostCommon p).
Proof.
  intros HP H Hfree. pose proof (analyzeColumn_perm_counts HP) as Hc.
  unfold analyzeColumn in *.
  destruct (mostly_numeric (filter non_empty cells) _) eqn:E; [discriminate|].
  injection H as <-. rewrite <- Hc.
  exists (categoricalProfile (filter non_empty cells')). split; [reflexivity|].
  set (values := filter non_empty cells). set (values' := filter non_empty cells').
  assert (HS : Permutation (map JsString values) (map JsString values'))
    by (apply (stringified_perm HP)).
  assert (Hfree1 : no_member_name (map JsString values) = true) by exact Hfree.
  assert (Hfree2 : no_member_name (map JsString values') = true)
    by (exact (no_member_name_perm HS Hfree1)).
  assert (Hget : forall vs k, no_member_name (map JsString vs) = true ->
                   obj_get (frequencies vs) k
                   = if seen (map JsString vs) k
                     then Some (Times (occurrences k (map JsString vs))) else None).
  { intros vs k Hvs. rewrite (frequencies_table vs Hvs).
    unfold as_counts, tally_table. rewrite map_map. cbn [fst snd].
    now rewrite (obj_get_table (fun k => Times (occurrences k (map JsString vs)))),
                seen_first_occ. }
  split; [|split; [|split]].
  - cbn [categoricalProfile Profile.total].
    symmetry. apply Permutation_length. now apply Permutation_filter.
  - cbn [categoricalProfile Profile.unique].
    rewrite !(Permutation_length (keys_perm _)),
            (frequencies_table values Hfree1), (frequencies_table values' Hfree2),
            !as_counts_keys, !tally_table_keys.
    symmetry. apply Permutation_length, NoDup_Permutation;
      try apply first_occ_NoDup.
    intro k. rewrite !first_occ_In. split; apply Permutation_in; auto.
    now apply Permutation_sym.
  - intro k. cbn [categoricalProfile Profile.distribution].
    rewrite (Hget values' k Hfree2), (Hget values k Hfree1),
            (seen_perm k HS), (occurrences_perm k HS). reflexivity.
  - destruct (Profile.mostCommon (categoricalProfile values)) as [m|] eqn:M;
      destruct (Profile.mostCommon (categoricalProfile values')) as [m'|] eqn:M';
      cbn [option_map].
    + apply (most_common_count values Hfree1) in M.
      apply (most_common_count values' Hfree2) in M'.
      destruct M as (_ & C & Hmax). destruct M' as (_ & C' & Hmax').
      rewrite C in Hmax. rewrite C' in Hmax'. cbn [times] in Hmax, Hmax'.
      rewrite C, C'. do 2 f_equal. apply Nat.le_antisymm.
      * rewrite <- (occurrences_perm (fst m') HS). apply Hmax.
      * rewrite (occurrences_perm (fst m) HS). apply Hmax'.
    + exfalso. apply (most_common_none values' Hfree2) in M'.
      assert (V : values = []).
      { apply Permutation_nil. apply Permutation_sym.
        rewrite <- M'. unfold values, values'. now apply Permutation_filter. }
      apply (most_common_none values Hfree1) in V. congruence.
    + exfalso. apply (most_common_none values Hfree1) in M.
      assert (V : values' = []).
      { apply Permutation_nil. rewrite <- M.
        unfold values, values'. now apply Permutation_filter. }
      apply (most_common_none values' Hfree2) in V. congruence.
    + reflexivity.
Qed.

Lemma categorical_profile_order_independent_witness :
  no_member_name (stringified tied_cells) = true
  /\ exists p',
    analyzeColumn [CNum (of_Z 7); CStr "b"] = Categorical p'
    /\ Profile.total p' = 2
    /\ Profile.unique p' = 2
    /\ (forall k, obj_get (Profile.distribution p') k
                  = obj_get (Profile.distribution (categoricalProfile tied_cells)) k)
    /\ option_map snd (Profile.mostCommon p') = Some (Times 1).
Proof.
  split; [reflexivity|].
  exact (@categorical_profile_order_independent
           tied_cells [CNum (of_Z 7); CStr "b"] (categoricalProfile tied_cells)
           (perm_swap (CNum (of_Z 7)) (CStr "b") []) eq_refl eq_refl).
Defined.

Section NumberKeys.
Local Open Scope Q_scope.

Lemma key_finite (x : number) :
  is_finite x = true -> key x = (0%Z, Qred (val x)).
Proof. destruct x as [|s| |q]; try discriminate; reflexivity. Qed.

Lemma key_finite_eq (x y : number) :
  is_finite x = true -> is_finite y = true ->
  key x = key y <-> val x == val y.
Proof.
  intros Fx Fy. rewrite (key_finite x Fx), (key_finite y Fy). split.
  - intro H. injection H as H. now apply Qred_eq_iff.
  - intro H. f_equal. now apply Qred_complete.
Qed.

Lemma key_class (x y : number) :
  key x = key y -> is_finite x = is_finite y /\ is_nan x = is_nan y.
Proof.
  destruct x as [|[|]| |p], y as [|[|]| |q]; simpl; intro H;
    try discriminate H; auto.
Qed.

Lemma key_not_finite (x y : number) :
  key x = key y -> is_finite x = false -> x = y.
Proof.
  destruct x as [|[|]| |p], y as [|[|]| |q]; simpl; intros H F;
    try discriminate H; try discriminate F; reflexivity.
Qed.

Lemma leb_key (x y : number) : leb x y = true -> key_le (key x) (key y).
Proof.
  unfold leb, key_le.
  destruct x as [|[|]| |p], y as [|[|]| |q]; cbn [compare key fst snd Bool.eqb];
    intro H; try discriminate H; try (left; reflexivity);
    right; (split; [reflexivity|]); try apply Qle_refl.
  - rewrite Qred_le. destruct (Qcompare_spec 0 q); try discriminate H; lra.
  - rewrite Qred_le. destruct (Qcompare_spec p 0); try discriminate H; lra.
  - rewrite Qred_le. destruct (Qcompare_spec p q); try discriminate H; lra.
Qed.

Lemma key_le_antisym (x y : number) :
  key_le (key x) (key y) -> key_le (key y) (key x) -> key x = key y.
Proof.
  unfold key_le. intros [H1|[E1 L1]] [H2|[E2 L2]]; try lia.
  destruct (key x) as [c v] eqn:Kx, (key y) as [d w] eqn:Ky. simpl in *. subst d.
  f_equal.
  assert (Hv : v = Qred v).
  { destruct x as [|[|]| |p]; injection Kx as <- <-;
      try reflexivity; symmetry; apply Qred_complete, Qred_correct. }
  assert (Hw : w = Qred w).
  { destruct y as [|[|]| |q]; injection Ky as <- <-;
      try reflexivity; symmetry; apply Qred_complete, Qred_correct. }
  rewrite Hv, Hw. apply Qred_complete. lra.
Qed.

Lemma leb_both_key (x y : number) :
  leb x y = true -> leb y x = true -> key x = key y.
Proof. intros H1 H2. apply key_le_antisym; now apply leb_key. Qed.

(** Two sorted lists with the same elements are equal when the order is
    antisymmetric on these elements. *)
Lemma sorted_perm_unique {K} (R : K -> K -> Prop) (l1 l2 : list K) :
  (forall a b, In a l1 -> In b l1 -> R a b -> R b a -> a = b) ->
  StronglySorted R l1 -> StronglySorted R l2 -> Permutation l1 l2 -> l1 = l2.
Proof.
  revert l2. induction l1 as [|a t1 IH]; intros l2 Anti S1 S2 HP.
  - apply Permutation_nil in HP. now subst.
  - destruct l2 as [|b t2];
      [apply Permutation_sym, Permutation_nil in HP; discriminate HP|].
    inversion S1 as [|? ? S1' A1]; subst. inversion S2 as [|? ? S2' A2]; subst.
    rewrite Forall_forall in A1, A2.
    assert (Hb : In b (a :: t1))
      by (apply (Permutation_in _ (Permutation_sym HP)); now left).
    assert (Ha : In a (b :: t2)) by (apply (Permutation_in _ HP); now left).
    assert (E : a = b).
    { destruct Hb as [Hb|Hb]; [exact Hb|].
      destruct Ha as [Ha|Ha]; [now symmetry|].
      apply Anti; [now left | now right | now apply A1 | now apply A2]. }
    subst b. f_equal. apply IH; auto.
    + intros x y Hx Hy. apply Anti; now right.
    + now apply Permutation_cons_inv in HP.
Qed.

Lemma sorted_perm_keys (l1 l2 : list number) :
  StronglySorted (fun a b => leb a b = true) l1 ->
  StronglySorted (fun a b => leb a b = true) l2 ->
  Permutation l1 l2 -> map key l1 = map key l2.
Proof.
  intros S1 S2 HP. apply (@sorted_perm_unique _ key_le).
  - intros a b Ha Hb. apply in_map_iff in Ha, Hb.
    destruct Ha as (x & <- & _). destruct Hb as (y & <- & _).
    apply key_le_antisym.
  - apply (sorted_map (R := fun a b => leb a b = true)); [apply leb_key | exact S1].
  - apply (sorted_map (R := fun a b => leb a b = true)); [apply leb_key | exact S2].
  - now apply Permutation_map.
Qed.

Lemma at_index_key (l1 l2 : list number) (i : nat) :
  map key l1 = map key l2 -> key (at_index l1 i) = key (at_index l2 i).
Proof.
  intro H. unfold at_index.
  rewrite <- !(map_nth key). now rewrite H.
Qed.

Lemma same_number_compat (x : number) (q q' : Q) :
  q == q' -> same_number x q = same_number x q'.
Proof. intro H. destruct x; simpl; auto. now rewrite H. Qed.

Lemma shortest_compat (fuel : nat) (k n : Z) (q q' : Q) :
  q == q' -> shortest fuel k n q = shortest fuel k n q'.
Proof.
  intro H. revert k. induction fuel as [|fuel IH]; intro k; cbn [shortest]; cbv zeta.
  - assert (E1 : Qfloor (q / pow10 (n - k)) = Qfloor (q' / pow10 (n - k)))
      by now rewrite H.
    assert (E3 : forall lo hi,
               Qcompare (q / pow10 (n - k) - lo) (hi - q / pow10 (n - k))
               = Qcompare (q' / pow10 (n - k) - lo) (hi - q' / pow10 (n - k)))
      by (intros; now rewrite H).
    rewrite <- E1, <- E3, <- !(@same_number_compat _ q q' H). reflexivity.
  - assert (E1 : Qfloor (q / pow10 (n - k)) = Qfloor (q' / pow10 (n - k)))
      by now rewrite H.
    assert (E3 : forall lo hi,
               Qcompare (q / pow10 (n - k) - lo) (hi - q / pow10 (n - k))
               = Qcompare (q' / pow10 (n - k) - lo) (hi - q' / pow10 (n - k)))
      by (intros; now rewrite H).
    rewrite <- E1, <- E3, <- !(@same_number_compat _ q q' H), <- IH. reflexivity.
Qed.

Lemma ilog10_compat (a b : Q) : 0 < a -> a == b -> ilog10 a = ilog10 b.
Proof.
  intros Ha H. unfold ilog10. rewrite <- (ilog2_compat Ha H).
  assert (E : forall x, Qle_bool x a = Qle_bool x b) by (intro x; now rewrite H).
  now rewrite <- !E.
Qed.

Lemma show_positive_compat (a b : Q) : 0 < a -> a == b -> show_positive a = show_positive b.
Proof.
  intros Ha H. unfold show_positive.
  now rewrite <- (ilog10_compat Ha H), <- (@shortest_compat 16 1 (ilog10 a + 1) a b H).
Qed.

(** [toFixed] prints numbers of the same value alike. *)
Lemma toFixed_key (f : nat) (x y : number) :
  key x = key y -> toFixed f x = toFixed f y.
Proof.
  intro H. destruct (is_finite x) eqn:Fx.
  2:{ now rewrite (key_not_finite x y H Fx). }
  assert (Fy : is_finite y = true) by (rewrite <- (proj1 (key_class x y H)); exact Fx).
  apply (key_finite_eq x y Fx Fy) in H.
  assert (Zero : forall q, q == 0 -> toFixed f (Fin q) = show_fixed f 0).
  { intros q E. unfold toFixed.
    assert (A : Qabs q == 0) by (rewrite E; reflexivity).
    rewrite (proj1 (Qeq_alt q 0) E).
    assert (B : Qle_bool (pow10 21) (Qabs q) = false) by (now rewrite A).
    rewrite B. unfold fixed_digits.
    assert (C : Qabs q * pow10 (Z.of_nat f) + (1 # 2) == 1 # 2) by (rewrite A; ring).
    rewrite C. reflexivity. }
  destruct x as [|s| |p]; try discriminate Fx;
    destruct y as [|t| |q]; try discriminate Fy; cbn [val] in H.
  - reflexivity.
  - symmetry. apply Zero. now symmetry.
  - now apply Zero.
  - unfold toFixed.
    assert (A : Qabs p == Qabs q) by now rewrite H.
    rewrite <- (Qcompare_comp p q H 0 0 (Qeq_refl 0)).
    assert (B : Qle_bool (pow10 21) (Qabs p) = Qle_bool (pow10 21) (Qabs q))
      by now rewrite A.
    rewrite <- B. destruct (Qle_bool (pow10 21) (Qabs p)) eqn:Big.
    + f_equal. apply show_positive_compat; [|exact A].
      apply Qle_bool_iff in Big.
      assert (0 < pow10 21) by reflexivity. lra.
    + unfold fixed_digits. now rewrite A.
Qed.

Lemma key_round (q q' : Q) :
  representable q = true -> q' == q -> key (round64 q') = key (Fin q).
Proof.
  intros V E. rewrite (@round64_compat q' q E).
  destruct (@representable_round q V) as (r & -> & Hr).
  cbn [key]. f_equal. now apply Qred_complete.
Qed.

(** Addition respects the value of valid numbers. *)
Lemma add_key (a a' b b' : number) :
  valid a = true -> valid a' = true -> valid b = true -> valid b' = true ->
  key a = key a' -> key b = key b' -> key (add a b) = key (add a' b').
Proof.
  intros Va Va' Vb Vb' Ka Kb.
  destruct (is_finite a) eqn:Fa.
  2:{ rewrite <- (key_not_finite a a' Ka Fa).
      destruct (is_finite b) eqn:Fb.
      - assert (Fb' : is_finite b' = true)
          by (rewrite <- (proj1 (key_class b b' Kb)); exact Fb).
        destruct a as [|s| |p]; try discriminate Fa;
          destruct b as [|t| |q]; try discriminate Fb;
          destruct b' as [|t'| |q']; try discriminate Fb'; reflexivity.
      - now rewrite <- (key_not_finite b b' Kb Fb). }
  assert (Fa' : is_finite a' = true)
    by (rewrite <- (proj1 (key_class a a' Ka)); exact Fa).
  destruct (is_finite b) eqn:Fb.
  2:{ rewrite <- (key_not_finite b b' Kb Fb).
      destruct a as [|s| |p]; try discriminate Fa;
        destruct a' as [|s'| |p']; try discriminate Fa';
        destruct b as [|t| |q]; try discriminate Fb; reflexivity. }
  assert (Fb' : is_finite b' = true)
    by (rewrite <- (proj1 (key_class b b' Kb)); exact Fb).
  apply (key_finite_eq a a' Fa Fa') in Ka. apply (key_finite_eq b b' Fb Fb') in Kb.
  assert (Sum : forall x y, is_finite x = true -> is_finite y = true ->
                  valid x = true -> valid y = true ->
                  key (add x y) = key (round64 (val x + val y))).
  { intros x y Fx Fy Vx Vy.
    destruct x as [|s| |p]; try discriminate Fx;
      destruct y as [|t| |q]; try discriminate Fy; cbn [add val valid] in *.
    - reflexivity.
    - symmetry. apply key_round; [exact Vy | ring].
    - symmetry. apply key_round; [exact Vx | ring].
    - reflexivity. }
  rewrite (Sum a b Fa Fb Va Vb), (Sum a' b' Fa' Fb' Va' Vb').
  f_equal. apply round64_compat. now rewrite Ka, Kb.
Qed.

(** Halving respects the value. *)
Lemma half_key (x y : number) :
  key x = key y -> key (div x (of_Z 2)) = key (div y (of_Z 2)).
Proof.
  intro H. rewrite of_Z_two.
  destruct (is_finite x) eqn:Fx.
  2:{ now rewrite (key_not_finite x y H Fx). }
  assert (Fy : is_finite y = true) by (rewrite <- (proj1 (key_class x y H)); exact Fx).
  apply (key_finite_eq x y Fx Fy) in H.
  assert (Half : forall z, is_finite z = true ->
                   key (div z (Fin 2)) = key (round64 (val z / 2))).
  { intros z Fz. destruct z as [|s| |p]; try discriminate Fz.
    - reflexivity.
    - cbn [div is_zero val]. change (Qeq_bool 2 0) with false. cbv iota.
      destruct (Qeq_bool p 0) eqn:Z0.
      + apply Qeq_bool_eq in Z0.
        assert (E : p / 2 == 0) by (rewrite Z0; reflexivity).
        rewrite (round64_zero E). unfold sign_neg.
        rewrite (proj1 (Qeq_alt p 0) Z0). reflexivity.
      + reflexivity. }
  rewrite (Half x Fx), (Half y Fy). f_equal. apply round64_compat. now rewrite H.
Qed.

End NumberKeys.

Lemma numbers_of_perm (cells cells' : list cell) :
  Permutation cells cells' -> Permutation (numbers_of cells) (numbers_of cells').
Proof.
  intro H. unfold numbers_of. now apply Permutation_map; repeat apply Permutation_filter.
Qed.

Lemma perm_not_nil {A} (l l' : list A) : Permutation l l' -> l <> [] -> l' <> [].
Proof.
  intros HP Hne E. subst l'. apply Permutation_sym, Permutation_nil in HP. contradiction.
Qed.

Lemma Math_min_key (l l' : list number) :
  no_nan l -> l <> [] -> Permutation l l' -> key (Math_min l) = key (Math_min l').
Proof.
  intros Hnn Hne HP.
  assert (Hnn' : no_nan l') by (exact (Permutation_Forall HP Hnn)).
  destruct (Math_min_least Hnn Hne) as [I1 L1].
  destruct (Math_min_least Hnn' (perm_not_nil HP Hne)) as [I2 L2].
  apply leb_both_key.
  - apply L1. now apply (Permutation_in _ (Permutation_sym HP)).
  - apply L2. now apply (Permutation_in _ HP).
Qed.

Lemma Math_max_key (l l' : list number) :
  no_nan l -> l <> [] -> Permutation l l' -> key (Math_max l) = key (Math_max l').
Proof.
  intros Hnn Hne HP.
  assert (Hnn' : no_nan l') by (exact (Permutation_Forall HP Hnn)).
  destruct (Math_max_greatest Hnn Hne) as [I1 L1].
  destruct (Math_max_greatest Hnn' (perm_not_nil HP Hne)) as [I2 L2].
  apply leb_both_key.
  - apply L2. now apply (Permutation_in _ HP).
  - apply L1. now apply (Permutation_in _ (Permutation_sym HP)).
Qed.

Lemma at_index_valid (l : list number) (i : nat) :
  Forall (fun x => valid x = true) l -> valid (at_index l i) = true.
Proof.
  intro H. unfold at_index. destruct (nth_in_or_default i l NaN) as [Hin|E].
  - rewrite Forall_forall in H. now apply H.
  - now rewrite E.
Qed.

Lemma median_key (l l' : list number) :
  no_nan l -> Forall (fun x => valid x = true) l -> Permutation l l' ->
  key (median_of l) = key (median_of l').
Proof.
  intros Hnn Hv HP.
  assert (Hnn' : no_nan l') by (exact (Permutation_Forall HP Hnn)).
  assert (Hv' : Forall (fun x => valid x = true) l')
    by (exact (Permutation_Forall HP Hv)).
  assert (K : map key (sort gt_number l) = map key (sort gt_number l')).
  { apply sorted_perm_keys; try now apply sort_numbers_ascending.
    etransitivity; [apply sort_perm|].
    etransitivity; [exact HP | apply Permutation_sym, sort_perm]. }
  assert (Vs : Forall (fun x => valid x = true) (sort gt_number l))
    by (exact (Permutation_Forall (Permutation_sym (sort_perm gt_number l)) Hv)).
  assert (Vs' : Forall (fun x => valid x = true) (sort gt_number l'))
    by (exact (Permutation_Forall (Permutation_sym (sort_perm gt_number l')) Hv')).
  unfold median_of. cbv zeta.
  rewrite !sort_length, <- (Permutation_length HP).
  destruct (List.length l mod 2 =? 0).
  - apply half_key. apply add_key; try now apply at_index_valid.
    + now apply at_index_key.
    + now apply at_index_key.
  - now apply at_index_key.
Qed.

(** X21: the count, the least value, the greatest value and the median of a
    NUMERIC column do not depend on the order of the rows: after any
    reordering of a column of binary64 numbers the column is still NUMERIC
    and these four statistics print the same.  (The sum and the mean are
    accumulated in row order and carry no such guarantee.) *)
Theorem numeric_profile_order_independent
        (cells cells' : list cell) (p : Profile.numeric_profile) :
  Permutation cells cells' ->
  forallb valid_cell cells = true ->
  analyzeColumn cells = Numeric p ->
  exists p',
    analyzeColumn cells' = Numeric p'
    /\ Profile.count p' = Profile.count p
    /\ Profile.min p' = Profile.min p
    /\ Profile.max p' = Profile.max p
    /\ Profile.median p' = Profile.median p.
Proof.
  intros HP Hvalid H. pose proof (analyzeColumn_perm_counts HP) as Hc.
  pose proof H as H0. apply analyzeColumn_numeric in H0. destruct H0 as [-> Hpos].
  unfold analyzeColumn in *.
  destruct (mostly_numeric (filter non_empty cells) _) eqn:E; [|discriminate].
  rewrite <- Hc.
  exists (numericProfile (filter is_numeric_value (filter non_empty cells'))).
  split; [reflexivity|].
  cbn [numericProfile Profile.count Profile.min Profile.max Profile.median].
  fold (numbers_of cells). fold (numbers_of cells').
  pose proof (numbers_of_perm HP) as HN.
  pose proof (numbers_no_nan cells) as Hnn.
  pose proof (@numbers_valid cells Hvalid) as Hv.
  assert (Hne : numbers_of cells <> [])
    by (intro Z; rewrite Z in Hpos; simpl in Hpos; lia).
  split; [symmetry; now apply Permutation_length|].
  split; [symmetry; now apply toFixed_key, Math_min_key|].
  split; [symmetry; now apply toFixed_key, Math_max_key|].
  symmetry. now apply toFixed_key, median_key.
Qed.

Lemma numeric_profile_order_independent_witness :
  exists p',
    analyzeColumn [CNum (of_Z 2); CStr "10"; CNum (of_Z 3)] = Numeric p'
    /\ Profile.count p' = 3
    /\ Profile.min p' = "2.00"
    /\ Profile.max p' = "10.00"
    /\ Profile.median p' = "3.00".
Proof.
  exact (@numeric_profile_order_independent
           [CStr "10"; CNum (of_Z 2); CNum (of_Z 3)]
           [CNum (of_Z 2); CStr "10"; CNum (of_Z 3)]
           (numericProfile [CStr "10"; CNum (of_Z 2); CNum (of_Z 3)])
           (perm_swap (CNum (of_Z 2)) (CStr "10") [CNum (of_Z 3)])
           eq_refl eq_refl).
Defined.

(** ** The colours of a chart *)

Lemma fills_seq {A} (series : list A) :
  fills series = map fill (seq 0 (List.length series)).
Proof.
  unfold fills, mapi. generalize 0.
  induction series as [|x l IH]; intro k; [reflexivity|].
  cbn [mapi_from List.length seq map]. now rewrite IH.
Qed.

Lemma getChartData_length_le (data : list row) (column : string) (limit : nat) :
  List.length (getChartData data column limit) <= limit.
Proof.
  rewrite getChartData_entries.
  destruct ((List.length data =? 0) || String.eqb column ""); [simpl; lia|].
  rewrite length_map, length_firstn. lia.
Qed.

Lemma NoDup_firstn {A} (n : nat) (l : list A) : NoDup l -> NoDup (firstn n l).
Proof.
  intro H. rewrite <- (firstn_skipn n l) in H. now apply NoDup_app_remove_r in H.
Qed.

Lemma seq_firstn (n m : nat) : n <= m -> seq 0 n = firstn n (seq 0 m).
Proof.
  intro H. replace m with (n + (m - n)) by lia.
  rewrite seq_app, firstn_app, length_seq, Nat.sub_diag, firstn_O, app_nil_r.
  rewrite firstn_all2; [reflexivity | rewrite length_seq; lia].
Qed.

(** X22: every slice of a pie chart has a colour of its own, since a pie
    chart has at most eight slices and the eight colours are distinct; every
    cell of a chart has a colour; and in a bar chart of ten bars the ninth
    and the tenth bar repeat the colours of the first and the second. *)
Theorem pie_slices_have_distinct_colours (data : list row) (column : string) :
  let slices := getChartData data column 8 in
  let bars := getChartData data column 10 in
  List.length slices <= 8
  /\ NoDup (fills slices)
  /\ Forall (fun c => In c (map Some COLORS)) (fills bars)
  /\ (List.length bars = 10 ->
      nth 8 (fills bars) None = nth 0 (fills bars) None
      /\ nth 9 (fills bars) None = nth 1 (fills bars) None).
Proof.
  intros slices bars.
  assert (L8 : List.length slices <= 8) by apply getChartData_length_le.
  assert (L10 : List.length bars <= 10) by apply getChartData_length_le.
  split; [exact L8|]. split; [|split].
  - rewrite fills_seq, (seq_firstn L8), <- firstn_map.
    apply NoDup_firstn. vm_compute. repeat constructor; simpl; intuition discriminate.
  - rewrite fills_seq, (seq_firstn L10), <- firstn_map.
    rewrite Forall_forall. intros c Hc. apply In_firstn in Hc.
    vm_compute in Hc. vm_compute. intuition auto.
  - intro E. rewrite fills_seq, E. vm_compute. split; reflexivity.
Qed.

(** ** The number a counted string stands for *)

Section CountedStrings.
Local Open Scope char_scope.

Lemma space_inert (c : ascii) :
  is_space c = true ->
  is_digit c = false /\ Ascii.eqb c "." = false
  /\ Ascii.eqb c "e" = false /\ Ascii.eqb c "E" = false
  /\ Ascii.eqb c "+" = false /\ Ascii.eqb c "-" = false
  /\ Ascii.eqb "I" c = false.
Proof.
  destruct c as [[] [] [] [] [] [] [] []]; intro H;
    try discriminate H; repeat split; reflexivity.
Qed.

Lemma while_app (p : ascii -> bool) (l w : list ascii) :
  match w with [] => True | c :: _ => p c = false end ->
  take_while p (l ++ w) = take_while p l
  /\ drop_while p (l ++ w) = (drop_while p l ++ w)%list.
Proof.
  intro H. induction l as [|a l [IH1 IH2]]; cbn [app take_while drop_while].
  - destruct w as [|c w]; [split; reflexivity|].
    cbn [take_while drop_while]. rewrite H. split; reflexivity.
  - destruct (p a); [now rewrite IH1, IH2 | split; reflexivity].
Qed.

Lemma spaces_head (p : ascii -> bool) (w : list ascii) :
  forallb is_space w = true ->
  (forall c, is_space c = true -> p c = false) ->
  match w with [] => True | c :: _ => p c = false end.
Proof.
  destruct w as [|c w]; [trivial|]. cbn [forallb].
  rewrite andb_true_iff. intros [H _] Hp. now apply Hp.
Qed.

Lemma trim_split (l : list ascii) :
  exists w, trim_start l = (trim l ++ w)%list /\ forallb is_space w = true.
Proof.
  unfold trim, trim_start. set (d := drop_while is_space l).
  exists (rev (take_while is_space (rev d))). split.
  - rewrite <- rev_app_distr.
    assert (E : forall m, (take_while is_space m ++ drop_while is_space m)%list = m).
    { induction m as [|a m IH]; [reflexivity|]. cbn [take_while drop_while].
      destruct (is_space a); [cbn [app]; now rewrite IH | reflexivity]. }
    now rewrite E, rev_involutive.
  - rewrite forallb_forall. intros c Hc. apply in_rev in Hc.
    induction (rev d) as [|a m IH]; [destruct Hc|]. cbn [take_while] in Hc.
    destruct (is_space a) eqn:S; [|destruct Hc].
    destruct Hc as [<-|Hc]; [exact S | now apply IH].
Qed.

Lemma drop_while_head (p : ascii -> bool) (l : list ascii) :
  match drop_while p l with [] => True | c :: _ => p c = false end.
Proof.
  induction l as [|a l IH]; [exact I|]. cbn [drop_while].
  destruct (p a) eqn:S; [exact IH | exact S].
Qed.

Lemma trim_nil (l : list ascii) : trim l = [] -> trim_start l = [].
Proof.
  unfold trim, trim_start. set (d := drop_while is_space l). intro H.
  assert (Hd : match d with [] => True | c :: _ => is_space c = false end)
    by apply drop_while_head.
  destruct d as [|c d']; [reflexivity|]. exfalso.
  apply (f_equal (@rev ascii)) in H. rewrite rev_involutive in H. cbn [rev] in H.
  assert (G : forall m, drop_while is_space (m ++ [c]) <> []).
  { induction m as [|a m IH]; cbn [app drop_while].
    - now rewrite Hd.
    - destruct (is_space a); [exact IH | discriminate]. }
  exact (G (rev d') H).
Qed.

Lemma scan_exponent_app (l w : list ascii) :
  forallb is_space w = true ->
  scan_exponent (l ++ w)
  = (fst (scan_exponent l), (snd (scan_exponent l) ++ w)%list).
Proof.
  intro Hw.
  assert (Hd : match w with [] => True | c :: _ => is_digit c = false end).
  { apply spaces_head; auto. intros c Hc. apply space_inert, Hc. }
  destruct l as [|c r].
  - cbn [app]. destruct w as [|s w']; [reflexivity|].
    cbn [forallb] in Hw. apply andb_true_iff in Hw. destruct Hw as [Hs _].
    destruct (space_inert s Hs) as (_ & _ & E1 & E2 & _).
    unfold scan_exponent. now rewrite E1, E2.
  - cbn [app]. unfold scan_exponent.
    destruct (Ascii.eqb c "e" || Ascii.eqb c "E"); [|reflexivity].
    destruct r as [|s r'].
    + cbn [app]. destruct w as [|s w']; [reflexivity|].
      cbn [forallb] in Hw. apply andb_true_iff in Hw. destruct Hw as [Hs _].
      destruct (space_inert s Hs) as (D & _ & _ & _ & E1 & E2 & _).
      rewrite E1, E2. cbn [take_while]. now rewrite D.
    + cbn [app].
      destruct (Ascii.eqb s "+"); [|destruct (Ascii.eqb s "-")].
      * destruct (while_app is_digit r' w Hd) as [-> ->].
        now destruct (take_while is_digit r').
      * destruct (while_app is_digit r' w Hd) as [-> ->].
        now destruct (take_while is_digit r').
      * change (s :: (r' ++ w))%list with ((s :: r') ++ w)%list.
        destruct (while_app is_digit (s :: r') w Hd) as [-> ->].
        now destruct (take_while is_digit (s :: r')).
Qed.

Lemma strip_app (pre l w r : list ascii) :
  strip pre l = Some r -> strip pre (l ++ w) = Some (r ++ w)%list.
Proof.
  revert l. induction pre as [|p pre IH]; intros l H.
  - injection H as <-. reflexivity.
  - destruct l as [|c l]; [discriminate H|]. cbn [strip app] in *.
    destruct (Ascii.eqb p c); [now apply IH | discriminate H].
Qed.

Lemma strip_Infinity_spaces (l w : list ascii) :
  forallb is_space w = true ->
  strip (list_ascii_of_string "Infinity") l = None ->
  strip (list_ascii_of_string "Infinity") (l ++ w) = None
  \/ take_while is_digit l = [] /\ drop_while is_digit l = l
     /\ match l with "." :: _ => False | _ => True end.
Proof.
  intros Hw H.
  destruct l as [|c l].
  - right. repeat split.
  - cbn [list_ascii_of_string strip app] in *.
    destruct (Ascii.eqb "I" c) eqn:E; [|now left].
    apply Ascii.eqb_eq in E. subst c. right. repeat split.
Qed.

Lemma scan_unsigned_eq (l : list ascii) :
  scan_unsigned l =
  match strip (list_ascii_of_string "Infinity") l with
  | Some r => Some (MInfinity, r)
  | None =>
      let ip := take_while is_digit l in
      let r1 := drop_while is_digit l in
      let plain :=
        match ip with
        | [] => None
        | _ => let '(ex, r4) := scan_exponent r1 in
               Some (MVal (mantissa_val ip [] ex), r4)
        end in
      match r1 with
      | c :: r2 =>
          if Ascii.eqb c "." then
            let fp := take_while is_digit r2 in
            let r3 := drop_while is_digit r2 in
            match ip, fp with
            | [], [] => None
            | _, _ => let '(ex, r4) := scan_exponent r3 in
                      Some (MVal (mantissa_val ip fp ex), r4)
            end
          else plain
      | [] => plain
      end
  end.
Proof.
  unfold scan_unsigned.
  destruct (strip (list_ascii_of_string "Infinity") l); [reflexivity|].
  cbv zeta. destruct (drop_while is_digit l) as [|c r2]; [reflexivity|].
  destruct c as [[] [] [] [] [] [] [] []]; reflexivity.
Qed.

Lemma scan_unsigned_app (l w : list ascii) (m : magnitude) (r : list ascii) :
  forallb is_space w = true ->
  scan_unsigned l = Some (m, r) ->
  scan_unsigned (l ++ w) = Some (m, (r ++ w)%list).
Proof.
  intros Hw H.
  assert (Hd : match w with [] => True | c :: _ => is_digit c = false end).
  { apply spaces_head; auto. intros c Hc. apply space_inert, Hc. }
  rewrite scan_unsigned_eq in *.
  destruct (strip (list_ascii_of_string "Infinity") l) as [r0|] eqn:S.
  { injection H as <- <-. now rewrite (@strip_app _ l w r0 S). }
  assert (S' : strip (list_ascii_of_string "Infinity") (l ++ w) = None).
  { destruct (@strip_Infinity_spaces l w Hw S) as [N|(T & D & Dot)]; [exact N|].
    exfalso. cbv zeta in H. rewrite T, D in H.
    destruct l as [|c l']; [discriminate H|].
    destruct (Ascii.eqb c ".") eqn:E; [|discriminate H].
    apply Ascii.eqb_eq in E. subst c. exact Dot. }
  rewrite S'. cbv zeta in *.
  destruct (while_app is_digit l w Hd) as [-> ->].
  set (ip := take_while is_digit l) in *.
  destruct (drop_while is_digit l) as [|c r2] eqn:R1.
  - cbn [app]. destruct ip as [|i ip']; [discriminate H|].
    replace (scan_exponent []) with (0%Z, @nil ascii) in H by reflexivity.
    injection H as <- <-.
    pose proof (@scan_exponent_app [] w Hw) as X. cbn [app] in X.
    destruct w as [|s w']; [reflexivity|].
    cbn [forallb] in Hw. apply andb_true_iff in Hw. destruct Hw as [Hs _].
    destruct (space_inert s Hs) as (_ & E0 & _). rewrite E0, X. reflexivity.
  - cbn [app]. destruct (Ascii.eqb c ".").
    + destruct (while_app is_digit r2 w Hd) as [-> ->].
      rewrite scan_exponent_app by exact Hw.
      destruct ip as [|i ip'], (take_while is_digit r2) as [|f fp'];
        try discriminate H;
        destruct (scan_exponent (drop_while is_digit r2)) as [ex r4];
        injection H as <- <-; reflexivity.
    + destruct ip as [|i ip']; [discriminate H|].
      change (c :: (r2 ++ w))%list with ((c :: r2) ++ w)%list.
      rewrite scan_exponent_app by exact Hw.
      destruct (scan_exponent (c :: r2)) as [ex r4].
      injection H as <- <-. reflexivity.
Qed.

Lemma scan_decimal_eq (l : list ascii) :
  scan_decimal l =
  let '(negative, body) :=
    match l with
    | c :: r => if Ascii.eqb c "+" then (false, r)
                else if Ascii.eqb c "-" then (true, r) else (false, l)
    | [] => (false, l)
    end in
  match scan_unsigned body with
  | Some (m, r) => Some (of_magnitude negative m, r)
  | None => None
  end.
Proof.
  unfold scan_decimal. destruct l as [|c r]; [reflexivity|].
  destruct c as [[] [] [] [] [] [] [] []]; reflexivity.
Qed.

Lemma scan_decimal_app (l w : list ascii) (x : number) (r : list ascii) :
  forallb is_space w = true ->
  scan_decimal l = Some (x, r) ->
  scan_decimal (l ++ w) = Some (x, (r ++ w)%list).
Proof.
  intros Hw H. rewrite scan_decimal_eq in *.
  destruct l as [|c l'].
  - discriminate H.
  - cbn [app].
    destruct (Ascii.eqb c "+"); [|destruct (Ascii.eqb c "-")].
    + destruct (scan_unsigned l') as [[m r0]|] eqn:U; [|discriminate H].
      injection H as <- <-. now rewrite (@scan_unsigned_app _ w _ _ Hw U).
    + destruct (scan_unsigned l') as [[m r0]|] eqn:U; [|discriminate H].
      injection H as <- <-. now rewrite (@scan_unsigned_app _ w _ _ Hw U).
    + destruct (scan_unsigned (c :: l')) as [[m r0]|] eqn:U; [|discriminate H].
      injection H as <- <-.
      change (c :: (l' ++ w))%list with ((c :: l') ++ w)%list.
      now rewrite (@scan_unsigned_app _ w _ _ Hw U).
Qed.

Lemma parseFloat_nondecimal (l w : list ascii) (x : number) :
  scan_nondecimal l = Some x ->
  scan_decimal (l ++ w) = Some (zero, (tl l ++ w)%list).
Proof.
  intro H. destruct l as [|c [|k [|d ds]]]; try discriminate H.
  - destruct c as [[] [] [] [] [] [] [] []]; discriminate H.
  - destruct c as [[] [] [] [] [] [] [] []]; discriminate H.
  - destruct c as [[] [] [] [] [] [] [] []]; try discriminate H.
    assert (K : Ascii.eqb k "b" || Ascii.eqb k "B" || Ascii.eqb k "o"
                || Ascii.eqb k "O" || Ascii.eqb k "x" || Ascii.eqb k "X" = true).
    { cbn [scan_nondecimal] in H. revert H.
      destruct (Ascii.eqb k "b"), (Ascii.eqb k "B"), (Ascii.eqb k "o"),
               (Ascii.eqb k "O"), (Ascii.eqb k "x"), (Ascii.eqb k "X");
        intro H; try reflexivity; discriminate H. }
    rewrite !orb_true_iff, !Ascii.eqb_eq in K.
    destruct K as [[[[[->| ->]| ->]| ->]| ->]| ->]; reflexivity.
Qed.

(** X23: the number a counted string enters the statistics with.  A string
    that is counted is not blank; if, trimmed, it is a binary, octal or
    hexadecimal literal (0b.., 0o.., 0x..), it is counted because [Number]
    reads it as that integer, but it enters the statistics and the series as
    0, the number [parseFloat] reads; every other counted string enters with
    the finite number [Number] reads. *)
Theorem counted_string_number (s : string) :
  counted (CStr s) = true ->
  let t := trim (list_ascii_of_string s) in
  (exists x, scan_nondecimal t = Some x
             /\ ToNumber (CStr s) = x /\ coerce (CStr s) = zero)
  \/ (scan_nondecimal t = None
      /\ coerce (CStr s) = ToNumber (CStr s)
      /\ is_finite (coerce (CStr s)) = true).
Proof.
  unfold counted. rewrite andb_true_iff, numeric_string, andb_true_iff.
  intros (_ & Hp & Hf).
  cbn [coerce ToNumber JsString]. unfold parseFloat, StringToNumber in *.
  destruct (trim_split (list_ascii_of_string s)) as (w & E & Hw).
  set (t := trim (list_ascii_of_string s)) in *. rewrite E in Hp |- *.
  destruct t as [|c t'] eqn:T.
  { exfalso. cbn [app] in E.
    assert (N : trim_start (list_ascii_of_string s) = [])
      by (apply trim_nil; exact T).
    rewrite <- E, N in Hp. discriminate Hp. }
  destruct (scan_nondecimal (c :: t')) as [x|] eqn:ND.
  - left. exists x. split; [reflexivity|]. split; [reflexivity|].
    now rewrite (@parseFloat_nondecimal (c :: t') w x ND).
  - right. split; [reflexivity|].
    destruct (scan_decimal (c :: t')) as [[x [|r0 r]]|] eqn:SD;
      try discriminate Hf.
    rewrite (@scan_decimal_app (c :: t') w x [] Hw SD). split; [reflexivity | exact Hf].
Qed.

Lemma counted_string_number_witness :
  exists x, scan_nondecimal (trim (list_ascii_of_string "0x1A")) = Some x
            /\ ToNumber (CStr "0x1A") = x /\ coerce (CStr "0x1A") = zero.
Proof.
  destruct (@counted_string_number "0x1A" eq_refl) as [H|H].
  - exact H.
  - destruct H as [H _]. discriminate H.
Defined.

Example hexadecimal_column :
  ToNumber (CStr "0x1A") = of_Z 26
  /\ analyzeColumn [CStr "0x1A"; CStr "0xff"] =
     Numeric {| Profile.mean := "0.00"; Profile.median := "0.00";
                Profile.min := "0.00"; Profile.max := "0.00";
                Profile.sum := "0.00"; Profile.count := 2 |}.
Proof. vm_compute. split; reflexivity. Qed.

End CountedStrings.

